(** * Marching squares with barrier-synchronised workers (tema1_par.c)

    A shallow embedding of the parallel contour extractor: the pixel
    buffers and the sampling grid are lists indexed by the C [int]
    offsets the program computes, every array access is checked (an
    access outside its buffer is undefined behaviour and is modelled by
    [None]), and the three stages of a worker are functions of the
    worker's [thread_id] and the worker count [N].

    C [int] values are modelled by [Z]: overflow of a signed [int] is
    undefined in C, and every offset that passes the bounds check of its
    buffer is below the number of pixels of an image.  The only narrowing
    conversions are the two assignments to an [unsigned char]
    ([curr_color] and [k]); they are written out with [uchar]. *)

From stdpp Require Import base tactics option list numbers gmap strings pretty.
From Stdlib Require Import ZArith Lia.

Open Scope Z_scope.

(** ** Constants of the program *)

Definition CONTOUR_CONFIG_COUNT : Z := 16.
Definition STEP : Z := 8.
Definition SIGMA : Z := 200.
Definition RESCALE_X : Z := 2048.
Definition RESCALE_Y : Z := 2048.

(** Conversion to [unsigned char]. *)
Definition uchar (v : Z) : Z := v `mod` 256.

(** The macro [CLAMP(v, min, max)], on integers: the value [v] holds after
    the statement. *)
Definition CLAMP (v min max : Z) : Z :=
  if bool_decide (v < min) then min
  else if bool_decide (v > max) then max
  else v.

(** ** Data model (helpers.h) *)

Record ppm_pixel := Pixel { red : Z; green : Z; blue : Z }.

(** [data] is a pointer in the source; [None] is the null pointer. *)
Record ppm_image := Image { x : Z; y : Z; data : option (list ppm_pixel) }.

(** [unsigned char **grid]: a list of rows. *)
Definition grid_t := list (list Z).

(** ** Checked array accesses *)

Definition load {A} (l : list A) (i : Z) : option A :=
  if bool_decide (0 ≤ i) then l !! Z.to_nat i else None.

Definition store {A} (l : list A) (i : Z) (v : A) : option (list A) :=
  if bool_decide (0 ≤ i < Z.of_nat (length l))
  then Some (<[Z.to_nat i := v]> l) else None.

(** [image->data[i]] as an rvalue. *)
Definition pixel_at (image : ppm_image) (i : Z) : option ppm_pixel :=
  d ← data image; load d i.

(** [image->data[i].red = ...; .green = ...; .blue = ...]. *)
Definition set_pixel (image : ppm_image) (i : Z) (v : ppm_pixel) : option ppm_image :=
  d ← data image; d' ← store d i v; Some (Image (x image) (y image) (Some d')).

(** [grid[i][j]] as an rvalue. *)
Definition grid_get (grid : grid_t) (i j : Z) : option Z :=
  row ← load grid i; load row j.

(** [grid[i][j] = v]. *)
Definition grid_set (grid : grid_t) (i j : Z) (v : Z) : option grid_t :=
  row ← load grid i; row' ← store row j v; store grid i row'.

(** ** Loops *)

(** [n] iterations of [body], the counter starting at [i]. *)
Fixpoint iterate {St} (n : nat) (i : Z) (body : Z → St → option St) (s : St) : option St :=
  match n with
  | O => Some s
  | S n' => s' ← body i s; iterate n' (i + 1) body s'
  end.

(** [for (int i = lo; i < hi; i++) body]. *)
Definition for_range {St} (lo hi : Z) (body : Z → St → option St) (s : St) : option St :=
  iterate (Z.to_nat (hi - lo)) lo body s.

(** ** Worker partition: [thread_id * (extent / N)] and
    [(thread_id + 1) * (extent / N)]; [/] on [int] truncates. *)

Definition part_start (thread_id extent N : Z) : Z := thread_id * (extent ÷ N).
Definition part_end (thread_id extent N : Z) : Z := (thread_id + 1) * (extent ÷ N).

(** ** update_image *)

Definition update_image (image contour : ppm_image) (x0 y0 : Z) : option ppm_image :=
  for_range 0 (x contour) (λ i image,
    for_range 0 (y contour) (λ j image,
      let contour_pixel_index := x contour * i + j in
      let image_pixel_index := (x0 + i) * y image + y0 + j in
      px ← pixel_at contour contour_pixel_index;
      set_pixel image image_pixel_index px) image) image.

(** ** sample_grid *)

(** The comparison against [SIGMA] of one pixel. *)
Definition threshold (curr_pixel : ppm_pixel) : Z :=
  let curr_color := uchar ((red curr_pixel + green curr_pixel + blue curr_pixel) ÷ 3) in
  if bool_decide (curr_color > SIGMA) then 0 else 1.

(** First loop nest: the interior sample points. *)
Definition sample_interior (image : ppm_image) (thread_id N : Z) (grid : grid_t)
  : option grid_t :=
  let p := x image ÷ STEP in
  let q := y image ÷ STEP in
  for_range (part_start thread_id p N) (part_end thread_id p N) (λ i grid,
    for_range 0 q (λ j grid,
      curr_pixel ← pixel_at image (i * STEP * y image + j * STEP);
      grid_set grid i j (threshold curr_pixel)) grid) grid.

(** Second loop: the last grid column. *)
Definition sample_last_column (image : ppm_image) (thread_id N : Z) (grid : grid_t)
  : option grid_t :=
  let p := x image ÷ STEP in
  let q := y image ÷ STEP in
  for_range (part_start thread_id p N) (part_end thread_id p N) (λ i grid,
    curr_pixel ← pixel_at image (i * STEP * y image + x image - 1);
    grid_set grid i q (threshold curr_pixel)) grid.

(** Third loop: the last grid row. *)
Definition sample_last_row (image : ppm_image) (thread_id N : Z) (grid : grid_t)
  : option grid_t :=
  let p := x image ÷ STEP in
  let q := y image ÷ STEP in
  for_range (part_start thread_id q N) (part_end thread_id q N) (λ j grid,
    curr_pixel ← pixel_at image ((x image - 1) * y image + j * STEP);
    grid_set grid p j (threshold curr_pixel)) grid.

Definition sample_grid (image : ppm_image) (grid : grid_t) (thread_id N : Z)
  : option grid_t :=
  let p := x image ÷ STEP in
  let q := y image ÷ STEP in
  grid ← sample_interior image thread_id N grid;
  grid ← grid_set grid p q 0;
  grid ← sample_last_column image thread_id N grid;
  sample_last_row image thread_id N grid.

(** ** march *)

(** The configuration index of cell [(i, j)]. *)
Definition config_index (grid : grid_t) (i j : Z) : option Z :=
  a ← grid_get grid i j;
  b ← grid_get grid i (j + 1);
  c ← grid_get grid (i + 1) (j + 1);
  d ← grid_get grid (i + 1) j;
  Some (uchar (8 * a + 4 * b + 2 * c + 1 * d)).

Definition march (image : ppm_image) (grid : grid_t) (contour_map : list ppm_image)
    (thread_id N : Z) : option ppm_image :=
  let p := x image ÷ STEP in
  let q := y image ÷ STEP in
  for_range (part_start thread_id p N) (part_end thread_id p N) (λ i image,
    for_range 0 q (λ j image,
      k ← config_index grid i j;
      contour ← load contour_map k;
      update_image image contour (i * STEP) (j * STEP)) image) image.

(** ** Process level: outcomes, the heap of image structs, the allocator *)

(** How a call ends: it returns, the process ends with a status and a
    text on [stderr], or the behaviour is undefined. *)
Inductive outcome (A : Type) : Type :=
  | Ret (a : A)
  | Exit (status : Z) (diagnostic : string)
  | Undefined.
Arguments Ret {A} a.
Arguments Exit {A} status diagnostic.
Arguments Undefined {A}.

Definition obind {A B} (m : outcome A) (f : A → outcome B) : outcome B :=
  match m with
  | Ret a => f a
  | Exit s d => Exit s d
  | Undefined => Undefined
  end.

#[global] Instance outcome_bind : MBind outcome := λ A B f m, obind m f.
#[global] Instance outcome_ret : MRet outcome := λ A a, Ret a.

(** An access outside a buffer is undefined behaviour. *)
Definition defined {A} (m : option A) : outcome A :=
  match m with Some a => Ret a | None => Undefined end.

(** What [malloc] hands back: the null pointer, or a fresh block whose
    cells hold arbitrary values ([junk] gives the value of each cell). *)
Inductive malloc_result (A : Type) : Type :=
  | Null
  | Block (junk : Z → A).
Arguments Null {A}.
Arguments Block {A} junk.

(** The [n] cells of a block. *)
Definition cells {A} (junk : Z → A) (n : Z) : list A := junk <$> seqZ 0 n.

(** Pointers to [ppm_image] structs and the structs they point to. *)
Abbreviation addr := positive.
Abbreviation heap_t := (gmap positive ppm_image).

(** A struct at a new address, distinct from every live one. *)
Definition new_struct (heap : heap_t) (v : ppm_image) : addr * heap_t :=
  let a := fresh (dom heap) in (a, <[a := v]> heap).

Definition newline : string := String (Ascii.ascii_of_nat 10) EmptyString.
Definition alloc_diagnostic : string := "Unable to allocate memory" +:+ newline.
Definition usage_diagnostic : string :=
  "Usage: ./tema1 <in_file> <out_file> <P>" +:+ newline.

(** ** allocate_rescale *)

Definition allocate_rescale (heap : heap_t)
    (m_image : malloc_result unit) (m_data : malloc_result ppm_pixel)
  : outcome (addr * heap_t) :=
  match m_image with
  | Null => Exit 1 alloc_diagnostic
  | Block _ =>
      let new_x := RESCALE_X in
      let new_y := RESCALE_Y in
      let new_data :=
        match m_data with
        | Null => None
        | Block junk => Some (cells junk (new_x * new_y))
        end in
      (* the second test looks at [new_image] again, which is not null *)
      Ret (new_struct heap (Image new_x new_y new_data))
  end.

(** ** allocate_grid *)

(** The loop over the rows [i], [i + 1], ... ([n] of them), each with
    [q + 1] cells. *)
Fixpoint allocate_rows (m_row : Z → malloc_result Z) (q : Z) (n : nat) (i : Z)
  : outcome grid_t :=
  match n with
  | O => Ret []
  | S n' =>
      match m_row i with
      | Null => Exit 1 alloc_diagnostic
      | Block junk =>
          rest ← allocate_rows m_row q n' (i + 1); Ret (cells junk (q + 1) :: rest)
      end
  end.

Definition allocate_grid (image : ppm_image)
    (m_grid : malloc_result unit) (m_row : Z → malloc_result Z) : outcome grid_t :=
  let p := x image ÷ STEP in
  let q := y image ÷ STEP in
  match m_grid with
  | Null => Exit 1 alloc_diagnostic
  | Block _ => allocate_rows m_row q (Z.to_nat (p + 1)) 0
  end.

(** ** The external helpers (helpers.c) and the rest of the program *)

Section program.

(** [float] and the two operations [rescale_image] applies to it. *)
Variable float : Type.
Variable float_of_int : Z → float.
Variable fdiv : float → float → float.

(** [sample_bicubic(image, u, v, sample)]: the three bytes it leaves in
    [sample]. *)
Variable sample_bicubic : ppm_image → float → float → ppm_pixel.

(** [read_ppm(filename)]: the decoded image, or the end of the process. *)
Variable read_ppm : string → outcome ppm_image.

Variable atoi : string → Z.

(** *** rescale_image *)

Definition rescale_image (image new_image : ppm_image) (thread_id N : Z)
  : option ppm_image :=
  let start := thread_id * (x new_image ÷ N) in
  let end_ := (thread_id + 1) * (x new_image ÷ N) in
  for_range start (end_ `min` x new_image) (λ i new_image,
    for_range 0 (y new_image) (λ j new_image,
      let u := fdiv (float_of_int i) (float_of_int (x new_image - 1)) in
      let v := fdiv (float_of_int j) (float_of_int (y new_image - 1)) in
      let sample := sample_bicubic image u v in
      set_pixel new_image (i * y new_image + j) sample) new_image) new_image.

(** *** init_contour_map *)

Definition contour_filename (i : Z) : string :=
  "./contours/" +:+ pretty i +:+ ".ppm".

Fixpoint read_contours (n : nat) (i : Z) : outcome (list ppm_image) :=
  match n with
  | O => Ret []
  | S n' =>
      c ← read_ppm (contour_filename i);
      rest ← read_contours n' (i + 1);
      Ret (c :: rest)
  end.

Definition init_contour_map (m_map : malloc_result unit) : outcome (list ppm_image) :=
  match m_map with
  | Null => Exit 1 alloc_diagnostic
  | Block _ => read_contours (Z.to_nat CONTOUR_CONFIG_COUNT) 0
  end.

(** *** The worker ([struct image] and [apeleaza]) *)

(** What the workers share: the image structs behind the pointers and
    the grid.  The contour map is only read. *)
Record shared := Shared { structs : gmap positive ppm_image; grid : grid_t }.

(** The fields of a worker's [struct image] that differ from the shared
    objects: its id, the two image pointers and [N]. *)
Record worker := Worker {
  thread_id : Z;
  image : positive;
  scaled_image : positive;
  N : Z
}.

(** [apeleaza] up to the first barrier. *)
Definition apeleaza_rescale (im : worker) (s : shared) : option shared :=
  if decide (image im ≠ scaled_image im) then
    src ← structs s !! image im;
    dst ← structs s !! scaled_image im;
    dst' ← rescale_image src dst (thread_id im) (N im);
    Some (Shared (<[scaled_image im := dst']> (structs s)) (grid s))
  else Some s.

(** Between the first and the second barrier. *)
Definition apeleaza_sample (im : worker) (s : shared) : option shared :=
  img ← structs s !! scaled_image im;
  grid' ← sample_grid img (grid s) (thread_id im) (N im);
  Some (Shared (structs s) grid').

(** Between the second and the third barrier. *)
Definition apeleaza_march (contour_map : list ppm_image) (im : worker) (s : shared)
  : option shared :=
  img ← structs s !! scaled_image im;
  img' ← march img (grid s) contour_map (thread_id im) (N im);
  Some (Shared (<[scaled_image im := img']> (structs s)) (grid s)).

(** One stage of all workers, between two barriers: the workers run the
    stage in the order [sched] (a permutation of the thread ids).  Within
    a stage a worker reads only what no worker writes in that stage, so
    the order inside a stage is the only freedom the barrier leaves. *)
Fixpoint run_stage (stage : worker → shared → option shared)
    (mk : Z → worker) (sched : list Z) (s : shared) : option shared :=
  match sched with
  | [] => Some s
  | t :: sched' => s' ← stage (mk t) s; run_stage stage mk sched' s'
  end.

(** The orders of the three stages. *)
Record schedule := Schedule {
  sched_rescale : list Z;
  sched_sample : list Z;
  sched_march : list Z
}.

Definition valid_schedule (N : Z) (sc : schedule) : Prop :=
  sched_rescale sc ≡ₚ seqZ 0 N ∧
  sched_sample sc ≡ₚ seqZ 0 N ∧
  sched_march sc ≡ₚ seqZ 0 N.

(** The [N] threads from [pthread_create] to [pthread_join]. *)
Definition run_workers (contour_map : list ppm_image) (image scaled_image : positive)
    (N : Z) (sc : schedule) (s : shared) : option shared :=
  let mk t := Worker t image scaled_image N in
  s ← run_stage apeleaza_rescale mk (sched_rescale sc) s;
  s ← run_stage apeleaza_sample mk (sched_sample sc) s;
  run_stage (apeleaza_march contour_map) mk (sched_march sc) s.

(** *** main *)

(** The results of the calls to [malloc], in program order. *)
Record mallocs := Mallocs {
  m_imagine : malloc_result unit;
  m_threads : malloc_result unit;
  m_map : malloc_result unit;
  m_new_image : malloc_result unit;
  m_new_data : malloc_result ppm_pixel;
  m_grid : malloc_result unit;
  m_grid_row : Z → malloc_result Z
}.

(** Lines 312-320: the working image is the source or a new struct. *)
Definition working_image (heap : gmap positive ppm_image) (image : positive)
    (img : ppm_image) (m : mallocs) : outcome (positive * gmap positive ppm_image) :=
  if bool_decide (x img ≤ RESCALE_X) && bool_decide (y img ≤ RESCALE_Y)
  then Ret (image, heap)
  else allocate_rescale heap (m_new_image m) (m_new_data m).

(** Lines 322-346: the grid, the workers and the output; what [write_ppm]
    is given (the file name and the image) when [main] returns 0. *)
Definition main_workers (out_file : string) (m : mallocs) (sc : schedule) (N : Z)
    (contour_map : list ppm_image) (image scaled_image : positive)
    (heap : gmap positive ppm_image) : outcome (string * ppm_image) :=
  scaled ← defined (heap !! scaled_image);
  grid ← allocate_grid scaled (m_grid m) (m_grid_row m);
  (* the loop that fills [imagine[i]] and [threads[i]] writes through
     both pointers as soon as it runs once *)
  match bool_decide (0 < N), m_imagine m, m_threads m with
  | true, Null, _ | true, _, Null => Undefined
  | _, _, _ =>
      s ← defined (run_workers contour_map image scaled_image N sc (Shared heap grid));
      out ← defined (structs s !! scaled_image);
      Ret (out_file, out)
  end.

(** Everything after the check of [argc]. *)
Definition main_body (argv : list string) (m : mallocs) (sc : schedule)
  : outcome (string * ppm_image) :=
  in_file ← defined (argv !! 1%nat);
  out_file ← defined (argv !! 2%nat);
  arg3 ← defined (argv !! 3%nat);
  let N := atoi arg3 in
  img ← read_ppm in_file;
  let image := (new_struct ∅ img).1 in
  let heap := (new_struct ∅ img).2 in
  contour_map ← init_contour_map (m_map m);
  w ← working_image heap image img m;
  main_workers out_file m sc N contour_map image w.1 w.2.

Definition main (argv : list string) (m : mallocs) (sc : schedule)
  : outcome (string * ppm_image) :=
  let argc := Z.of_nat (length argv) in
  if bool_decide (argc < 4) then Exit 1 usage_diagnostic
  else main_body argv m sc.

End program.

(** * Vocabulary of the statements *)

(** ** The worker partition *)

(** Index [idx] belongs to worker [t] for an extent [e] split among [N]. *)
Definition assigned (t e N idx : Z) : Prop :=
  part_start t e N ≤ idx < part_end t e N.

#[global] Instance assigned_dec t e N idx : Decision (assigned t e N idx).
Proof. unfold assigned. apply _. Defined.

(** ** Well-formed images, grids and contour maps *)

(** The buffer of an image holds [x * y] pixels. *)
Definition valid_image (img : ppm_image) : Prop :=
  ∃ d, data img = Some d ∧ 0 ≤ x img ∧ 0 ≤ y img ∧
       Z.of_nat (length d) = x img * y img.

(** Every channel is a byte. *)
Definition byte_pixel (px : ppm_pixel) : Prop :=
  0 ≤ red px < 256 ∧ 0 ≤ green px < 256 ∧ 0 ≤ blue px < 256.

(** Every channel of every pixel of the buffer is a byte. *)
Definition byte_image (img : ppm_image) : Prop :=
  ∀ k px, pixel_at img k = Some px → byte_pixel px.

(** [img'] has the dimensions of [img] and a buffer of that size. *)
Definition same_shape (img img' : ppm_image) : Prop :=
  x img' = x img ∧ y img' = y img ∧ valid_image img'.

(** The pixel in row [r] and column [c]: offset [r * y + c]. *)
Definition pixel_rc (img : ppm_image) (r c : Z) : option ppm_pixel :=
  if decide (0 ≤ c < y img) then pixel_at img (r * y img + c) else None.

(** The grid has the rows [0..p] and the columns [0..q]. *)
Definition grid_dims (g : grid_t) (p q : Z) : Prop :=
  ∀ i j, is_Some (grid_get g i j) ↔ 0 ≤ i ≤ p ∧ 0 ≤ j ≤ q.

(** Every cell of the grid holds 0 or 1. *)
Definition binary_grid (g : grid_t) : Prop :=
  ∀ a b v, grid_get g a b = Some v → v = 0 ∨ v = 1.

(** A contour image of [STEP] rows and [STEP] columns. *)
Definition valid_contour (c : ppm_image) : Prop :=
  valid_image c ∧ x c = STEP ∧ y c = STEP.

(** Sixteen contour images of [STEP] by [STEP] pixels. *)
Definition valid_contour_map (contour_map : list ppm_image) : Prop :=
  Z.of_nat (length contour_map) = CONTOUR_CONFIG_COUNT ∧
  Forall valid_contour contour_map.

(** ** What the stages store *)

(** What the sampler stores in cell [(a, b)] of the grid. *)
Definition sample_value (img : ppm_image) (a b : Z) : option Z :=
  if decide (a < x img ÷ STEP ∧ b < y img ÷ STEP) then
    threshold <$> pixel_at img (a * STEP * y img + b * STEP)
  else if decide (a < x img ÷ STEP) then
    threshold <$> pixel_at img (a * STEP * y img + x img - 1)
  else if decide (b < y img ÷ STEP) then
    threshold <$> pixel_at img ((x img - 1) * y img + b * STEP)
  else Some 0.

(** Every pixel the sampler reads lies in the buffer. *)
Definition sample_defined (img : ppm_image) : Prop :=
  ∀ a b, 0 ≤ a ≤ x img ÷ STEP → 0 ≤ b ≤ y img ÷ STEP →
         is_Some (sample_value img a b).

(** The cells worker [t] writes in [sample_grid]. *)
Definition sample_writes (img : ppm_image) (t N a b : Z) : Prop :=
  (assigned t (x img ÷ STEP) N a ∧ 0 ≤ b ≤ y img ÷ STEP) ∨
  (a = x img ÷ STEP ∧ assigned t (y img ÷ STEP) N b) ∨
  (a = x img ÷ STEP ∧ b = y img ÷ STEP).

#[global] Instance sample_writes_dec img t N a b :
  Decision (sample_writes img t N a b).
Proof. unfold sample_writes. apply _. Defined.

(** The pixel the compositor puts in row [r] and column [c]: the pixel of
    the contour image of the cell, at the position inside the cell. *)
Definition march_value (g : grid_t) (contour_map : list ppm_image) (r c : Z)
  : option ppm_pixel :=
  k ← config_index g (r `div` STEP) (c `div` STEP);
  contour ← load contour_map k;
  pixel_at contour (x contour * (r `mod` STEP) + c `mod` STEP).

Section results.
Variable float : Type.
Variable float_of_int : Z → float.
Variable fdiv : float → float → float.
Variable sample_bicubic : ppm_image → float → float → ppm_pixel.

(** The pixel [rescale_image] computes for row [r] and column [c] of a new
    image of [nx] rows and [ny] columns. *)
Definition rescaled_pixel (src : ppm_image) (nx ny r c : Z) : ppm_pixel :=
  sample_bicubic src
    (fdiv (float_of_int r) (float_of_int (nx - 1)))
    (fdiv (float_of_int c) (float_of_int (ny - 1))).

(** The state the workers leave: [W] is the image that was sampled, [g']
  the grid after the sampling stage, [out] the working image at the
  end. *)
Definition pipeline_result (src work : ppm_image) (rescaled : bool)
    (contour_map : list ppm_image) (W : ppm_image) (g' : grid_t)
    (out : ppm_image) : Prop :=
  same_shape work W ∧ same_shape work out ∧
  (if rescaled
   then ∀ r c, 0 ≤ r < x work → 0 ≤ c < y work →
               pixel_rc W r c = Some (rescaled_pixel src (x work) (y work) r c)
   else W = src) ∧
  grid_dims g' (x work ÷ STEP) (y work ÷ STEP) ∧
  (∀ a b, 0 ≤ a ≤ x work ÷ STEP → 0 ≤ b ≤ y work ÷ STEP →
          grid_get g' a b = sample_value W a b) ∧
  ∀ r c, pixel_rc out r c =
         if decide (0 ≤ r < x work ÷ STEP * STEP ∧ 0 ≤ c < y work ÷ STEP * STEP)
         then march_value g' contour_map r c
         else pixel_rc W r c.

End results.

(** ** The environment of a run of [main] *)

(** The source has to be rescaled. *)
Definition needs_rescale (src : ppm_image) : bool :=
  negb (bool_decide (x src ≤ RESCALE_X) && bool_decide (y src ≤ RESCALE_Y)).

(** The dimensions of the working image. *)
Definition working_x (src : ppm_image) : Z :=
  if needs_rescale src then RESCALE_X else x src.
Definition working_y (src : ppm_image) : Z :=
  if needs_rescale src then RESCALE_Y else y src.

(** [N] divides every extent the stages split among the workers. *)
Definition divides_extents (src : ppm_image) (N : Z) : Prop :=
  (working_x src ÷ STEP) `mod` N = 0 ∧
  (working_y src ÷ STEP) `mod` N = 0 ∧
  (needs_rescale src = true → working_x src `mod` N = 0).

(** No call to [malloc] returns null. *)
Definition all_allocated (m : mallocs) : Prop :=
  m_imagine m ≠ Null ∧ m_threads m ≠ Null ∧ m_map m ≠ Null ∧
  m_new_image m ≠ Null ∧ m_new_data m ≠ Null ∧ m_grid m ≠ Null ∧
  ∀ i, m_grid_row m i ≠ Null.

(** The input files can be read: the source holds [x * y] pixels and the
    sixteen contour files hold images of [STEP] by [STEP] pixels. *)
Definition readable (read_ppm : string → outcome ppm_image)
    (in_file : string) (src : ppm_image) : Prop :=
  read_ppm in_file = Ret src ∧ valid_image src ∧
  ∀ k, 0 ≤ k < CONTOUR_CONFIG_COUNT →
       ∃ c, read_ppm (contour_filename k) = Ret c ∧ valid_contour c.

(** ** Inputs used in the examples *)

(** An image of [n] rows and [m] columns, every pixel [px]. *)
Definition flat_image (n m : Z) (px : ppm_pixel) : ppm_image :=
  Image n m (Some (replicate (Z.to_nat (n * m)) px)).

Definition white : ppm_pixel := Pixel 255 255 255.
Definition black : ppm_pixel := Pixel 0 0 0.

(** Eight rows of sixteen pixels, white except the last pixel of the first
    row, which is black. *)
Definition wide_image : ppm_image :=
  Image 8 16 (Some (replicate 15 white ++ black :: replicate 112 white)).

(** A source image of 4096 rows and 8 columns: it has to be rescaled. *)
Definition tall_image : ppm_image := flat_image 4096 8 white.

(** Every [malloc] succeeds except the one for the pixel buffer of the
    rescaled image. *)
Definition null_data_mallocs : mallocs :=
  Mallocs (Block (λ _, ())) (Block (λ _, ())) (Block (λ _, ()))
          (Block (λ _, ())) Null
          (Block (λ _, ())) (λ _, Block (λ _, 0)).

(** The file system: the source is white, 16 by 16; every other file is a
    black image of 8 by 8 pixels. *)
Definition demo_read_ppm (filename : string) : outcome ppm_image :=
  if String.eqb filename "in.ppm" then Ret (flat_image 16 16 white)
  else Ret (flat_image 8 8 black).

Definition demo_atoi (s : string) : Z := if String.eqb s "2" then 2 else 1.

Definition demo_mallocs : mallocs :=
  Mallocs (Block (λ _, ())) (Block (λ _, ())) (Block (λ _, ()))
          (Block (λ _, ())) (Block (λ _, black))
          (Block (λ _, ())) (λ _, Block (λ _, 7)).

(** A file system in which the contour file number 3 cannot be read. *)
Definition missing_contour_read_ppm (filename : string) : outcome ppm_image :=
  if String.eqb filename "./contours/3.ppm" then Exit 1 "Unable to open file"
  else Ret (flat_image 8 8 black).

(** A file system in which the source is white, 144 rows of 16 pixels (no
    rescaling is needed, [p = 18] and [q = 2]); every other file is a
    black image of 8 by 8 pixels. *)
Definition narrow_read_ppm (filename : string) : outcome ppm_image :=
  if String.eqb filename "in.ppm" then Ret (flat_image 144 16 white)
  else Ret (flat_image 8 8 black).

(** The largest [int]. *)
Definition INT_MAX : Z := 2147483647.

(** * Properties *)

(** ** Array accesses *)

Lemma load_Some {A} (l : list A) i v :
  load l i = Some v → 0 ≤ i < Z.of_nat (length l).
Proof.
  unfold load. case_bool_decide as Hi; [|done].
  intros Hl%lookup_lt_Some. lia.
Qed.

Lemma load_is_Some {A} (l : list A) i :
  is_Some (load l i) ↔ 0 ≤ i < Z.of_nat (length l).
Proof.
  split.
  - intros [v Hv]. by eapply load_Some.
  - intros [H0 Hlt]. unfold load. rewrite bool_decide_true by done.
    apply lookup_lt_is_Some. lia.
Qed.

Lemma store_is_Some {A} (l : list A) i v :
  is_Some (store l i v) ↔ 0 ≤ i < Z.of_nat (length l).
Proof.
  unfold store. case_bool_decide as Hi; split; intros H'; try done.
Qed.

Lemma store_length {A} (l l' : list A) i v :
  store l i v = Some l' → length l' = length l.
Proof.
  unfold store. case_bool_decide; [|done].
  intros [= <-]. by rewrite length_insert.
Qed.

Lemma load_store {A} (l l' : list A) i v k :
  store l i v = Some l' →
  load l' k = if decide (k = i) then Some v else load l k.
Proof.
  unfold store, load. case_bool_decide as Hi; [|done]. intros [= <-].
  case_decide as Hk.
  - subst k. rewrite bool_decide_true by lia.
    apply list_lookup_insert_eq. lia.
  - case_bool_decide; [|done].
    apply list_lookup_insert_ne. lia.
Qed.

Lemma load_ext {A} (l l' : list A) :
  (∀ k, load l k = load l' k) → l = l'.
Proof.
  intros H. apply list_eq. intros n.
  specialize (H (Z.of_nat n)). unfold load in H.
  rewrite bool_decide_true, Nat2Z.id in H by lia. done.
Qed.

Lemma load_cells {A} (junk : Z → A) n k :
  load (cells junk n) k = if decide (0 ≤ k < n) then Some (junk k) else None.
Proof.
  unfold load, cells. rewrite list_lookup_fmap.
  case_bool_decide; case_decide; try lia; try done.
  - rewrite lookup_seqZ_lt by lia. simpl. f_equal. f_equal. lia.
  - rewrite lookup_seqZ_ge by lia. done.
Qed.

(** ** The grid *)

Lemma grid_get_set (g g' : grid_t) i j v a b :
  grid_set g i j v = Some g' →
  grid_get g' a b = if decide (a = i ∧ b = j) then Some v else grid_get g a b.
Proof.
  unfold grid_set, grid_get. intros H.
  destruct (load g i) as [row|] eqn:Hrow; [|done]. simpl in H.
  destruct (store row j v) as [row'|] eqn:Hrow'; [|done]. simpl in H.
  rewrite (load_store _ _ _ _ a H).
  case_decide as Ha.
  - subst a. simpl. rewrite (load_store _ _ _ _ b Hrow'), Hrow. simpl.
    destruct (decide (b = j)) as [->|Hb].
    + by rewrite decide_True.
    + rewrite decide_False; [done|]. by intros [_ ?].
  - rewrite decide_False; [done|]. by intros [? _].
Qed.

Lemma grid_set_is_Some (g : grid_t) i j v :
  is_Some (grid_get g i j) → is_Some (grid_set g i j v).
Proof.
  unfold grid_set, grid_get. intros [w Hw].
  destruct (load g i) as [row|] eqn:Hrow; [|done]. simpl in *.
  apply load_Some in Hw.
  destruct (proj2 (store_is_Some row j v) Hw) as [row' ->]. simpl.
  apply store_is_Some. by eapply load_Some.
Qed.

(** ** Loops *)

Lemma iterate_total {St} (I : Z → St → Prop) (body : Z → St → option St) n lo s :
  I lo s →
  (∀ i s, lo ≤ i < lo + Z.of_nat n → I i s → ∃ s', body i s = Some s' ∧ I (i + 1) s') →
  ∃ s', iterate n lo body s = Some s' ∧ I (lo + Z.of_nat n) s'.
Proof.
  revert lo s. induction n as [|n IH]; intros lo s HI Hstep.
  - exists s. split; [done|]. by replace (lo + Z.of_nat 0) with lo by lia.
  - destruct (Hstep lo s) as (s1 & Hb & HI1); [lia|done|].
    destruct (IH (lo + 1) s1) as (s2 & Hit & HI2); [done| |].
    { intros i s' Hi. apply Hstep. lia. }
    exists s2. simpl. rewrite Hb. simpl. split; [done|].
    by replace (lo + Z.of_nat (S n)) with (lo + 1 + Z.of_nat n) by lia.
Qed.

Lemma iterate_partial {St} (I : Z → St → Prop) (body : Z → St → option St) n lo s s' :
  I lo s →
  (∀ i s s', lo ≤ i < lo + Z.of_nat n → I i s → body i s = Some s' → I (i + 1) s') →
  iterate n lo body s = Some s' → I (lo + Z.of_nat n) s'.
Proof.
  revert lo s. induction n as [|n IH]; intros lo s HI Hstep Hit.
  - simpl in Hit. injection Hit as <-. by replace (lo + Z.of_nat 0) with lo by lia.
  - simpl in Hit. destruct (body lo s) as [s1|] eqn:Hb; [|done]. simpl in Hit.
    replace (lo + Z.of_nat (S n)) with (lo + 1 + Z.of_nat n) by lia.
    apply (IH (lo + 1) s1); [|intros i s2 s3 Hi; apply Hstep; lia|done].
    apply (Hstep lo s); [lia|done|done].
Qed.

(** A loop that keeps [I] and whose body never fails under it. *)
Lemma for_range_total {St} (I : Z → St → Prop) (body : Z → St → option St) lo hi s :
  lo ≤ hi → I lo s →
  (∀ i s, lo ≤ i < hi → I i s → ∃ s', body i s = Some s' ∧ I (i + 1) s') →
  ∃ s', for_range lo hi body s = Some s' ∧ I hi s'.
Proof.
  intros Hle HI Hstep. unfold for_range.
  destruct (iterate_total I body (Z.to_nat (hi - lo)) lo s) as (s' & Hit & HI');
    [done| |].
  { intros i s' Hi. apply Hstep. lia. }
  exists s'. split; [done|].
  by replace hi with (lo + Z.of_nat (Z.to_nat (hi - lo))) by lia.
Qed.

(** What holds after a loop when it does return. *)
Lemma for_range_partial {St} (I : Z → St → Prop) (body : Z → St → option St) lo hi s s' :
  lo ≤ hi → I lo s →
  (∀ i s s', lo ≤ i < hi → I i s → body i s = Some s' → I (i + 1) s') →
  for_range lo hi body s = Some s' → I hi s'.
Proof.
  intros Hle HI Hstep Hit. unfold for_range in Hit.
  replace hi with (lo + Z.of_nat (Z.to_nat (hi - lo))) by lia.
  eapply iterate_partial; [exact HI| |exact Hit].
  intros i s1 s2 Hi. apply Hstep. lia.
Qed.

Lemma for_range_empty {St} (body : Z → St → option St) lo hi s :
  hi ≤ lo → for_range lo hi body s = Some s.
Proof.
  intros H. unfold for_range. by replace (Z.to_nat (hi - lo)) with O by lia.
Qed.

(** ** The worker partition *)

Lemma part_quot e N : 0 ≤ e → 1 ≤ N → e ÷ N = e `div` N.
Proof. intros. apply Z.quot_div_nonneg; lia. Qed.

Lemma part_bounds t e N :
  0 ≤ e → 1 ≤ N → 0 ≤ t < N →
  0 ≤ part_start t e N ≤ part_end t e N ∧ part_end t e N ≤ e.
Proof.
  intros He HN Ht. unfold part_start, part_end. rewrite part_quot by done.
  assert (0 ≤ e `div` N) by (apply Z.div_pos; lia).
  assert (N * (e `div` N) ≤ e) by (apply Z.mul_div_le; lia).
  nia.
Qed.

Lemma assigned_unique t t' e N idx :
  0 ≤ e → 1 ≤ N → assigned t e N idx → assigned t' e N idx → t = t'.
Proof.
  unfold assigned, part_start, part_end. intros He HN H1 H2.
  rewrite part_quot in * by done.
  assert (0 ≤ e `div` N) by (apply Z.div_pos; lia).
  nia.
Qed.

Lemma assigned_exists e N idx :
  0 ≤ e → 1 ≤ N → 0 ≤ idx < N * (e ÷ N) →
  ∃ t, 0 ≤ t < N ∧ assigned t e N idx.
Proof.
  intros He HN Hidx. unfold assigned, part_start, part_end.
  rewrite part_quot in * by done.
  set (d := e `div` N) in *.
  assert (0 < d) by nia.
  exists (idx `div` d).
  assert (idx `div` d < N) by (apply Z.div_lt_upper_bound; lia).
  assert (0 ≤ idx `div` d) by (apply Z.div_pos; lia).
  pose proof (Z.mul_div_le idx d ltac:(lia)).
  pose proof (Z.mul_succ_div_gt idx d ltac:(lia)).
  lia.
Qed.

(** C4: worker [t] owns the half-open range
    [[t * (e / N), (t + 1) * (e / N))] with floor division; the ranges of
    different workers are disjoint; an index belongs to some worker exactly
    when it lies in [[0, N * (e / N))]; when [N] divides [e] every index of
    [[0, e)] has exactly one owner; otherwise the last [e - N * (e / N)]
    indices have none.  [sample_interior], [sample_last_column],
    [sample_last_row] and [march] all take their bounds from [part_start]
    and [part_end]; [sample_grid_unowned_row] and [march_unowned_row]
    below show both stages leaving the unowned rows as they were. *)
Theorem partition_ranges (e N : Z) :
  0 ≤ e → 1 ≤ N →
  (∀ t, part_start t e N = t * (e `div` N) ∧ part_end t e N = (t + 1) * (e `div` N)) ∧
  (∀ t t' idx, assigned t e N idx → assigned t' e N idx → t = t') ∧
  (∀ idx, (∃ t, 0 ≤ t < N ∧ assigned t e N idx) ↔ 0 ≤ idx < N * (e `div` N)) ∧
  (e `mod` N = 0 →
     ∀ idx, 0 ≤ idx < e →
       ∃ t, (0 ≤ t < N ∧ assigned t e N idx) ∧
            ∀ t', 0 ≤ t' < N ∧ assigned t' e N idx → t' = t) ∧
  (∀ idx, N * (e `div` N) ≤ idx < e → ∀ t, 0 ≤ t < N → ¬ assigned t e N idx) ∧
  e - N * (e `div` N) = e `mod` N.
Proof.
  intros He HN.
  assert (Hd : 0 ≤ e `div` N) by (apply Z.div_pos; lia).
  split; [|split; [|split; [|split; [|split]]]].
  - intros t. unfold part_start, part_end. by rewrite part_quot.
  - intros t t' idx. by apply assigned_unique.
  - intros idx. split.
    + intros (t & Ht & Ha). unfold assigned, part_start, part_end in Ha.
      rewrite part_quot in Ha by done. nia.
    + intros Hidx. apply assigned_exists; [done..|]. by rewrite part_quot.
  - intros Hmod idx Hidx.
    assert (HeN : e = N * (e `div` N)).
    { pose proof (Z.div_mod e N ltac:(lia)). lia. }
    destruct (assigned_exists e N idx) as (t & Ht & Ha); [done..| |].
    { rewrite part_quot by done. lia. }
    exists t. split; [done|]. intros t' [_ Ha']. by apply (assigned_unique t' t e N idx).
  - intros idx Hidx t Ht Ha. unfold assigned, part_start, part_end in Ha.
    rewrite part_quot in Ha by done. nia.
  - pose proof (Z.div_mod e N ltac:(lia)). lia.
Qed.

(** Ten rows among four workers: two rows each, rows 8 and 9 unowned. *)
Lemma partition_ranges_witness :
  (∀ idx, (∃ t, 0 ≤ t < 4 ∧ assigned t 10 4 idx) ↔ 0 ≤ idx < 4 * (10 `div` 4)) ∧
  (∀ idx, 4 * (10 `div` 4) ≤ idx < 10 → ∀ t, 0 ≤ t < 4 → ¬ assigned t 10 4 idx).
Proof.
  destruct (partition_ranges 10 4) as (_ & _ & H3 & _ & H5 & _); [lia | lia |].
  split; [exact H3 | exact H5].
Defined.

(** ** Well-formed images and grids *)

Lemma pixel_at_is_Some img k :
  valid_image img → is_Some (pixel_at img k) ↔ 0 ≤ k < x img * y img.
Proof.
  intros (d & Hd & _ & _ & Hlen). unfold pixel_at. rewrite Hd. simpl.
  rewrite load_is_Some. lia.
Qed.

Lemma grid_set_dims g g' p q i j v :
  grid_dims g p q → grid_set g i j v = Some g' → grid_dims g' p q.
Proof.
  intros Hdims Hset a b. rewrite (grid_get_set _ _ _ _ _ a b Hset).
  case_decide as Hab; [|apply Hdims].
  destruct Hab as [-> ->]. split; [intros _|by eauto].
  apply Hdims. unfold grid_set in Hset. unfold grid_get.
  destruct (load g i) as [row|]; [|done]. simpl in *.
  destruct (store row j v) as [row'|] eqn:Hst; [|done].
  apply load_is_Some, (store_is_Some row j v). by eauto.
Qed.

Lemma grid_set_total g p q i j v :
  grid_dims g p q → 0 ≤ i ≤ p → 0 ≤ j ≤ q → ∃ g', grid_set g i j v = Some g'.
Proof.
  intros Hdims Hi Hj. apply grid_set_is_Some, Hdims. done.
Qed.

Lemma quot_STEP v : 0 ≤ v → v ÷ STEP = v `div` 8.
Proof. intros. unfold STEP. apply Z.quot_div_nonneg; lia. Qed.

(** ** The sampler *)

Section sampler.
Variable img : ppm_image.
Hypothesis Hvalid : valid_image img.

Let p := x img ÷ STEP.
Let q := y img ÷ STEP.

Lemma pq_bounds : 0 ≤ p ∧ 0 ≤ q ∧ 8 * p ≤ x img ∧ 8 * q ≤ y img.
Proof using Hvalid.
  destruct Hvalid as (d & _ & Hx & Hy & _). subst p q.
  rewrite !quot_STEP by done. Z.to_euclidean_division_equations. lia.
Qed.

Lemma interior_offset a b :
  0 ≤ a < p → 0 ≤ b < q →
  0 ≤ a * STEP * y img + b * STEP < x img * y img.
Proof using Hvalid.
  pose proof pq_bounds as Hpq. unfold STEP. intros Ha Hb.
  assert ((a * 8 + 8) * y img ≤ x img * y img)
    by (apply Z.mul_le_mono_nonneg_r; lia).
  assert (0 ≤ a * 8 * y img) by (apply Z.mul_nonneg_nonneg; lia).
  lia.
Qed.

(** The inner loop of the first nest, for a fixed row [i]. *)
Lemma sample_interior_row g i :
  grid_dims g p q → 0 ≤ i < p →
  ∃ g', for_range 0 q (λ j grid,
          curr_pixel ← pixel_at img (i * STEP * y img + j * STEP);
          grid_set grid i j (threshold curr_pixel)) g = Some g' ∧
        grid_dims g' p q ∧
        ∀ a b, grid_get g' a b =
               if decide (a = i ∧ 0 ≤ b < q) then sample_value img a b
               else grid_get g a b.
Proof using Hvalid.
  intros Hdims Hi. pose proof pq_bounds as Hpq.
  pose (I := λ (j : Z) (g' : grid_t),
    grid_dims g' p q ∧
    ∀ a b, grid_get g' a b =
           if decide (a = i ∧ 0 ≤ b < j) then sample_value img a b
           else grid_get g a b).
  apply (for_range_total I); subst I; simpl; [lia| |].
  - split; [done|]. intros a b. case_decide; [lia|done].
  - intros j g1 Hj [Hd1 Hg1].
    destruct (proj2 (pixel_at_is_Some img (i * STEP * y img + j * STEP) Hvalid))
      as [px Hpx]; [by apply interior_offset|].
    destruct (grid_set_total g1 p q i j (threshold px)) as [g2 Hg2];
      [done|lia|lia|].
    exists g2. rewrite Hpx. simpl. split; [done|].
    split; [by eapply grid_set_dims|].
    intros a b. rewrite (grid_get_set _ _ _ _ _ a b Hg2), Hg1.
    unfold sample_value. fold p q.
    repeat case_decide; try lia; try done.
    destruct_and!; subst. by rewrite Hpx.
Qed.

Lemma sample_interior_spec g t N :
  grid_dims g p q → 1 ≤ N → 0 ≤ t < N →
  ∃ g', sample_interior img t N g = Some g' ∧
        grid_dims g' p q ∧
        ∀ a b, grid_get g' a b =
               if decide (assigned t p N a ∧ 0 ≤ b < q) then sample_value img a b
               else grid_get g a b.
Proof using Hvalid.
  intros Hdims HN Ht. pose proof pq_bounds as Hpq.
  pose proof (part_bounds t p N ltac:(lia) HN Ht) as Hpart.
  unfold sample_interior, assigned. fold p q.
  pose (I := λ (i : Z) (g' : grid_t),
    grid_dims g' p q ∧
    ∀ a b, grid_get g' a b =
           if decide (part_start t p N ≤ a < i ∧ 0 ≤ b < q) then sample_value img a b
           else grid_get g a b).
  apply (for_range_total I); subst I; simpl; [lia| |].
  - split; [done|]. intros a b. case_decide; [lia|done].
  - intros i g1 Hi [Hd1 Hg1].
    destruct (sample_interior_row g1 i) as (g2 & Hrow & Hd2 & Hg2); [done|lia|].
    exists g2. split; [done|]. split; [done|].
    intros a b. rewrite Hg2, Hg1.
    repeat case_decide; try lia; done.
Qed.

Lemma sample_last_column_spec g g' t N :
  grid_dims g p q → 1 ≤ N → 0 ≤ t < N →
  sample_last_column img t N g = Some g' →
  grid_dims g' p q ∧
  ∀ a b, grid_get g' a b =
         if decide (assigned t p N a ∧ b = q) then sample_value img a b
         else grid_get g a b.
Proof using Hvalid.
  intros Hdims HN Ht. pose proof pq_bounds as Hpq.
  pose proof (part_bounds t p N ltac:(lia) HN Ht) as Hpart.
  unfold sample_last_column, assigned. fold p q.
  pose (I := λ (i : Z) (g' : grid_t),
    grid_dims g' p q ∧
    ∀ a b, grid_get g' a b =
           if decide (part_start t p N ≤ a < i ∧ b = q) then sample_value img a b
           else grid_get g a b).
  apply (for_range_partial I); subst I; simpl; [lia| |].
  - split; [done|]. intros a b. case_decide; [lia|done].
  - intros i g1 g2 Hi [Hd1 Hg1] Hbody.
    destruct (pixel_at img (i * STEP * y img + x img - 1)) as [px|] eqn:Hpx;
      [|done]. simpl in Hbody.
    split; [by eapply grid_set_dims|].
    intros a b. rewrite (grid_get_set _ _ _ _ _ a b Hbody), Hg1.
    unfold sample_value. fold p q.
    repeat case_decide; try lia; try done.
    destruct_and!; subst. by rewrite Hpx.
Qed.

Lemma sample_last_row_spec g g' t N :
  grid_dims g p q → 1 ≤ N → 0 ≤ t < N →
  sample_last_row img t N g = Some g' →
  grid_dims g' p q ∧
  ∀ a b, grid_get g' a b =
         if decide (a = p ∧ assigned t q N b) then sample_value img a b
         else grid_get g a b.
Proof using Hvalid.
  intros Hdims HN Ht. pose proof pq_bounds as Hpq.
  pose proof (part_bounds t q N ltac:(lia) HN Ht) as Hpart.
  unfold sample_last_row, assigned. fold p q.
  pose (I := λ (j : Z) (g' : grid_t),
    grid_dims g' p q ∧
    ∀ a b, grid_get g' a b =
           if decide (a = p ∧ part_start t q N ≤ b < j) then sample_value img a b
           else grid_get g a b).
  apply (for_range_partial I); subst I; simpl; [lia| |].
  - split; [done|]. intros a b. case_decide; [lia|done].
  - intros j g1 g2 Hj [Hd1 Hg1] Hbody.
    destruct (pixel_at img ((x img - 1) * y img + j * STEP)) as [px|] eqn:Hpx;
      [|done]. simpl in Hbody.
    split; [by eapply grid_set_dims|].
    intros a b. rewrite (grid_get_set _ _ _ _ _ a b Hbody), Hg1.
    unfold sample_value. fold p q.
    repeat case_decide; try lia; try done.
    destruct_and!; subst. by rewrite Hpx.
Qed.

Lemma sample_last_column_total g t N :
  sample_defined img → grid_dims g p q → 1 ≤ N → 0 ≤ t < N →
  ∃ g', sample_last_column img t N g = Some g'.
Proof using Hvalid.
  intros Hdef Hdims HN Ht. pose proof pq_bounds as Hpq.
  pose proof (part_bounds t p N ltac:(lia) HN Ht) as Hpart.
  unfold sample_last_column. fold p q.
  pose (I := λ (i : Z) (g' : grid_t), grid_dims g' p q).
  destruct (for_range_total I (λ i grid,
      curr_pixel ← pixel_at img (i * STEP * y img + x img - 1);
      grid_set grid i q (threshold curr_pixel))
    (part_start t p N) (part_end t p N) g) as (g' & Hg' & _);
    subst I; simpl; [lia|done| |by eauto].
  intros i g1 Hi Hd1.
  destruct (Hdef i q) as [v Hv]; [lia|lia|].
  unfold sample_value in Hv. fold p q in Hv.
  rewrite decide_False, decide_True in Hv by lia.
  destruct (pixel_at img (i * STEP * y img + x img - 1)) as [px|]; [|done].
  simpl. destruct (grid_set_total g1 p q i q (threshold px)) as [g2 Hg2];
    [done|lia|lia|].
  exists g2. split; [done|]. by eapply grid_set_dims.
Qed.

Lemma sample_last_row_total g t N :
  sample_defined img → grid_dims g p q → 1 ≤ N → 0 ≤ t < N →
  ∃ g', sample_last_row img t N g = Some g'.
Proof using Hvalid.
  intros Hdef Hdims HN Ht. pose proof pq_bounds as Hpq.
  pose proof (part_bounds t q N ltac:(lia) HN Ht) as Hpart.
  unfold sample_last_row. fold p q.
  pose (I := λ (j : Z) (g' : grid_t), grid_dims g' p q).
  destruct (for_range_total I (λ j grid,
      curr_pixel ← pixel_at img ((x img - 1) * y img + j * STEP);
      grid_set grid p j (threshold curr_pixel))
    (part_start t q N) (part_end t q N) g) as (g' & Hg' & _);
    subst I; simpl; [lia|done| |by eauto].
  intros j g1 Hj Hd1.
  destruct (Hdef p j) as [v Hv]; [lia|lia|].
  unfold sample_value in Hv. fold p q in Hv.
  rewrite decide_False, decide_False, decide_True in Hv by lia.
  destruct (pixel_at img ((x img - 1) * y img + j * STEP)) as [px|]; [|done].
  simpl. destruct (grid_set_total g1 p q p j (threshold px)) as [g2 Hg2];
    [done|lia|lia|].
  exists g2. split; [done|]. by eapply grid_set_dims.
Qed.

(** What a returning call of [sample_grid] has done to the grid. *)
Lemma sample_grid_spec g g' t N :
  grid_dims g p q → 1 ≤ N → 0 ≤ t < N →
  sample_grid img g t N = Some g' →
  grid_dims g' p q ∧
  ∀ a b, grid_get g' a b =
         if decide (sample_writes img t N a b) then sample_value img a b
         else grid_get g a b.
Proof using Hvalid.
  intros Hdims HN Ht Hs. pose proof pq_bounds as Hpq.
  pose proof (part_bounds t p N ltac:(lia) HN Ht) as Hpp.
  pose proof (part_bounds t q N ltac:(lia) HN Ht) as Hpq'.
  unfold sample_grid in Hs. fold p q in Hs.
  destruct (sample_interior_spec g t N) as (g1 & Hint & Hd1 & Hg1); [done..|].
  rewrite Hint in Hs. simpl in Hs.
  destruct (grid_set g1 p q 0) as [g2|] eqn:Hset; [|done]. simpl in Hs.
  destruct (sample_last_column img t N g2) as [g3|] eqn:Hcol; [|done].
  simpl in Hs.
  pose proof (grid_set_dims _ _ _ _ _ _ _ Hd1 Hset) as Hd2.
  destruct (sample_last_column_spec g2 g3 t N) as [Hd3 Hg3]; [done..|].
  destruct (sample_last_row_spec g3 g' t N) as [Hd4 Hg4]; [done..|].
  split; [done|]. intros a b.
  rewrite Hg4, Hg3, (grid_get_set _ _ _ _ _ a b Hset), Hg1.
  unfold sample_writes, assigned in *. fold p q.
  repeat case_decide; try lia; try done.
  destruct_and!; subst. unfold sample_value. fold p q.
  repeat case_decide; try lia; done.
Qed.

Lemma sample_grid_total g t N :
  sample_defined img → grid_dims g p q → 1 ≤ N → 0 ≤ t < N →
  ∃ g', sample_grid img g t N = Some g'.
Proof using Hvalid.
  intros Hdef Hdims HN Ht. pose proof pq_bounds as Hpq.
  unfold sample_grid. fold p q.
  destruct (sample_interior_spec g t N) as (g1 & Hint & Hd1 & _); [done..|].
  rewrite Hint. simpl.
  destruct (grid_set_total g1 p q p q 0) as [g2 Hset]; [done|lia|lia|].
  rewrite Hset. simpl.
  pose proof (grid_set_dims _ _ _ _ _ _ _ Hd1 Hset) as Hd2.
  destruct (sample_last_column_total g2 t N) as [g3 Hcol]; [done..|].
  rewrite Hcol. simpl.
  destruct (sample_last_column_spec g2 g3 t N) as [Hd3 _]; [done..|].
  by apply sample_last_row_total.
Qed.

End sampler.

Lemma grid_dims_intro (g : grid_t) p q :
  0 ≤ p → 0 ≤ q →
  length g = Z.to_nat (p + 1) →
  Forall (λ row, length row = Z.to_nat (q + 1)) g →
  grid_dims g p q.
Proof.
  intros Hp Hq Hlen Hrows i j. unfold grid_get. split.
  - intros [v Hv].
    destruct (load g i) as [row|] eqn:Hrow; [|done]. simpl in Hv.
    pose proof (load_Some _ _ _ Hrow) as Hi.
    pose proof (load_Some _ _ _ Hv) as Hj.
    unfold load in Hrow. rewrite bool_decide_true in Hrow by lia.
    rewrite Forall_lookup in Hrows. specialize (Hrows _ _ Hrow). lia.
  - intros [Hi Hj].
    destruct (proj2 (load_is_Some g i)) as [row Hrow]; [lia|].
    rewrite Hrow. simpl. apply load_is_Some.
    unfold load in Hrow. rewrite bool_decide_true in Hrow by lia.
    rewrite Forall_lookup in Hrows. specialize (Hrows _ _ Hrow). lia.
Qed.

Lemma threshold_binary px : threshold px = 0 ∨ threshold px = 1.
Proof. unfold threshold. case_bool_decide; auto. Qed.

(** On bytes the conversion of the average to [unsigned char] changes
    nothing. *)
Lemma threshold_byte px :
  byte_pixel px →
  threshold px =
    if decide ((red px + green px + blue px) `div` 3 ≤ 200) then 1 else 0.
Proof.
  intros (Hr & Hg & Hb). unfold threshold, uchar, SIGMA.
  rewrite Z.quot_div_nonneg by lia.
  rewrite Z.mod_small by (Z.to_euclidean_division_equations; lia).
  case_bool_decide; case_decide; lia.
Qed.

Lemma sample_value_binary img a b v :
  sample_value img a b = Some v → v = 0 ∨ v = 1.
Proof.
  unfold sample_value. repeat case_decide; intros Hv;
    try (apply fmap_Some in Hv as (px & _ & ->); apply threshold_binary).
  injection Hv as <-. by left.
Qed.

(** A sufficient condition for [sample_defined]: the image is not empty
    and has at most [STEP] times as many rows as columns. *)
Lemma sample_defined_intro img :
  valid_image img → 1 ≤ x img → x img ≤ STEP * y img → sample_defined img.
Proof.
  intros Hvalid Hx Hxy a b Ha Hb.
  pose proof (pq_bounds img Hvalid) as Hpq. simpl in Hpq.
  unfold sample_value, STEP in *.
  assert (Hmono : ∀ c, 0 ≤ c → c ≤ x img → c * y img ≤ x img * y img)
    by (intros; apply Z.mul_le_mono_nonneg_r; lia).
  repeat case_decide; try (by eauto); apply fmap_is_Some, pixel_at_is_Some; try done.
  - pose proof (Hmono (a * 8 + 8)). assert (0 ≤ a * 8 * y img) by nia. lia.
  - pose proof (Hmono (a * 8 + 8)). assert (0 ≤ a * 8 * y img) by nia. lia.
  - pose proof (Hmono (x img - 1)). assert (0 ≤ (x img - 1) * y img) by nia. lia.
Qed.

(** C1: for an interior sample point [(i, j)] of the partition of worker
    [t], the sampler reads the pixel at offset [i * STEP * y + j * STEP],
    takes the truncated average of its channels and stores 1 when the
    average is at most 200 and 0 when it is above.  The first loop nest
    always does so; the rest of [sample_grid] leaves the cell alone; and
    the whole call returns when every pixel it reads lies in the
    buffer. *)
Theorem sample_grid_interior (img : ppm_image) (g : grid_t) (t N i j : Z) :
  valid_image img → byte_image img →
  grid_dims g (x img ÷ STEP) (y img ÷ STEP) →
  1 ≤ N → 0 ≤ t < N →
  assigned t (x img ÷ STEP) N i → 0 ≤ j < y img ÷ STEP →
  ∃ px, pixel_at img (i * STEP * y img + j * STEP) = Some px ∧
    let avg := (red px + green px + blue px) `div` 3 in
    let cell := if decide (avg ≤ 200) then 1 else 0 in
    (∃ g1, sample_interior img t N g = Some g1 ∧ grid_get g1 i j = Some cell) ∧
    (∀ g', sample_grid img g t N = Some g' → grid_get g' i j = Some cell) ∧
    (sample_defined img → ∃ g', sample_grid img g t N = Some g').
Proof.
  intros Hvalid Hbytes Hdims HN Ht Hi Hj.
  pose proof (pq_bounds img Hvalid) as Hpq. simpl in Hpq.
  pose proof (part_bounds t (x img ÷ STEP) N ltac:(lia) HN Ht) as Hpart.
  assert (Hip : 0 ≤ i < x img ÷ STEP) by (unfold assigned in Hi; lia).
  destruct (proj2 (pixel_at_is_Some img (i * STEP * y img + j * STEP) Hvalid))
    as [px Hpx]; [by apply interior_offset|].
  assert (Hval : sample_value img i j =
                 Some (if decide ((red px + green px + blue px) `div` 3 ≤ 200)
                       then 1 else 0)).
  { unfold sample_value. rewrite decide_True by lia. rewrite Hpx. simpl.
    f_equal. apply threshold_byte. by eapply Hbytes. }
  exists px. split; [done|]. simpl. split; [|split].
  - destruct (sample_interior_spec img Hvalid g t N) as (g1 & Hg1 & _ & Hget);
      [done..|].
    exists g1. split; [done|]. rewrite Hget, decide_True by (split; [done|lia]).
    done.
  - intros g' Hg'.
    destruct (sample_grid_spec img Hvalid g g' t N) as [_ Hget]; [done..|].
    rewrite Hget, decide_True; [done|]. left. split; [done|lia].
  - intros Hdef. by apply sample_grid_total.
Qed.

Lemma flat_image_valid n m px : 0 ≤ n → 0 ≤ m → valid_image (flat_image n m px).
Proof.
  intros Hn Hm. eexists. split; [done|]. simpl.
  rewrite length_replicate. nia.
Qed.

Lemma flat_image_pixel n m px k px' :
  pixel_at (flat_image n m px) k = Some px' → px' = px.
Proof.
  unfold pixel_at, load. simpl. case_bool_decide; [|done].
  intros [-> _]%lookup_replicate. done.
Qed.

Lemma flat_image_bytes n m px : byte_pixel px → byte_image (flat_image n m px).
Proof. intros Hpx k px' ->%flat_image_pixel. done. Qed.

(** A white image of 8 rows and 8 columns, one worker, and a grid whose
    cells hold 7 before the call. *)
Lemma sample_grid_interior_witness :
  ∃ px, pixel_at (flat_image 8 8 white) (0 * STEP * 8 + 0 * STEP) = Some px ∧
    let avg := (red px + green px + blue px) `div` 3 in
    let cell := if decide (avg ≤ 200) then 1 else 0 in
    (∃ g1, sample_interior (flat_image 8 8 white) 0 1 [[7; 7]; [7; 7]] = Some g1 ∧
           grid_get g1 0 0 = Some cell) ∧
    (∀ g', sample_grid (flat_image 8 8 white) [[7; 7]; [7; 7]] 0 1 = Some g' →
           grid_get g' 0 0 = Some cell) ∧
    (sample_defined (flat_image 8 8 white) →
       ∃ g', sample_grid (flat_image 8 8 white) [[7; 7]; [7; 7]] 0 1 = Some g').
Proof.
  apply (sample_grid_interior (flat_image 8 8 white) [[7; 7]; [7; 7]] 0 1 0 0).
  - apply flat_image_valid; lia.
  - apply flat_image_bytes. unfold byte_pixel, white. simpl. lia.
  - apply grid_dims_intro; [done|done|done|]. by repeat constructor.
  - lia.
  - lia.
  - vm_compute. split; [discriminate|reflexivity].
  - vm_compute. split; [discriminate|reflexivity].
Defined.

(** ** The configuration index *)

Lemma config_index_binary (g : grid_t) p q i j :
  grid_dims g p q → binary_grid g → 0 ≤ i < p → 0 ≤ j < q →
  ∃ k, config_index g i j = Some k ∧ 0 ≤ k ≤ 15.
Proof.
  intros Hdims Hbin Hi Hj. unfold config_index.
  destruct (proj2 (Hdims i j)) as [a Ha]; [lia|].
  destruct (proj2 (Hdims i (j + 1))) as [b Hb]; [lia|].
  destruct (proj2 (Hdims (i + 1) (j + 1))) as [c Hc]; [lia|].
  destruct (proj2 (Hdims (i + 1) j)) as [d Hd]; [lia|].
  rewrite Ha, Hb, Hc, Hd. simpl.
  apply Hbin in Ha, Hb, Hc, Hd.
  eexists. split; [done|]. unfold uchar. rewrite Z.mod_small; lia.
Qed.

(** C10: every cell [sample_grid] writes holds 0 or 1; and over a grid
    whose cells hold 0 or 1 the configuration index of a cell is at most
    15, so the look-up in a contour map of 16 entries succeeds.  The index
    exists for every cell the compositor visits. *)
Theorem config_index_in_table (img : ppm_image) (g : grid_t) (t N : Z) :
  valid_image img → grid_dims g (x img ÷ STEP) (y img ÷ STEP) →
  1 ≤ N → 0 ≤ t < N →
  (∀ g' a b, sample_grid img g t N = Some g' → sample_writes img t N a b →
             grid_get g' a b = Some 0 ∨ grid_get g' a b = Some 1) ∧
  (binary_grid g →
   ∀ i j, 0 ≤ i < x img ÷ STEP → 0 ≤ j < y img ÷ STEP →
     ∃ k, config_index g i j = Some k ∧ 0 ≤ k ≤ 15 ∧
          ∀ contour_map : list ppm_image,
            Z.of_nat (length contour_map) = CONTOUR_CONFIG_COUNT →
            is_Some (load contour_map k)).
Proof.
  intros Hvalid Hdims HN Ht.
  pose proof (pq_bounds img Hvalid) as Hpq. simpl in Hpq.
  pose proof (part_bounds t (x img ÷ STEP) N ltac:(lia) HN Ht) as Hpp.
  pose proof (part_bounds t (y img ÷ STEP) N ltac:(lia) HN Ht) as Hpq'.
  split.
  - intros g' a b Hs Hw.
    destruct (sample_grid_spec img Hvalid g g' t N) as [Hd' Hget]; [done..|].
    assert (Hsome : is_Some (grid_get g' a b)).
    { apply Hd'. unfold sample_writes, assigned in Hw. lia. }
    destruct Hsome as [v Hv]. rewrite Hv.
    rewrite Hget, decide_True in Hv by done.
    apply sample_value_binary in Hv as [-> | ->]; auto.
  - intros Hbin i j Hi Hj.
    destruct (config_index_binary g _ _ i j Hdims Hbin Hi Hj) as (k & Hk & Hk15).
    exists k. split; [done|]. split; [done|].
    intros contour_map Hlen. apply load_is_Some.
    unfold CONTOUR_CONFIG_COUNT in Hlen. lia.
Qed.

(** A white image of 8 by 8 pixels and a grid of zeros. *)
Lemma config_index_in_table_witness :
  (∀ g' a b, sample_grid (flat_image 8 8 white) [[0; 0]; [0; 0]] 0 1 = Some g' →
             sample_writes (flat_image 8 8 white) 0 1 a b →
             grid_get g' a b = Some 0 ∨ grid_get g' a b = Some 1) ∧
  (binary_grid [[0; 0]; [0; 0]] →
   ∀ i j, 0 ≤ i < x (flat_image 8 8 white) ÷ STEP →
          0 ≤ j < y (flat_image 8 8 white) ÷ STEP →
     ∃ k, config_index [[0; 0]; [0; 0]] i j = Some k ∧ 0 ≤ k ≤ 15 ∧
          ∀ contour_map : list ppm_image,
            Z.of_nat (length contour_map) = CONTOUR_CONFIG_COUNT →
            is_Some (load contour_map k)).
Proof.
  apply (config_index_in_table (flat_image 8 8 white) [[0; 0]; [0; 0]] 0 1).
  - apply flat_image_valid; lia.
  - apply grid_dims_intro; [done|done|done|]. by repeat constructor.
  - lia.
  - lia.
Defined.

(** ** The last grid column on an image that is not square *)

(** C3 at [wide_image]: for the cell [(0, q)] the second loop reads offset
    [0 * STEP * y + x - 1 = 7], a white pixel in the middle of the first
    row, and stores 0; the last pixel of that row, at offset [y - 1 = 15],
    is black and thresholds to 1. *)
Theorem sample_grid_last_column_not_last_pixel :
  valid_image wide_image ∧
  x wide_image ÷ STEP = 1 ∧ y wide_image ÷ STEP = 2 ∧
  (∃ g', sample_grid wide_image [[7; 7; 7]; [7; 7; 7]] 0 1 = Some g' ∧
         grid_get g' 0 2 = Some 0) ∧
  threshold <$> pixel_at wide_image (0 * STEP * y wide_image + (y wide_image - 1))
    = Some 1.
Proof.
  split; [|split; [|split; [|split]]].
  - eexists. split; [done|]. simpl. lia.
  - done.
  - done.
  - exists [[0; 0; 0]; [0; 0; 0]]. split; by vm_compute.
  - by vm_compute.
Qed.

(** ** Pixels by row and column *)

Lemma same_shape_refl img : valid_image img → same_shape img img.
Proof. by intros; repeat split. Qed.

Lemma same_shape_trans img1 img2 img3 :
  same_shape img1 img2 → same_shape img2 img3 → same_shape img1 img3.
Proof. intros (? & ? & ?) (? & ? & ?). repeat split; [congruence..|done]. Qed.

(** Whether the reads of the sampler lie in the buffer depends on the
    dimensions only. *)
Lemma sample_defined_shape work W :
  valid_image work → same_shape work W → sample_defined work → sample_defined W.
Proof.
  intros Hvalid (Hx & Hy & HvW) Hdef a b Ha Hb.
  rewrite Hx in Ha. rewrite Hy in Hb.
  specialize (Hdef a b Ha Hb). unfold sample_value in *. rewrite Hx, Hy.
  repeat case_decide; try done;
    rewrite fmap_is_Some in *; rewrite pixel_at_is_Some in * by done;
    by rewrite Hx, Hy.
Qed.

Lemma offset_inj w r c r' c' :
  0 ≤ c < w → 0 ≤ c' < w → r * w + c = r' * w + c' → r = r' ∧ c = c'.
Proof. intros Hc Hc' Heq. assert (r = r') by nia. subst. lia. Qed.

Lemma offset_in_buffer n w r c :
  0 ≤ r < n → 0 ≤ c < w → 0 ≤ r * w + c < n * w.
Proof. intros Hr Hc. nia. Qed.

Lemma set_pixel_spec img k v :
  valid_image img → 0 ≤ k < x img * y img →
  ∃ img', set_pixel img k v = Some img' ∧ same_shape img img' ∧
          ∀ k', pixel_at img' k' = if decide (k' = k) then Some v else pixel_at img k'.
Proof.
  intros (d & Hd & Hx & Hy & Hlen) Hk. unfold set_pixel. rewrite Hd. simpl.
  destruct (proj2 (store_is_Some d k v)) as [d' Hd']; [lia|].
  rewrite Hd'. simpl. eexists. split; [done|]. split.
  - repeat split; simpl; try done. exists d'. simpl.
    rewrite (store_length _ _ _ _ Hd'). done.
  - intros k'. unfold pixel_at. simpl. rewrite Hd. simpl.
    by apply load_store.
Qed.

Lemma set_pixel_rc img r0 c0 v :
  valid_image img → 0 ≤ r0 < x img → 0 ≤ c0 < y img →
  ∃ img', set_pixel img (r0 * y img + c0) v = Some img' ∧ same_shape img img' ∧
          ∀ r c, pixel_rc img' r c =
                 if decide (r = r0 ∧ c = c0) then Some v else pixel_rc img r c.
Proof.
  intros Hvalid Hr Hc.
  destruct (set_pixel_spec img (r0 * y img + c0) v) as (img' & Hset & Hsh & Hpx);
    [done|by apply offset_in_buffer|].
  exists img'. split; [done|]. split; [done|].
  intros r c. unfold pixel_rc. destruct Hsh as (_ & -> & _).
  rewrite Hpx. repeat case_decide; try done; try lia.
  destruct (offset_inj (y img) r c r0 c0); [done..|]. lia.
Qed.

(** Two images of one shape with the same pixels are the same image. *)
Lemma image_ext img img' :
  valid_image img → same_shape img img' →
  (∀ r c, 0 ≤ r < x img → 0 ≤ c < y img → pixel_rc img' r c = pixel_rc img r c) →
  img' = img.
Proof.
  intros (d & Hd & Hx & Hy & Hlen) (Hx' & Hy' & (d' & Hd' & _ & _ & Hlen')) Hpx.
  destruct img as [n m dd], img' as [n' m' dd']. simpl in *. subst.
  f_equal. f_equal. apply load_ext. intros k.
  destruct (decide (0 ≤ k < n * m)) as [Hk|Hk].
  - assert (0 < m) by nia.
    specialize (Hpx (k `div` m) (k `mod` m)).
    unfold pixel_rc, pixel_at in Hpx. simpl in Hpx.
    pose proof (Z.mod_pos_bound k m ltac:(lia)).
    pose proof (Z.div_mod k m ltac:(lia)).
    rewrite !decide_True in Hpx by lia.
    replace (k `div` m * m + k `mod` m) with k in Hpx by lia.
    apply Hpx; [|lia].
    split; [apply Z.div_pos; lia|]. apply Z.div_lt_upper_bound; lia.
  - transitivity (@None ppm_pixel).
    + apply eq_None_not_Some. rewrite load_is_Some. lia.
    + symmetry. apply eq_None_not_Some. rewrite load_is_Some. lia.
Qed.

(** ** update_image *)

Lemma contour_pixel tile a b :
  valid_contour tile → 0 ≤ a < STEP → 0 ≤ b < STEP →
  is_Some (pixel_at tile (x tile * a + b)).
Proof.
  intros (Hv & Hx & Hy) Ha Hb. apply pixel_at_is_Some; [done|].
  rewrite Hx, Hy. unfold STEP in *. lia.
Qed.

Section update_image.
Variables (img tile : ppm_image) (x0 y0 : Z).
Hypothesis Hvalid : valid_image img.
Hypothesis Htile : valid_contour tile.
Hypothesis Hx0 : 0 ≤ x0 ∧ x0 + STEP ≤ x img.
Hypothesis Hy0 : 0 ≤ y0 ∧ y0 + STEP ≤ y img.

Lemma update_image_row im i :
  same_shape img im → 0 ≤ i < STEP →
  ∃ im', for_range 0 (y tile) (λ j image,
           px ← pixel_at tile (x tile * i + j);
           set_pixel image ((x0 + i) * y image + y0 + j) px) im = Some im' ∧
         same_shape img im' ∧
         ∀ r c, pixel_rc im' r c =
                if decide (r = x0 + i ∧ y0 ≤ c < y0 + STEP)
                then pixel_at tile (x tile * (r - x0) + (c - y0))
                else pixel_rc im r c.
Proof using Hvalid Htile Hx0 Hy0.
  intros Hsh Hi. destruct Htile as (Htv & Htx & Hty).
  pose (I := λ (j : Z) (im' : ppm_image),
    same_shape img im' ∧
    ∀ r c, pixel_rc im' r c =
           if decide (r = x0 + i ∧ y0 ≤ c < y0 + j)
           then pixel_at tile (x tile * (r - x0) + (c - y0))
           else pixel_rc im r c).
  rewrite Hty.
  apply (for_range_total I); subst I; simpl; [unfold STEP; lia| |].
  - split; [done|]. intros r c. case_decide; [lia|done].
  - intros j im1 Hj [Hsh1 Hpx1].
    destruct (contour_pixel tile i j) as [px Hpx]; [done..|].
    rewrite Hpx. simpl.
    pose proof Hsh1 as (Hx1 & Hy1 & Hv1).
    destruct (set_pixel_rc im1 (x0 + i) (y0 + j) px) as (im2 & Hset & Hsh2 & Hpx2);
      [done|lia|lia|].
    exists im2. rewrite <- Z.add_assoc. split; [done|].
    split; [by eapply same_shape_trans|].
    intros r c. rewrite Hpx2, Hpx1.
    repeat case_decide; try done; try lia.
    match goal with H : r = _ ∧ c = _ |- _ => destruct H as [-> ->] end.
    rewrite <- Hpx. f_equal. lia.
Qed.

Lemma update_image_spec :
  ∃ img', update_image img tile x0 y0 = Some img' ∧
          same_shape img img' ∧
          ∀ r c, pixel_rc img' r c =
                 if decide (x0 ≤ r < x0 + STEP ∧ y0 ≤ c < y0 + STEP)
                 then pixel_at tile (x tile * (r - x0) + (c - y0))
                 else pixel_rc img r c.
Proof using Hvalid Htile Hx0 Hy0.
  pose proof Htile as (Htv & Htx & Hty).
  unfold update_image. rewrite Htx.
  pose (I := λ (i : Z) (im' : ppm_image),
    same_shape img im' ∧
    ∀ r c, pixel_rc im' r c =
           if decide (x0 ≤ r < x0 + i ∧ y0 ≤ c < y0 + STEP)
           then pixel_at tile (STEP * (r - x0) + (c - y0))
           else pixel_rc img r c).
  apply (for_range_total I); subst I; simpl; [unfold STEP; lia| |].
  - split; [by apply same_shape_refl|]. intros r c. case_decide; [lia|done].
  - intros i im1 Hi [Hsh1 Hpx1].
    destruct (update_image_row im1 i) as (im2 & Hrow & Hsh2 & Hpx2); [done..|].
    rewrite Htx in Hrow, Hpx2.
    exists im2. split; [done|]. split; [done|].
    intros r c. rewrite Hpx2, Hpx1.
    repeat case_decide; try done; lia.
Qed.

End update_image.

(** ** march *)

Lemma cell_of_pixel r i :
  i * 8 ≤ r < i * 8 + 8 → r `div` 8 = i ∧ r `mod` 8 = r - i * 8.
Proof. intros Hr. Z.to_euclidean_division_equations. lia. Qed.

Lemma div8_range r lo hi :
  lo ≤ r `div` 8 < hi ↔ lo * 8 ≤ r < hi * 8.
Proof. Z.to_euclidean_division_equations. lia. Qed.

Section march.
Variables (img : ppm_image) (g : grid_t) (contour_map : list ppm_image).
Hypothesis Hvalid : valid_image img.
Hypothesis Hdims : grid_dims g (x img ÷ STEP) (y img ÷ STEP).
Hypothesis Hbin : binary_grid g.
Hypothesis Hmap : valid_contour_map contour_map.

Let p := x img ÷ STEP.
Let q := y img ÷ STEP.

Lemma march_contour i j :
  0 ≤ i < p → 0 ≤ j < q →
  ∃ k tile, config_index g i j = Some k ∧ load contour_map k = Some tile ∧
            valid_contour tile.
Proof using Hdims Hbin Hmap.
  intros Hi Hj.
  destruct (config_index_binary g p q i j) as (k & Hk & Hk15); [done..|].
  destruct Hmap as [Hlen Hall].
  destruct (proj2 (load_is_Some contour_map k)) as [tile Htile].
  { unfold CONTOUR_CONFIG_COUNT in Hlen. lia. }
  exists k, tile. split; [done|]. split; [done|].
  unfold load in Htile. case_bool_decide; [|done].
  rewrite Forall_lookup in Hall. by eapply Hall.
Qed.

Lemma march_value_cell i j k tile r c :
  config_index g i j = Some k → load contour_map k = Some tile →
  i * STEP ≤ r < i * STEP + STEP → j * STEP ≤ c < j * STEP + STEP →
  march_value g contour_map r c =
    pixel_at tile (x tile * (r - i * STEP) + (c - j * STEP)).
Proof.
  unfold march_value, STEP. intros Hk Htile Hr Hc.
  destruct (cell_of_pixel r i Hr) as [-> ->].
  destruct (cell_of_pixel c j Hc) as [-> ->].
  rewrite Hk. simpl. rewrite Htile. done.
Qed.

(** The inner loop of [march], for a fixed row [i] of cells. *)
Lemma march_row im i :
  same_shape img im → 0 ≤ i < p →
  ∃ im', for_range 0 q (λ j image,
           k ← config_index g i j;
           contour ← load contour_map k;
           update_image image contour (i * STEP) (j * STEP)) im = Some im' ∧
         same_shape img im' ∧
         ∀ r c, pixel_rc im' r c =
                if decide (i * STEP ≤ r < i * STEP + STEP ∧ 0 ≤ c < q * STEP)
                then march_value g contour_map r c
                else pixel_rc im r c.
Proof using Hvalid Hdims Hbin Hmap.
  intros Hsh Hi. pose proof (pq_bounds img Hvalid) as Hpq. simpl in Hpq.
  fold p q in Hpq.
  pose (I := λ (j : Z) (im' : ppm_image),
    same_shape img im' ∧
    ∀ r c, pixel_rc im' r c =
           if decide (i * STEP ≤ r < i * STEP + STEP ∧ 0 ≤ c < j * STEP)
           then march_value g contour_map r c
           else pixel_rc im r c).
  apply (for_range_total I); subst I; simpl; [lia| |].
  - split; [done|]. intros r c. case_decide; [unfold STEP in *; lia|done].
  - intros j im1 Hj [Hsh1 Hpx1].
    destruct (march_contour i j) as (k & tile & Hk & Htile & Hvt); [done..|].
    rewrite Hk. simpl. rewrite Htile. simpl.
    pose proof Hsh1 as (Hx1 & Hy1 & Hv1).
    destruct (update_image_spec im1 tile (i * STEP) (j * STEP))
      as (im2 & Hupd & Hsh2 & Hpx2); [done|done|unfold STEP; lia..|].
    exists im2. split; [done|]. split; [by eapply same_shape_trans|].
    intros r c. rewrite Hpx2, Hpx1.
    repeat case_decide; try done; try (unfold STEP in *; lia).
    symmetry. apply (march_value_cell i j k); try done; lia.
Qed.

(** What worker [t] of [N] does to the image. *)
Lemma march_spec t N :
  1 ≤ N → 0 ≤ t < N →
  ∃ img', march img g contour_map t N = Some img' ∧
          same_shape img img' ∧
          ∀ r c, pixel_rc img' r c =
                 if decide (assigned t (x img ÷ STEP) N (r `div` STEP) ∧
                            0 ≤ c < y img ÷ STEP * STEP)
                 then march_value g contour_map r c
                 else pixel_rc img r c.
Proof using Hvalid Hdims Hbin Hmap.
  intros HN Ht. pose proof (pq_bounds img Hvalid) as Hpq. simpl in Hpq.
  fold p q in Hpq |- *.
  pose proof (part_bounds t p N ltac:(lia) HN Ht) as Hpart.
  unfold march, assigned. fold p q.
  pose (I := λ (i : Z) (im' : ppm_image),
    same_shape img im' ∧
    ∀ r c, pixel_rc im' r c =
           if decide (part_start t p N ≤ r `div` STEP < i ∧ 0 ≤ c < q * STEP)
           then march_value g contour_map r c
           else pixel_rc img r c).
  apply (for_range_total I); subst I; simpl; [lia| |].
  - split; [by apply same_shape_refl|]. intros r c. case_decide; [lia|done].
  - intros i im1 Hi [Hsh1 Hpx1].
    destruct (march_row im1 i) as (im2 & Hrow & Hsh2 & Hpx2); [done|lia|].
    exists im2. split; [done|]. split; [done|].
    intros r c. rewrite Hpx2, Hpx1. unfold STEP.
    pose proof (div8_range r i (i + 1)) as Hdiv.
    repeat case_decide; try done; lia.
Qed.

End march.

(** *** Rows that belong to no worker *)

Lemma unowned_not_assigned t e N idx :
  0 ≤ e → 1 ≤ N → 0 ≤ t < N → N * (e ÷ N) ≤ idx → ¬ assigned t e N idx.
Proof.
  intros He HN Ht Hidx Ha. unfold assigned, part_start, part_end in Ha.
  rewrite part_quot in * by done.
  assert (0 ≤ e `div` N) by (apply Z.div_pos; lia). nia.
Qed.

(** The sampler of no worker writes a grid row past [N * (p / N)], the
    last row [p] apart. *)
Lemma sample_grid_unowned_row img g g' t N a b :
  valid_image img → grid_dims g (x img ÷ STEP) (y img ÷ STEP) →
  1 ≤ N → 0 ≤ t < N → sample_grid img g t N = Some g' →
  N * (x img ÷ STEP ÷ N) ≤ a < x img ÷ STEP →
  grid_get g' a b = grid_get g a b.
Proof.
  intros Hvalid Hdims HN Ht Hs Ha.
  pose proof (pq_bounds img Hvalid) as Hpq. simpl in Hpq.
  destruct (sample_grid_spec img Hvalid g g' t N) as [_ Hget]; [done..|].
  rewrite Hget, decide_False; [done|].
  intros [[Hin _] | [[Heq _] | [Heq _]]]; [|lia..].
  by apply (unowned_not_assigned t (x img ÷ STEP) N a); try lia.
Qed.

(** The compositor of no worker writes a pixel row of a cell row past
    [N * (p / N)]. *)
Lemma march_unowned_row img g contour_map t N r c :
  valid_image img → grid_dims g (x img ÷ STEP) (y img ÷ STEP) → binary_grid g →
  valid_contour_map contour_map → 1 ≤ N → 0 ≤ t < N →
  N * (x img ÷ STEP ÷ N) ≤ r `div` STEP →
  ∃ img', march img g contour_map t N = Some img' ∧
          pixel_rc img' r c = pixel_rc img r c.
Proof.
  intros Hvalid Hdims Hbin Hmap HN Ht Hr.
  pose proof (pq_bounds img Hvalid) as Hpq. simpl in Hpq.
  destruct (march_spec img g contour_map Hvalid Hdims Hbin Hmap t N)
    as (img' & Hmarch & _ & Hpx); [done..|].
  exists img'. split; [done|]. rewrite Hpx, decide_False; [done|].
  intros [Hin _].
  by apply (unowned_not_assigned t (x img ÷ STEP) N (r `div` STEP)); try lia.
Qed.

(** C2: for every cell [(i, j)] of the rows of worker [t] and every column
    [j < q], the compositor forms
    [k = 8 * grid[i][j] + 4 * grid[i][j+1] + 2 * grid[i+1][j+1] + grid[i+1][j]]
    and the image it returns holds, at row [i * STEP + u] and column
    [j * STEP + v], pixel [(u, v)] of [contour_map[k]], for every pixel of
    that contour image; the pixels outside the rows of the worker keep
    their value, and the dimensions do not change. *)
Theorem march_stamps_contours (img : ppm_image) (g : grid_t)
    (contour_map : list ppm_image) (t N : Z) :
  valid_image img →
  grid_dims g (x img ÷ STEP) (y img ÷ STEP) → binary_grid g →
  valid_contour_map contour_map →
  1 ≤ N → 0 ≤ t < N →
  ∃ img', march img g contour_map t N = Some img' ∧
    x img' = x img ∧ y img' = y img ∧
    (∀ i j, assigned t (x img ÷ STEP) N i → 0 ≤ j < y img ÷ STEP →
       ∃ a b c d contour,
         grid_get g i j = Some a ∧ grid_get g i (j + 1) = Some b ∧
         grid_get g (i + 1) (j + 1) = Some c ∧ grid_get g (i + 1) j = Some d ∧
         load contour_map (8 * a + 4 * b + 2 * c + 1 * d) = Some contour ∧
         ∀ u v, 0 ≤ u < x contour → 0 ≤ v < y contour →
           ∃ px, pixel_at contour (u * y contour + v) = Some px ∧
                 pixel_at img' ((i * STEP + u) * y img + (j * STEP + v)) = Some px) ∧
    (∀ r c, ¬ (assigned t (x img ÷ STEP) N (r `div` STEP) ∧
               0 ≤ c < y img ÷ STEP * STEP) →
            pixel_rc img' r c = pixel_rc img r c).
Proof.
  intros Hvalid Hdims Hbin Hmap HN Ht.
  pose proof (pq_bounds img Hvalid) as Hpq. simpl in Hpq.
  pose proof (part_bounds t (x img ÷ STEP) N ltac:(lia) HN Ht) as Hpart.
  destruct (march_spec img g contour_map Hvalid Hdims Hbin Hmap t N)
    as (img' & Hmarch & (Hx' & Hy' & Hv') & Hpx); [done..|].
  exists img'. split; [done|]. split; [done|]. split; [done|]. split.
  - intros i j Hi Hj.
    assert (Hip : 0 ≤ i < x img ÷ STEP) by (unfold assigned in Hi; lia).
    destruct (march_contour img g contour_map Hdims Hbin Hmap i j)
      as (k & tile & Hk & Htile & (Htv & Htx & Hty)); [done..|].
    pose proof Hk as Hcfg. unfold config_index in Hk.
    destruct (grid_get g i j) as [a|] eqn:Ha; [|done].
    destruct (grid_get g i (j + 1)) as [b|] eqn:Hb; [|done].
    destruct (grid_get g (i + 1) (j + 1)) as [c|] eqn:Hc; [|done].
    destruct (grid_get g (i + 1) j) as [d|] eqn:Hd; [|done].
    simpl in Hk. injection Hk as <-.
    pose proof (Hbin _ _ _ Ha). pose proof (Hbin _ _ _ Hb).
    pose proof (Hbin _ _ _ Hc). pose proof (Hbin _ _ _ Hd).
    pose proof Htile as Htile'.
    unfold uchar in Htile'. rewrite Z.mod_small in Htile' by lia.
    exists a, b, c, d, tile. repeat (split; [done|]).
    intros u v Hu Hv. rewrite Htx in Hu. rewrite Hty in Hv. rewrite Hty.
    destruct (contour_pixel tile u v) as [px Hpx']; [done..|].
    exists px. rewrite Htx in Hpx'. rewrite Z.mul_comm. split; [done|].
    specialize (Hpx (i * STEP + u) (j * STEP + v)).
    unfold pixel_rc in Hpx. rewrite Hy' in Hpx.
    erewrite (march_value_cell g contour_map i j) in Hpx;
      [|exact Hcfg|exact Htile|lia|lia].
    rewrite Htx in Hpx.
    replace (i * STEP + u - i * STEP) with u in Hpx by lia.
    replace (j * STEP + v - j * STEP) with v in Hpx by lia.
    rewrite Hpx' in Hpx. unfold STEP in *.
    rewrite decide_True in Hpx by lia.
    rewrite decide_True in Hpx; [done|].
    split; [|lia]. unfold assigned in *.
    pose proof (div8_range (i * 8 + u) i (i + 1)). lia.
  - intros r c Hout. rewrite Hpx. by rewrite decide_False.
Qed.

Lemma binary_grid_intro (g : grid_t) :
  Forall (Forall (λ v, v = 0 ∨ v = 1)) g → binary_grid g.
Proof.
  intros Hall a b v Hv. unfold grid_get in Hv.
  destruct (load g a) as [row|] eqn:Hrow; [|done]. simpl in Hv.
  unfold load in Hrow, Hv.
  repeat case_bool_decide; try done.
  rewrite Forall_lookup in Hall. specialize (Hall _ _ Hrow).
  rewrite Forall_lookup in Hall. by eapply Hall.
Qed.

Lemma flat_contours_valid px :
  valid_contour_map (replicate 16 (flat_image 8 8 px)).
Proof.
  split; [done|]. apply Forall_replicate.
  split; [|done]. apply flat_image_valid; lia.
Qed.

(** One worker, an image of 8 by 8 white pixels, a grid of zeros and
    sixteen black contour images. *)
Lemma march_stamps_contours_witness :
  ∃ img', march (flat_image 8 8 white) [[0; 0]; [0; 0]]
            (replicate 16 (flat_image 8 8 black)) 0 1 = Some img' ∧
    x img' = 8 ∧ y img' = 8 ∧
    (∀ i j, assigned 0 (8 ÷ STEP) 1 i → 0 ≤ j < 8 ÷ STEP →
       ∃ a b c d contour,
         grid_get [[0; 0]; [0; 0]] i j = Some a ∧
         grid_get [[0; 0]; [0; 0]] i (j + 1) = Some b ∧
         grid_get [[0; 0]; [0; 0]] (i + 1) (j + 1) = Some c ∧
         grid_get [[0; 0]; [0; 0]] (i + 1) j = Some d ∧
         load (replicate 16 (flat_image 8 8 black)) (8 * a + 4 * b + 2 * c + 1 * d)
           = Some contour ∧
         ∀ u v, 0 ≤ u < x contour → 0 ≤ v < y contour →
           ∃ px, pixel_at contour (u * y contour + v) = Some px ∧
                 pixel_at img' ((i * STEP + u) * 8 + (j * STEP + v)) = Some px) ∧
    (∀ r c, ¬ (assigned 0 (8 ÷ STEP) 1 (r `div` STEP) ∧ 0 ≤ c < 8 ÷ STEP * STEP) →
            pixel_rc img' r c = pixel_rc (flat_image 8 8 white) r c).
Proof.
  apply (march_stamps_contours (flat_image 8 8 white) [[0; 0]; [0; 0]]
           (replicate 16 (flat_image 8 8 black)) 0 1).
  - apply flat_image_valid; lia.
  - apply grid_dims_intro; [done|done|done|]. by repeat constructor.
  - apply binary_grid_intro. repeat constructor; by left.
  - apply flat_contours_valid.
  - lia.
  - lia.
Defined.


(** ** The process: arguments, allocation, the working image *)

Section process.
Variable float : Type.
Variable float_of_int : Z → float.
Variable fdiv : float → float → float.
Variable sample_bicubic : ppm_image → float → float → ppm_pixel.
Variable read_ppm : string → outcome ppm_image.
Variable atoi : string → Z.

Local Abbreviation the_main :=
  (main float float_of_int fdiv sample_bicubic read_ppm atoi).
Local Abbreviation the_main_body :=
  (main_body float float_of_int fdiv sample_bicubic read_ppm atoi).
Local Abbreviation the_apeleaza_rescale :=
  (apeleaza_rescale float float_of_int fdiv sample_bicubic).

(** C9: [argv] holds the program name and the arguments.  With fewer than
    three arguments [main] ends with the usage text and status 1, whatever
    the files, the allocator and the schedule are; with three or more it
    goes on to the rest of the program. *)
Theorem main_usage (argv : list string) (m : mallocs) (sc : schedule) :
  let arguments := Z.of_nat (length argv) - 1 in
  (arguments < 3 → the_main argv m sc = Exit 1 usage_diagnostic ∧ 1 ≠ 0) ∧
  (3 ≤ arguments → the_main argv m sc = the_main_body argv m sc).
Proof.
  simpl. unfold main. split; intros Hargs.
  - rewrite bool_decide_true by lia. done.
  - rewrite bool_decide_false by lia. done.
Qed.

(** The allocations whose failure is detected: a null result for the
    contour map, for the struct of the rescaled image, for the array of
    grid rows or for one grid row ends the process with the diagnostic and
    status 1. *)
Lemma allocation_failures_abort (heap : gmap positive ppm_image)
    (image : ppm_image) (m_data : malloc_result ppm_pixel)
    (m_row : Z → malloc_result Z) (u : Z → unit) (i : Z) :
  init_contour_map read_ppm Null = Exit 1 alloc_diagnostic ∧
  allocate_rescale heap Null m_data = Exit 1 alloc_diagnostic ∧
  allocate_grid image Null m_row = Exit 1 alloc_diagnostic ∧
  (0 ≤ i ≤ x image ÷ STEP → m_row i = Null →
   (∀ i', 0 ≤ i' < i → m_row i' ≠ Null) →
   allocate_grid image (Block u) m_row = Exit 1 alloc_diagnostic).
Proof.
  repeat split; try done.
  intros Hi Hnull Hbefore. unfold allocate_grid.
  assert (Hgen : ∀ n k, k ≤ i < k + Z.of_nat n →
            (∀ i', k ≤ i' < i → m_row i' ≠ Null) →
            allocate_rows m_row (y image ÷ STEP) n k = Exit 1 alloc_diagnostic).
  { induction n as [|n IH]; intros k Hk Hb; [lia|]. simpl.
    destruct (decide (k = i)) as [->|Hne]; [by rewrite Hnull|].
    destruct (m_row k) as [|junk] eqn:Hrow; [done|].
    rewrite IH; [done|lia|]. intros i' Hi'. apply Hb. lia. }
  apply Hgen; [lia|]. intros i' Hi'. apply Hbefore. lia.
Qed.

(** C5: the working image is the struct of the source exactly when the
    source has at most 2048 rows and at most 2048 columns.  In that case
    nothing is allocated and the rescaling step of every worker leaves the
    shared state as it is; otherwise the working image is a new struct at
    an address distinct from the source. *)
Theorem working_image_alias (heap : gmap positive ppm_image) (image : positive)
    (img : ppm_image) (m : mallocs) :
  heap !! image = Some img →
  (∀ scaled_image heap',
     working_image heap image img m = Ret (scaled_image, heap') →
     (scaled_image = image ↔ x img ≤ RESCALE_X ∧ y img ≤ RESCALE_Y)) ∧
  (x img ≤ RESCALE_X ∧ y img ≤ RESCALE_Y →
     working_image heap image img m = Ret (image, heap) ∧
     ∀ t N s, the_apeleaza_rescale (Worker t image image N) s = Some s) ∧
  (x img = RESCALE_X ∧ y img = RESCALE_Y →
     working_image heap image img m = Ret (image, heap)) ∧
  (¬ (x img ≤ RESCALE_X ∧ y img ≤ RESCALE_Y) →
     ∀ u, m_new_image m = Block u →
       ∃ scaled_image heap',
         working_image heap image img m = Ret (scaled_image, heap') ∧
         scaled_image ≠ image ∧ heap' !! image = Some img ∧
         ∃ new_image, heap' !! scaled_image = Some new_image ∧
                      x new_image = RESCALE_X ∧ y new_image = RESCALE_Y).
Proof.
  intros Himage.
  assert (Hfresh : fresh (dom heap) ≠ image).
  { intros Heq. apply (is_fresh (dom heap)). rewrite Heq.
    apply elem_of_dom. by eauto. }
  unfold working_image.
  split; [|split; [|split]].
  - intros scaled_image heap'.
    destruct (bool_decide (x img ≤ RESCALE_X)) eqn:Hbx;
      destruct (bool_decide (y img ≤ RESCALE_Y)) eqn:Hby; simpl;
      try apply bool_decide_eq_true in Hbx; try apply bool_decide_eq_true in Hby;
      try apply bool_decide_eq_false in Hbx; try apply bool_decide_eq_false in Hby.
    + intros [= <- <-]. done.
    + unfold allocate_rescale. destruct (m_new_image m); [done|].
      intros [= <- <-]. split; [done|]. intros [_ ?]. done.
    + unfold allocate_rescale. destruct (m_new_image m); [done|].
      intros [= <- <-]. split; [done|]. intros [? _]. done.
    + unfold allocate_rescale. destruct (m_new_image m); [done|].
      intros [= <- <-]. split; [done|]. intros [? _]. done.
  - intros [Hx Hy]. rewrite !bool_decide_true by done. split; [done|].
    intros t N s. unfold apeleaza_rescale. simpl.
    by rewrite decide_False by (intros Hne; by apply Hne).
  - intros [Hx Hy]. rewrite !bool_decide_true by lia. done.
  - intros Hbig u Hu.
    assert (Hb : bool_decide (x img ≤ RESCALE_X) && bool_decide (y img ≤ RESCALE_Y)
                 = false).
    { apply andb_false_iff.
      destruct (decide (x img ≤ RESCALE_X)); [right|left];
        apply bool_decide_eq_false; tauto. }
    rewrite Hb. unfold allocate_rescale. rewrite Hu.
    eexists _, _. split; [done|]. simpl. split; [done|]. split.
    + by rewrite lookup_insert_ne.
    + eexists. rewrite lookup_insert_eq. done.
Qed.

End process.

(** ** A failed allocation of the rescaled pixel buffer *)

(** C8 at [tall_image] with [null_data_mallocs]: [allocate_rescale]
    returns the struct with a null [data] instead of ending the process,
    and [main], run with one worker, goes on past the allocation to the
    workers, where the first store through [data] is undefined behaviour;
    it does not end with the diagnostic. *)
Theorem main_continues_after_null_data :
  let run :=
    main unit (λ _, ()) (λ _ _, ()) (λ _ _ _, white) (λ _, Ret tall_image) (λ _, 1)
         ["./tema1"; "in.ppm"; "out.ppm"; "1"] null_data_mallocs
         (Schedule [0] [0] [0]) in
  allocate_rescale ∅ (Block (λ _, ())) Null =
    Ret (new_struct ∅ (Image RESCALE_X RESCALE_Y None)) ∧
  rescale_image unit (λ _, ()) (λ _ _, ()) (λ _ _ _, white)
    tall_image (Image RESCALE_X RESCALE_Y None) 0 1 = None ∧
  run = Undefined ∧ run ≠ Exit 1 alloc_diagnostic.
Proof.
  simpl. split; [done|]. split; [by vm_compute|].
  assert (Hrun : main unit (λ _, ()) (λ _ _, ()) (λ _ _ _, white)
                   (λ _, Ret tall_image) (λ _, 1)
                   ["./tema1"; "in.ppm"; "out.ppm"; "1"] null_data_mallocs
                   (Schedule [0] [0] [0]) = Undefined).
  { by vm_compute. }
  rewrite Hrun. done.
Qed.

(** ** Concrete runs of the process-level statements *)

(** Two arguments only: the usage text. *)
Lemma main_usage_witness :
  main unit (λ _, ()) (λ _ _, ()) (λ _ _ _, white) (λ _, Ret tall_image) (λ _, 1)
       ["./tema1"; "in.ppm"; "out.ppm"] null_data_mallocs (Schedule [0] [0] [0])
    = Exit 1 usage_diagnostic ∧ 1 ≠ 0.
Proof.
  apply (main_usage unit (λ _, ()) (λ _ _, ()) (λ _ _ _, white)
           (λ _, Ret tall_image) (λ _, 1)
           ["./tema1"; "in.ppm"; "out.ppm"] null_data_mallocs (Schedule [0] [0] [0])).
  simpl. lia.
Defined.

(** A heap that holds one image of 8 by 8 pixels at address 1. *)
Lemma working_image_alias_witness :
  let heap : gmap positive ppm_image := {[ 1%positive := flat_image 8 8 white ]} in
  working_image heap 1%positive (flat_image 8 8 white) null_data_mallocs
    = Ret (1%positive, heap).
Proof.
  simpl.
  destruct (working_image_alias unit (λ _, ()) (λ _ _, ()) (λ _ _ _, white)
              {[ 1%positive := flat_image 8 8 white ]} 1%positive
              (flat_image 8 8 white) null_data_mallocs)
    as (_ & H2 & _).
  - reflexivity.
  - apply H2. simpl. unfold RESCALE_X, RESCALE_Y. lia.
Defined.

(** ** The stages of the workers *)

Section stages.
Variable float : Type.
Variable float_of_int : Z → float.
Variable fdiv : float → float → float.
Variable sample_bicubic : ppm_image → float → float → ppm_pixel.

Local Abbreviation the_rescale_image :=
  (rescale_image float float_of_int fdiv sample_bicubic).
Local Abbreviation rescale_stage :=
  (apeleaza_rescale float float_of_int fdiv sample_bicubic).
Local Abbreviation the_rescaled_pixel :=
  (rescaled_pixel float float_of_int fdiv sample_bicubic).

Lemma rescale_image_row src dst im i :
  valid_image dst → same_shape dst im → 0 ≤ i < x dst →
  ∃ im', for_range 0 (y im) (λ j new_image,
           set_pixel new_image (i * y new_image + j)
             (sample_bicubic src
                (fdiv (float_of_int i) (float_of_int (x new_image - 1)))
                (fdiv (float_of_int j) (float_of_int (y new_image - 1))))) im
         = Some im' ∧
         same_shape dst im' ∧
         ∀ r c, pixel_rc im' r c =
                if decide (r = i ∧ 0 ≤ c < y dst)
                then Some (the_rescaled_pixel src (x dst) (y dst) r c)
                else pixel_rc im r c.
Proof.
  intros Hvalid Hsh Hi. pose proof Hsh as (Hx & Hy & Hv).
  pose proof Hvalid as (d & _ & Hx0 & Hy0 & _).
  pose (I := λ (j : Z) (im' : ppm_image),
    same_shape dst im' ∧
    ∀ r c, pixel_rc im' r c =
           if decide (r = i ∧ 0 ≤ c < j)
           then Some (the_rescaled_pixel src (x dst) (y dst) r c)
           else pixel_rc im r c).
  rewrite Hy.
  apply (for_range_total I); subst I; simpl; [lia| |].
  - split; [done|]. intros r c. case_decide; [lia|done].
  - intros j im1 Hj [Hsh1 Hpx1]. pose proof Hsh1 as (Hx1 & Hy1 & Hv1).
    destruct (set_pixel_rc im1 i j
                (sample_bicubic src
                   (fdiv (float_of_int i) (float_of_int (x im1 - 1)))
                   (fdiv (float_of_int j) (float_of_int (y im1 - 1)))))
      as (im2 & Hset & Hsh2 & Hpx2); [done|lia|lia|].
    exists im2. split; [done|]. split; [by eapply same_shape_trans|].
    intros r c. rewrite Hpx2, Hpx1. rewrite Hx1, Hy1.
    repeat case_decide; try done; try lia.
    match goal with H : r = _ ∧ c = _ |- _ => destruct H as [-> ->] end.
    done.
Qed.

(** What worker [t] of [N] does to the new image. *)
Lemma rescale_image_spec src dst t N :
  valid_image dst → 1 ≤ N → 0 ≤ t < N →
  ∃ dst', the_rescale_image src dst t N = Some dst' ∧
          same_shape dst dst' ∧
          ∀ r c, pixel_rc dst' r c =
                 if decide (assigned t (x dst) N r ∧ 0 ≤ c < y dst)
                 then Some (the_rescaled_pixel src (x dst) (y dst) r c)
                 else pixel_rc dst r c.
Proof.
  intros Hvalid HN Ht. pose proof Hvalid as (d & _ & Hx0 & Hy0 & _).
  pose proof (part_bounds t (x dst) N Hx0 HN Ht) as Hpart.
  unfold rescale_image, assigned.
  change (t * (x dst ÷ N)) with (part_start t (x dst) N).
  change ((t + 1) * (x dst ÷ N)) with (part_end t (x dst) N).
  rewrite Z.min_l by lia.
  pose (I := λ (i : Z) (im' : ppm_image),
    same_shape dst im' ∧
    ∀ r c, pixel_rc im' r c =
           if decide (part_start t (x dst) N ≤ r < i ∧ 0 ≤ c < y dst)
           then Some (the_rescaled_pixel src (x dst) (y dst) r c)
           else pixel_rc dst r c).
  apply (for_range_total I); subst I; simpl; [lia| |].
  - split; [by apply same_shape_refl|]. intros r c. case_decide; [lia|done].
  - intros i im1 Hi [Hsh1 Hpx1].
    destruct (rescale_image_row src dst im1 i) as (im2 & Hrow & Hsh2 & Hpx2);
      [done|done|lia|].
    exists im2. split; [done|]. split; [done|].
    intros r c. rewrite Hpx2, Hpx1.
    repeat case_decide; try done; lia.
Qed.

Lemma run_stage_cons stage mk t sched s s1 :
  stage (mk t) s = Some s1 →
  run_stage stage mk (t :: sched) s = run_stage stage mk sched s1.
Proof. intros H. simpl. by rewrite H. Qed.

Lemma apeleaza_rescale_step src cur cur' image scaled t N s :
  image ≠ scaled →
  structs s !! image = Some src → structs s !! scaled = Some cur →
  the_rescale_image src cur t N = Some cur' →
  rescale_stage (Worker t image scaled N) s =
    Some (Shared (<[scaled := cur']> (structs s)) (grid s)).
Proof.
  intros Hne Hsrc Hcur Hres. unfold apeleaza_rescale. simpl.
  rewrite decide_True by done. rewrite Hsrc, Hcur. simpl. by rewrite Hres.
Qed.

Lemma apeleaza_rescale_same image t N s :
  rescale_stage (Worker t image image N) s = Some s.
Proof.
  unfold apeleaza_rescale. simpl.
  rewrite decide_False; [done|]. intros Hn. by apply Hn.
Qed.

Lemma apeleaza_sample_step img g1 image scaled t N s :
  structs s !! scaled = Some img →
  sample_grid img (grid s) t N = Some g1 →
  apeleaza_sample (Worker t image scaled N) s = Some (Shared (structs s) g1).
Proof.
  intros Himg Hg1. unfold apeleaza_sample. simpl. rewrite Himg. simpl.
  by rewrite Hg1.
Qed.

Lemma apeleaza_march_step contour_map cur cur' image scaled t N s :
  structs s !! scaled = Some cur →
  march cur (grid s) contour_map t N = Some cur' →
  apeleaza_march contour_map (Worker t image scaled N) s =
    Some (Shared (<[scaled := cur']> (structs s)) (grid s)).
Proof.
  intros Hcur Hmarch. unfold apeleaza_march. simpl. rewrite Hcur. simpl.
  by rewrite Hmarch.
Qed.

(** *** The rescaling stage *)

Lemma rescale_stage_spec src work image scaled N sched :
  image ≠ scaled → valid_image work → 1 ≤ N →
  (∀ t, t ∈ sched → 0 ≤ t < N) →
  ∀ s cur,
    structs s !! image = Some src → structs s !! scaled = Some cur →
    same_shape work cur →
    ∃ s' W,
      run_stage rescale_stage (λ t, Worker t image scaled N) sched s = Some s' ∧
      grid s' = grid s ∧
      structs s' !! image = Some src ∧ structs s' !! scaled = Some W ∧
      same_shape work W ∧
      ∀ r c,
        (pixel_rc cur r c = Some (the_rescaled_pixel src (x work) (y work) r c) ∨
         ∃ t, t ∈ sched ∧ assigned t (x work) N r ∧ 0 ≤ c < y work) →
        pixel_rc W r c = Some (the_rescaled_pixel src (x work) (y work) r c).
Proof.
  intros Hne Hvalid HN. induction sched as [|t sched IH]; intros Hsched s cur Hsrc Hcur Hsh.
  - exists s, cur. simpl. repeat (split; [done|]).
    intros r c [Hrc | (t & Ht & _)]; [done|]. by apply elem_of_nil in Ht.
  - pose proof Hsh as (Hx & Hy & Hv).
    destruct (rescale_image_spec src cur t N) as (cur' & Hres & Hsh' & Hpx);
      [done|done|apply Hsched; by left|].
    rewrite (run_stage_cons _ (λ t, Worker t image scaled N) t sched s _
               (apeleaza_rescale_step src cur cur' image scaled t N s
                  Hne Hsrc Hcur Hres)).
    destruct (IH (λ t' Ht', Hsched t' (list_elem_of_further _ _ _ Ht'))
                (Shared (<[scaled := cur']> (structs s)) (grid s)) cur')
      as (s' & W & Hrun & Hgrid & Himg & Hscaled & HshW & HW); simpl.
    { by rewrite lookup_insert_ne. }
    { by rewrite lookup_insert_eq. }
    { by eapply same_shape_trans. }
    exists s', W. repeat (split; [done|]).
    intros r c Hrc. apply HW. rewrite Hpx, Hx, Hy.
    destruct (decide (assigned t (x work) N r ∧ 0 ≤ c < y work)) as [Hin|Hout];
      [by left|].
    destruct Hrc as [Hrc | (t' & Ht' & Hin')]; [by left|].
    apply elem_of_cons in Ht' as [-> | Ht']; [done|]. right. by exists t'.
Qed.

(** *** The sampling stage *)

Lemma sample_stage_spec img image scaled N sched :
  valid_image img → sample_defined img → 1 ≤ N →
  (∀ t, t ∈ sched → 0 ≤ t < N) →
  ∀ s,
    structs s !! scaled = Some img →
    grid_dims (grid s) (x img ÷ STEP) (y img ÷ STEP) →
    ∃ s',
      run_stage apeleaza_sample (λ t, Worker t image scaled N) sched s = Some s' ∧
      structs s' = structs s ∧
      grid_dims (grid s') (x img ÷ STEP) (y img ÷ STEP) ∧
      ∀ a b,
        (grid_get (grid s) a b = sample_value img a b ∨
         ∃ t, t ∈ sched ∧ sample_writes img t N a b) →
        grid_get (grid s') a b = sample_value img a b.
Proof.
  intros Hvalid Hdef HN. induction sched as [|t sched IH]; intros Hsched s Himg Hdims.
  - exists s. simpl. repeat (split; [done|]).
    intros a b [Hab | (t & Ht & _)]; [done|]. by apply elem_of_nil in Ht.
  - assert (Ht : 0 ≤ t < N) by (apply Hsched; by left).
    destruct (sample_grid_total img Hvalid (grid s) t N) as [g1 Hg1]; [done..|].
    destruct (sample_grid_spec img Hvalid (grid s) g1 t N) as [Hd1 Hget1]; [done..|].
    rewrite (run_stage_cons _ (λ t, Worker t image scaled N) t sched s _
               (apeleaza_sample_step img g1 image scaled t N s Himg Hg1)).
    destruct (IH (λ t' Ht', Hsched t' (list_elem_of_further _ _ _ Ht'))
                (Shared (structs s) g1))
      as (s' & Hrun & Hstructs & Hd' & Hget'); [done|done|].
    exists s'. repeat (split; [done|]).
    intros a b Hab. apply Hget'. simpl. rewrite Hget1.
    destruct (decide (sample_writes img t N a b)) as [Hin|Hout]; [by left|].
    destruct Hab as [Hab | (t' & Ht' & Hin')]; [by left|].
    apply elem_of_cons in Ht' as [-> | Ht']; [done|]. right. by exists t'.
Qed.

(** *** The marching stage *)

Lemma march_stage_spec img g contour_map image scaled N sched :
  valid_image img →
  grid_dims g (x img ÷ STEP) (y img ÷ STEP) → binary_grid g →
  valid_contour_map contour_map → 1 ≤ N →
  (∀ t, t ∈ sched → 0 ≤ t < N) →
  ∀ s cur,
    grid s = g → structs s !! scaled = Some cur → same_shape img cur →
    ∃ s' out,
      run_stage (apeleaza_march contour_map) (λ t, Worker t image scaled N) sched s
        = Some s' ∧
      grid s' = grid s ∧
      structs s' !! scaled = Some out ∧ same_shape img out ∧
      (∀ r c,
         (pixel_rc cur r c = march_value g contour_map r c ∨
          ∃ t, t ∈ sched ∧ assigned t (x img ÷ STEP) N (r `div` STEP) ∧
               0 ≤ c < y img ÷ STEP * STEP) →
         pixel_rc out r c = march_value g contour_map r c) ∧
      (∀ r c,
         (∀ t, t ∈ sched → ¬ (assigned t (x img ÷ STEP) N (r `div` STEP) ∧
                              0 ≤ c < y img ÷ STEP * STEP)) →
         pixel_rc out r c = pixel_rc cur r c).
Proof.
  intros Hvalid Hdims Hbin Hmap HN.
  induction sched as [|t sched IH]; intros Hsched s cur Hgrid Hcur Hsh.
  - exists s, cur. simpl. repeat (split; [done|]). split; [|done].
    intros r c [Hrc | (t & Ht & _)]; [done|]. by apply elem_of_nil in Ht.
  - pose proof Hsh as (Hx & Hy & Hv).
    assert (Ht : 0 ≤ t < N) by (apply Hsched; by left).
    destruct (march_spec cur g contour_map Hv) with (t := t) (N := N)
      as (cur' & Hmarch & Hsh' & Hpx); [by rewrite Hx, Hy|done..|].
    rewrite Hx, Hy in Hpx.
    rewrite <- Hgrid in Hmarch.
    rewrite (run_stage_cons _ (λ t, Worker t image scaled N) t sched s _
               (apeleaza_march_step contour_map cur cur' image scaled t N s
                  Hcur Hmarch)).
    destruct (IH (λ t' Ht', Hsched t' (list_elem_of_further _ _ _ Ht'))
                (Shared (<[scaled := cur']> (structs s)) (grid s)) cur')
      as (s' & out & Hrun & Hg' & Hout & Hshout & Hin & Hframe); simpl.
    { done. }
    { by rewrite lookup_insert_eq. }
    { by eapply same_shape_trans. }
    exists s', out. repeat (split; [done|]). split.
    + intros r c Hrc. apply Hin. rewrite Hpx.
      case_decide as Hw; [by left|].
      destruct Hrc as [Hrc | (t' & Ht' & Hin')]; [by left|].
      apply elem_of_cons in Ht' as [-> | Ht']; [done|]. right. by exists t'.
    + intros r c Hnone. rewrite Hframe.
      * rewrite Hpx, decide_False; [done|]. apply Hnone. by left.
      * intros t' Ht'. apply Hnone. by right.
Qed.

(** *** The three stages in sequence *)

Lemma sched_elem N sched t : sched ≡ₚ seqZ 0 N → t ∈ sched ↔ 0 ≤ t < N.
Proof. intros ->. rewrite elem_of_seqZ. lia. Qed.

Lemma divides_cover e N : 0 ≤ e → 1 ≤ N → e `mod` N = 0 → N * (e ÷ N) = e.
Proof.
  intros He HN Hmod. rewrite part_quot by done.
  pose proof (Z.div_mod e N ltac:(lia)). lia.
Qed.

Lemma sample_writes_cover img N sched a b :
  valid_image img → 1 ≤ N → sched ≡ₚ seqZ 0 N →
  (x img ÷ STEP) `mod` N = 0 → (y img ÷ STEP) `mod` N = 0 →
  0 ≤ a ≤ x img ÷ STEP → 0 ≤ b ≤ y img ÷ STEP →
  ∃ t, t ∈ sched ∧ sample_writes img t N a b.
Proof.
  intros Hvalid HN Hperm Hp Hq Ha Hb.
  pose proof (pq_bounds img Hvalid) as Hpq. simpl in Hpq.
  unfold sample_writes.
  destruct (decide (a < x img ÷ STEP)) as [Halt|Hage].
  - destruct (assigned_exists (x img ÷ STEP) N a) as (t & Ht & Hin); [lia|done| |].
    { rewrite divides_cover by (done || lia). lia. }
    exists t. split; [by apply (sched_elem N)|]. left. done.
  - destruct (decide (b < y img ÷ STEP)) as [Hblt|Hbge].
    + destruct (assigned_exists (y img ÷ STEP) N b) as (t & Ht & Hin); [lia|done| |].
      { rewrite divides_cover by (done || lia). lia. }
      exists t. split; [by apply (sched_elem N)|]. right. left. split; [lia|done].
    + exists 0. split; [apply (sched_elem N); [done|lia]|]. right. right. lia.
Qed.

Lemma run_workers_spec src work image scaled contour_map N sc s :
  structs s !! image = Some src → structs s !! scaled = Some work →
  valid_image work → sample_defined work →
  grid_dims (grid s) (x work ÷ STEP) (y work ÷ STEP) →
  valid_contour_map contour_map →
  1 ≤ N → valid_schedule N sc →
  (x work ÷ STEP) `mod` N = 0 → (y work ÷ STEP) `mod` N = 0 →
  (image ≠ scaled → x work `mod` N = 0) →
  ∃ s' W out,
    run_workers float float_of_int fdiv sample_bicubic
      contour_map image scaled N sc s = Some s' ∧
    structs s' !! scaled = Some out ∧
    pipeline_result float float_of_int fdiv sample_bicubic
      src work (bool_decide (image ≠ scaled)) contour_map W (grid s') out.
Proof.
  intros Hsrc Hwork Hvalid Hdef Hdims Hmap HN (Hs1 & Hs2 & Hs3) Hp Hq Hresc.
  pose proof (pq_bounds work Hvalid) as Hpq. simpl in Hpq.
  pose proof Hvalid as (d0 & _ & Hx0 & Hy0 & _).
  unfold run_workers.
  (* rescaling *)
  assert (Hstage1 : ∃ s1 W,
    run_stage rescale_stage (λ t, Worker t image scaled N) (sched_rescale sc) s
      = Some s1 ∧
    grid s1 = grid s ∧ structs s1 !! scaled = Some W ∧ same_shape work W ∧
    (if bool_decide (image ≠ scaled)
     then ∀ r c, 0 ≤ r < x work → 0 ≤ c < y work →
                 pixel_rc W r c = Some (the_rescaled_pixel src (x work) (y work) r c)
     else W = src)).
  { case_bool_decide as Hne.
    - destruct (rescale_stage_spec src work image scaled N (sched_rescale sc))
        with (s := s) (cur := work)
        as (s1 & W & Hrun & Hg & _ & HW & Hsh & Hpx);
        [done|done|done|by intros t Ht%(sched_elem N)|done|done
        |by apply same_shape_refl|].
      exists s1, W. repeat (split; [done|]). intros r c Hr Hc. apply Hpx. right.
      destruct (assigned_exists (x work) N r) as (t & Ht & Hin); [done|done| |].
      { rewrite divides_cover by (done || by apply Hresc). done. }
      exists t. split; [by apply (sched_elem N)|done].
    - assert (image = scaled) as -> by (destruct (decide (image = scaled)); done).
      exists s, work. split.
      + generalize (sched_rescale sc). intros l. induction l as [|t l IH]; [done|].
        by rewrite (run_stage_cons _ (λ t, Worker t scaled scaled N) t l s _
                      (apeleaza_rescale_same scaled t N s)).
      + repeat (split; [done|try by apply same_shape_refl]). congruence. }
  destruct Hstage1 as (s1 & W & Hrun1 & Hg1 & HW & HshW & HWpx).
  rewrite Hrun1. simpl.
  pose proof HshW as (HxW & HyW & HvW).
  (* sampling *)
  destruct (sample_stage_spec W image scaled N (sched_sample sc)) with (s := s1)
    as (s2 & Hrun2 & Hst2 & Hd2 & Hget2);
    [done|by apply (sample_defined_shape work)|done
    |by intros t Ht%(sched_elem N)|done|by rewrite HxW, HyW, Hg1|].
  rewrite Hrun2. simpl.
  assert (Hgrid : ∀ a b, 0 ≤ a ≤ x work ÷ STEP → 0 ≤ b ≤ y work ÷ STEP →
                         grid_get (grid s2) a b = sample_value W a b).
  { intros a b Ha Hb. apply Hget2. right.
    apply sample_writes_cover; try done; rewrite ?HxW, ?HyW; done. }
  assert (Hbin : binary_grid (grid s2)).
  { intros a b v Hv. assert (Hin : is_Some (grid_get (grid s2) a b)) by eauto.
    apply Hd2 in Hin. rewrite HxW, HyW in Hin.
    rewrite Hgrid in Hv by lia. by eapply sample_value_binary. }
  (* marching *)
  destruct (march_stage_spec W (grid s2) contour_map image scaled N (sched_march sc))
    with (s := s2) (cur := W)
    as (s3 & out & Hrun3 & Hg3 & Hout & Hshout & Hin & Hframe);
    [done|done|done|done|done|by intros t Ht%(sched_elem N)|done
    |by rewrite Hst2|by apply same_shape_refl|].
  exists s3, W, out. split; [done|]. split; [done|]. rewrite Hg3.
  split; [done|]. split; [by eapply same_shape_trans|].
  split; [done|]. split; [by rewrite <- HxW, <- HyW|]. split; [done|].
  intros r c. rewrite HxW, HyW in Hin, Hframe.
  destruct (decide _) as [Hrc|Hrc].
  - apply Hin. right.
    destruct (assigned_exists (x work ÷ STEP) N (r `div` STEP))
      as (t & Ht & Hassigned); [lia|done| |].
    { rewrite divides_cover by (done || lia). unfold STEP in *.
      pose proof (div8_range r 0 (x work ÷ 8)). lia. }
    exists t. split; [by apply (sched_elem N)|]. split; [done|lia].
  - apply Hframe. intros t Ht%(sched_elem N) [Hassigned Hc]; [|done].
    apply Hrc. split; [|done].
    pose proof (part_bounds t (x work ÷ STEP) N ltac:(lia) HN Ht) as Hpart.
    unfold assigned in Hassigned. unfold STEP in *.
    pose proof (div8_range r 0 (x work ÷ 8)). lia.
Qed.

End stages.

(** ** An all-white image *)

Lemma sample_value_white n m a b v :
  sample_value (flat_image n m white) a b = Some v → v = 0.
Proof.
  unfold sample_value. repeat case_decide; intros Hv;
    try (apply fmap_Some in Hv as (px & Hpx & ->);
         apply flat_image_pixel in Hpx as ->; done).
  by injection Hv as <-.
Qed.

(** C7: on an image of 16 by 16 white pixels, with [N] workers where [N]
    divides [p = q = 2], in any order inside the stages and whatever the
    grid held before, the grid after the run holds 0 in all of its 3 by 3
    cells and each of the four cells of 8 by 8 pixels of the final image
    is a copy of [contour_map[0]]. *)
Theorem white_image_tiled_with_contour_0
    (float : Type) (float_of_int : Z → float) (fdiv : float → float → float)
    (sample_bicubic : ppm_image → float → float → ppm_pixel)
    (contour_map : list ppm_image) (tile0 : ppm_image)
    (N : Z) (sc : schedule) (g0 : grid_t) (image : positive) :
  valid_contour_map contour_map → load contour_map 0 = Some tile0 →
  1 ≤ N → 2 `mod` N = 0 → valid_schedule N sc →
  grid_dims g0 2 2 →
  ∃ s' out,
    run_workers float float_of_int fdiv sample_bicubic contour_map image image N sc
      (Shared {[ image := flat_image 16 16 white ]} g0) = Some s' ∧
    (∀ a b, 0 ≤ a ≤ 2 → 0 ≤ b ≤ 2 → grid_get (grid s') a b = Some 0) ∧
    structs s' !! image = Some out ∧ x out = 16 ∧ y out = 16 ∧
    ∀ i j u v, 0 ≤ i < 2 → 0 ≤ j < 2 → 0 ≤ u < STEP → 0 ≤ v < STEP →
      ∃ px, pixel_at tile0 (u * STEP + v) = Some px ∧
            pixel_at out ((i * STEP + u) * 16 + (j * STEP + v)) = Some px.
Proof.
  intros Hmap Htile0 HN Hdiv Hsc Hdims.
  set (img := flat_image 16 16 white).
  assert (Hvalid : valid_image img) by (apply flat_image_valid; lia).
  destruct (run_workers_spec float float_of_int fdiv sample_bicubic
              img img image image contour_map N sc
              (Shared {[ image := img ]} g0))
    as (s' & W & out & Hrun & Hout & HshW & Hshout & HW & Hd' & Hgrid & Hpx);
    try done;
    try (by apply sample_defined_intro);
    try (simpl; by rewrite lookup_singleton_eq).
  rewrite bool_decide_false in HW by (intros Hn; by apply Hn). subst W.
  change (x img ÷ STEP) with 2 in *. change (y img ÷ STEP) with 2 in *.
  assert (Hzero : ∀ a b, 0 ≤ a ≤ 2 → 0 ≤ b ≤ 2 → grid_get (grid s') a b = Some 0).
  { intros a b Ha Hb.
    destruct (proj2 (Hd' a b)) as [v Hv]; [done|]. rewrite Hv. f_equal.
    rewrite Hgrid in Hv by done. by eapply sample_value_white. }
  destruct Hshout as (Hxo & Hyo & Hvo).
  exists s', out. repeat (split; [done|]).
  intros i j u v Hi Hj Hu Hv.
  assert (Hvt : valid_contour tile0).
  { destruct Hmap as [_ Hall]. rewrite Forall_lookup in Hall.
    unfold load in Htile0. simpl in Htile0. by eapply Hall. }
  destruct (contour_pixel tile0 u v Hvt Hu Hv) as [px Hpx'].
  pose proof Hvt as (_ & Htx & Hty). rewrite Htx in Hpx'.
  exists px. rewrite Z.mul_comm. split; [done|].
  assert (Hcfg : config_index (grid s') i j = Some 0).
  { unfold config_index. rewrite !Hzero by lia. done. }
  specialize (Hpx (i * STEP + u) (j * STEP + v)).
  unfold pixel_rc in Hpx. rewrite Hyo in Hpx. simpl in Hpx.
  unfold STEP in *.
  rewrite decide_True in Hpx by lia. rewrite decide_True in Hpx by lia.
  rewrite Hpx.
  rewrite (march_value_cell (grid s') contour_map i j 0 tile0); unfold STEP;
    [|done|done|lia|lia].
  rewrite Htx, <- Hpx'. f_equal. lia.
Qed.

(** A white image of 16 by 16 pixels, two workers that run the stages in
    the orders 1-0, 0-1 and 1-0, sixteen black contour images and a grid
    of sevens. *)
Lemma white_image_tiled_with_contour_0_witness :
  ∃ s' out,
    run_workers unit (λ _, ()) (λ _ _, ()) (λ _ _ _, white)
      (replicate 16 (flat_image 8 8 black)) 1%positive 1%positive 2
      (Schedule [1; 0] [0; 1] [1; 0])
      (Shared {[ 1%positive := flat_image 16 16 white ]}
              [[7; 7; 7]; [7; 7; 7]; [7; 7; 7]]) = Some s' ∧
    (∀ a b, 0 ≤ a ≤ 2 → 0 ≤ b ≤ 2 → grid_get (grid s') a b = Some 0) ∧
    structs s' !! 1%positive = Some out ∧ x out = 16 ∧ y out = 16 ∧
    ∀ i j u v, 0 ≤ i < 2 → 0 ≤ j < 2 → 0 ≤ u < STEP → 0 ≤ v < STEP →
      ∃ px, pixel_at (flat_image 8 8 black) (u * STEP + v) = Some px ∧
            pixel_at out ((i * STEP + u) * 16 + (j * STEP + v)) = Some px.
Proof.
  apply (white_image_tiled_with_contour_0 unit (λ _, ()) (λ _ _, ()) (λ _ _ _, white)
           (replicate 16 (flat_image 8 8 black)) (flat_image 8 8 black)
           2 (Schedule [1; 0] [0; 1] [1; 0])
           [[7; 7; 7]; [7; 7; 7]; [7; 7; 7]] 1%positive).
  - apply flat_contours_valid.
  - reflexivity.
  - lia.
  - reflexivity.
  - repeat split; simpl; [apply perm_swap|reflexivity|apply perm_swap].
  - apply grid_dims_intro; [lia|lia|reflexivity|]. by repeat constructor.
Defined.

(** ** The result does not depend on the number of workers *)

Lemma config_index_ext g1 g2 i j :
  (∀ a b, grid_get g1 a b = grid_get g2 a b) →
  config_index g1 i j = config_index g2 i j.
Proof. intros Hg. unfold config_index. by rewrite !Hg. Qed.

Lemma march_value_ext g1 g2 contour_map r c :
  (∀ a b, grid_get g1 a b = grid_get g2 a b) →
  march_value g1 contour_map r c = march_value g2 contour_map r c.
Proof. intros Hg. unfold march_value. by rewrite (config_index_ext g1 g2). Qed.

Lemma grid_get_outside g p q a b :
  grid_dims g p q → ¬ (0 ≤ a ≤ p ∧ 0 ≤ b ≤ q) → grid_get g a b = None.
Proof.
  intros Hdims Hout. apply eq_None_not_Some. intros Hsome. by apply Hdims in Hsome.
Qed.

Section unique.
Variable float : Type.
Variable float_of_int : Z → float.
Variable fdiv : float → float → float.
Variable sample_bicubic : ppm_image → float → float → ppm_pixel.

Local Abbreviation the_pipeline_result :=
  (pipeline_result float float_of_int fdiv sample_bicubic).

(** Two runs that start from working images of the same dimensions end
    with the same image. *)
Lemma pipeline_result_unique src work1 work2 rescaled contour_map
    W1 g1 out1 W2 g2 out2 :
  x work2 = x work1 → y work2 = y work1 →
  the_pipeline_result src work1 rescaled contour_map W1 g1 out1 →
  the_pipeline_result src work2 rescaled contour_map W2 g2 out2 →
  out2 = out1.
Proof.
  intros Hx Hy (HshW1 & Hsh1 & HW1 & Hd1 & Hg1 & Hpx1)
                    (HshW2 & Hsh2 & HW2 & Hd2 & Hg2 & Hpx2).
  rewrite Hx, Hy in *.
  destruct HshW1 as (HxW1 & HyW1 & HvW1), HshW2 as (HxW2 & HyW2 & HvW2).
  destruct Hsh1 as (Hxo1 & Hyo1 & Hvo1), Hsh2 as (Hxo2 & Hyo2 & Hvo2).
  assert (HW : W2 = W1).
  { destruct rescaled; [|congruence].
    apply image_ext; [done|repeat split; [congruence..|done]|].
    intros r c Hr Hc. rewrite HW1, HW2 by lia. done. }
  subst W2.
  assert (Hg : ∀ a b, grid_get g2 a b = grid_get g1 a b).
  { intros a b.
    destruct (decide (0 ≤ a ≤ x work1 ÷ STEP ∧ 0 ≤ b ≤ y work1 ÷ STEP)) as [Hin|Hout].
    - rewrite Hg1, Hg2 by tauto. done.
    - rewrite (grid_get_outside g1 _ _ a b Hd1 Hout).
      by rewrite (grid_get_outside g2 _ _ a b Hd2 Hout). }
  apply image_ext; [done|repeat split; [congruence..|done]|].
  intros r c Hr Hc. rewrite Hpx1, Hpx2.
  by rewrite (march_value_ext g2 g1).
Qed.

End unique.

(** ** The whole program *)

Lemma length_cells {A} (junk : Z → A) n : length (cells junk n) = Z.to_nat n.
Proof. unfold cells. by rewrite length_fmap, length_seqZ. Qed.

Lemma cells_valid junk n m :
  0 ≤ n → 0 ≤ m → valid_image (Image n m (Some (cells junk (n * m)))).
Proof.
  intros Hn Hm. eexists. split; [done|]. simpl. rewrite length_cells. nia.
Qed.

Lemma allocate_rows_ok (m_row : Z → malloc_result Z) q n i :
  (∀ k, m_row k ≠ Null) →
  ∃ g, allocate_rows m_row q n i = Ret g ∧ length g = n ∧
       Forall (λ row, length row = Z.to_nat (q + 1)) g.
Proof.
  intros Hrow. revert i. induction n as [|n IH]; intros i.
  - exists []. by repeat split.
  - simpl. destruct (m_row i) as [|junk] eqn:Hi; [by destruct (Hrow i)|].
    destruct (IH (i + 1)) as (g & -> & Hlen & Hall).
    exists (cells junk (q + 1) :: g). simpl. split; [done|].
    split; [by rewrite Hlen|]. constructor; [apply length_cells|done].
Qed.

Lemma allocate_grid_ok img (m_grid : malloc_result unit) (m_row : Z → malloc_result Z) :
  valid_image img → m_grid ≠ Null → (∀ k, m_row k ≠ Null) →
  ∃ g, allocate_grid img m_grid m_row = Ret g ∧
       grid_dims g (x img ÷ STEP) (y img ÷ STEP).
Proof.
  intros Hvalid Hgrid Hrow. pose proof (pq_bounds img Hvalid) as Hpq. simpl in Hpq.
  unfold allocate_grid. destruct m_grid as [|u]; [done|].
  destruct (allocate_rows_ok m_row (y img ÷ STEP) (Z.to_nat (x img ÷ STEP + 1)) 0)
    as (g & -> & Hlen & Hall); [done|].
  exists g. split; [done|]. apply grid_dims_intro; [lia|lia|done|done].
Qed.

Section whole_program.
Variable float : Type.
Variable float_of_int : Z → float.
Variable fdiv : float → float → float.
Variable sample_bicubic : ppm_image → float → float → ppm_pixel.
Variable read_ppm : string → outcome ppm_image.
Variable atoi : string → Z.

Local Abbreviation the_main :=
  (main float float_of_int fdiv sample_bicubic read_ppm atoi).

Lemma read_contours_ok n i :
  (∀ k, i ≤ k < i + Z.of_nat n →
        ∃ c, read_ppm (contour_filename k) = Ret c ∧ valid_contour c) →
  ∃ l, read_contours read_ppm n i = Ret l ∧ length l = n ∧ Forall valid_contour l.
Proof.
  revert i. induction n as [|n IH]; intros i Hread.
  - exists []. by repeat split.
  - destruct (Hread i) as (c & Hc & Hvc); [lia|].
    destruct (IH (i + 1)) as (l & Hl & Hlen & Hall).
    { intros k Hk. apply Hread. lia. }
    exists (c :: l). simpl. rewrite Hc. simpl. rewrite Hl. simpl.
    split; [done|]. split; [by rewrite Hlen|]. by constructor.
Qed.

Lemma outcome_bind_Ret {A B} (a : A) (f : A → outcome B) : (Ret a ≫= f) = f a.
Proof. done. Qed.

(** [main] once the working image [work] is in place at [scaled]. *)
Lemma main_tail out_file m sc N contour_map src work image scaled
    (heap : gmap positive ppm_image) :
  all_allocated m → valid_contour_map contour_map →
  heap !! image = Some src → heap !! scaled = Some work →
  valid_image work → sample_defined work →
  1 ≤ N → valid_schedule N sc →
  (x work ÷ STEP) `mod` N = 0 → (y work ÷ STEP) `mod` N = 0 →
  (image ≠ scaled → x work `mod` N = 0) →
  ∃ W g' out,
    main_workers float float_of_int fdiv sample_bicubic
      out_file m sc N contour_map image scaled heap = Ret (out_file, out) ∧
    pipeline_result float float_of_int fdiv sample_bicubic
      src work (bool_decide (image ≠ scaled)) contour_map W g' out.
Proof.
  intros (Him & Hth & _ & _ & _ & Hgr & Hrow) Hmap Hsrc Hwork Hvalid Hdef
         HN Hsc Hp Hq Hresc.
  unfold main_workers.
  rewrite Hwork. simpl (defined _). rewrite outcome_bind_Ret.
  destruct (allocate_grid_ok work (m_grid m) (m_grid_row m)) as (g & Hg & Hdims);
    [done..|].
  rewrite Hg, outcome_bind_Ret.
  destruct (run_workers_spec float float_of_int fdiv sample_bicubic
              src work image scaled contour_map N sc (Shared heap g))
    as (s' & W & out & Hrun & Hout & Hres); try done.
  exists W, (grid s'), out. split; [|done].
  rewrite bool_decide_true by lia.
  destruct (m_imagine m); [done|]. destruct (m_threads m); [done|].
  rewrite Hrun. simpl (defined _). rewrite outcome_bind_Ret.
  rewrite Hout. done.
Qed.

(** One run of [main] with enough arguments. *)
Lemma main_spec prog in_file out_file arg3 rest m sc src :
  readable read_ppm in_file src → all_allocated m →
  (needs_rescale src = false → sample_defined src) →
  1 ≤ atoi arg3 → divides_extents src (atoi arg3) →
  valid_schedule (atoi arg3) sc →
  ∃ contour_map work W g' out,
    init_contour_map read_ppm (m_map m) = Ret contour_map ∧
    the_main (prog :: in_file :: out_file :: arg3 :: rest) m sc
      = Ret (out_file, out) ∧
    x work = working_x src ∧ y work = working_y src ∧
    pipeline_result float float_of_int fdiv sample_bicubic
      src work (needs_rescale src) contour_map W g' out.
Proof.
  intros (Hread & Hvalid & Hcontours) Halloc Hsafe HN (Hdp & Hdq & Hdx) Hsc.
  pose proof Halloc as (Him & Hth & Hmap & Hni & Hnd & Hgr & Hrow).
  destruct (read_contours_ok 16 0) as (cm & Hcm & Hlen & Hall).
  { intros k Hk. apply Hcontours. unfold CONTOUR_CONFIG_COUNT. lia. }
  assert (Hinit : init_contour_map read_ppm (m_map m) = Ret cm).
  { unfold init_contour_map. destruct (m_map m); [done|]. exact Hcm. }
  assert (Hvcm : valid_contour_map cm).
  { split; [|done]. unfold CONTOUR_CONFIG_COUNT. rewrite Hlen. done. }
  unfold main. rewrite bool_decide_false by (simpl; lia).
  unfold main_body. simpl (_ !! _). simpl (defined _).
  rewrite !outcome_bind_Ret, Hread, outcome_bind_Ret, Hinit, outcome_bind_Ret.
  cbv zeta.
  set (image := (new_struct ∅ src).1).
  set (heap := (new_struct ∅ src).2).
  assert (Himage : heap !! image = Some src) by apply lookup_insert_eq.
  unfold working_x, working_y in *.
  destruct (needs_rescale src) eqn:Hneeds.
  - (* a new struct for the rescaled image *)
    unfold needs_rescale in Hneeds. apply negb_true_iff in Hneeds.
    unfold working_image. rewrite Hneeds. unfold allocate_rescale.
    destruct (m_new_image m) as [|u]; [done|].
    destruct (m_new_data m) as [|junk]; [done|].
    rewrite outcome_bind_Ret.
    set (work := Image RESCALE_X RESCALE_Y (Some (cells junk (RESCALE_X * RESCALE_Y)))).
    set (scaled := (new_struct heap work).1).
    assert (Hne : image ≠ scaled).
    { intros Heq. apply (is_fresh (dom heap)).
      change (fresh (dom heap)) with scaled. rewrite <- Heq.
      apply elem_of_dom. by eauto. }
    destruct (main_tail out_file m sc (atoi arg3) cm src work image scaled
                (new_struct heap work).2)
      as (W & g' & out & Hmain & Hres);
      try done;
      try (by apply cells_valid);
      try (by apply sample_defined_intro; [apply cells_valid|..]);
      try (by intros _; apply Hdx);
      try (by apply lookup_insert_eq);
      try (change ((new_struct heap work).2) with (<[scaled := work]> heap);
           by rewrite lookup_insert_ne).
    exists cm, work, W, g', out. split; [done|]. split; [exact Hmain|].
    split; [done|]. split; [done|].
    by rewrite bool_decide_true in Hres.
  - (* the source is the working image *)
    unfold needs_rescale in Hneeds. apply negb_false_iff in Hneeds.
    unfold working_image. rewrite Hneeds, outcome_bind_Ret.
    pose proof (Hsafe eq_refl) as Hdef.
    destruct (main_tail out_file m sc (atoi arg3) cm src src image image heap)
      as (W & g' & out & Hmain & Hres); try done.
    exists cm, src, W, g', out. split; [done|]. split; [exact Hmain|].
    split; [done|]. split; [done|].
    by rewrite bool_decide_false in Hres by (intros Hn; by apply Hn).
Qed.

Lemma init_contour_map_allocated (m_map : malloc_result unit) :
  m_map ≠ Null →
  init_contour_map read_ppm m_map =
    read_contours read_ppm (Z.to_nat CONTOUR_CONFIG_COUNT) 0.
Proof. intros Hm. by destruct m_map. Qed.

(** X24: on an input for which every pixel the sampler reads lies in the
    buffer ([sample_defined]; this is always so for a rescaled image, and
    has to be assumed of a source that is used as it is), with readable
    files and successful allocations, two runs of the program on the same
    input file, with worker counts [atoi arg1] and [atoi arg2] that are at
    least 1 and both divide the extents the stages split ([p], [q], and
    the rows of the rescaled image when the source is rescaled), write the
    same image to the output file, whatever the order of the workers
    inside a stage and whatever the allocated buffers held. *)
Theorem main_thread_count_invariant
    (prog1 prog2 in_file out_file arg1 arg2 : string) (rest1 rest2 : list string)
    (m1 m2 : mallocs) (sc1 sc2 : schedule) (src : ppm_image) :
  readable read_ppm in_file src →
  all_allocated m1 → all_allocated m2 →
  (needs_rescale src = false → sample_defined src) →
  1 ≤ atoi arg1 → 1 ≤ atoi arg2 →
  divides_extents src (atoi arg1) → divides_extents src (atoi arg2) →
  valid_schedule (atoi arg1) sc1 → valid_schedule (atoi arg2) sc2 →
  ∃ out,
    the_main (prog1 :: in_file :: out_file :: arg1 :: rest1) m1 sc1
      = Ret (out_file, out) ∧
    the_main (prog2 :: in_file :: out_file :: arg2 :: rest2) m2 sc2
      = Ret (out_file, out).
Proof.
  intros Hread Hm1 Hm2 Hsafe HN1 HN2 Hd1 Hd2 Hsc1 Hsc2.
  destruct (main_spec prog1 in_file out_file arg1 rest1 m1 sc1 src)
    as (cm1 & work1 & W1 & g1 & out1 & Hcm1 & Hmain1 & Hx1 & Hy1 & Hres1); [done..|].
  destruct (main_spec prog2 in_file out_file arg2 rest2 m2 sc2 src)
    as (cm2 & work2 & W2 & g2 & out2 & Hcm2 & Hmain2 & Hx2 & Hy2 & Hres2); [done..|].
  rewrite init_contour_map_allocated in Hcm1 by apply Hm1.
  rewrite init_contour_map_allocated in Hcm2 by apply Hm2.
  assert (cm2 = cm1) as -> by congruence.
  assert (out2 = out1) as ->.
  { eapply (pipeline_result_unique float float_of_int fdiv sample_bicubic
              src work1 work2); [congruence|congruence|done|done]. }
  by exists out1.
Qed.

End whole_program.

(** *** A run with one worker and a run with two *)

Lemma main_thread_count_invariant_witness :
  ∃ out,
    main unit (λ _, ()) (λ _ _, ()) (λ _ _ _, white) demo_read_ppm demo_atoi
      ["./tema1"; "in.ppm"; "out.ppm"; "1"] demo_mallocs (Schedule [0] [0] [0])
      = Ret ("out.ppm", out) ∧
    main unit (λ _, ()) (λ _ _, ()) (λ _ _ _, white) demo_read_ppm demo_atoi
      ["./tema1"; "in.ppm"; "out.ppm"; "2"] demo_mallocs
      (Schedule [1; 0] [0; 1] [1; 0])
      = Ret ("out.ppm", out).
Proof.
  apply (main_thread_count_invariant unit (λ _, ()) (λ _ _, ()) (λ _ _ _, white)
           demo_read_ppm demo_atoi "./tema1" "./tema1" "in.ppm" "out.ppm" "1" "2"
           [] [] demo_mallocs demo_mallocs
           (Schedule [0] [0] [0]) (Schedule [1; 0] [0; 1] [1; 0])
           (flat_image 16 16 white)).
  - split; [reflexivity|]. split; [apply flat_image_valid; lia|].
    intros k Hk. exists (flat_image 8 8 black). split; [reflexivity|].
    split; [apply flat_image_valid; lia|]. split; reflexivity.
  - repeat split; discriminate.
  - repeat split; discriminate.
  - intros _. apply sample_defined_intro; [apply flat_image_valid; lia|..];
      simpl; unfold STEP; lia.
  - vm_compute. discriminate.
  - vm_compute. discriminate.
  - repeat split; try reflexivity; intros Hn; vm_compute in Hn; discriminate.
  - repeat split; try reflexivity; intros Hn; vm_compute in Hn; discriminate.
  - repeat split; reflexivity.
  - repeat split; simpl; [apply perm_swap|reflexivity|apply perm_swap].
Defined.

(** *** A source with many more rows than columns *)

(** C6: on a white source of 144 rows and 16 columns, which is not
    rescaled and has [p = 18] and [q = 2], the worker counts 1 and 2 both
    divide the extents, yet neither run produces an output image: the
    worker that owns grid row 17 reads, for the last grid column, the pixel
    at offset [17 * STEP * 16 + 144 - 1 = 2319] of a buffer of 2304
    pixels, and the behaviour of the program is undefined.  The column
    index of that read is [image->x - 1] where the row length is
    [image->y]. *)
Theorem main_narrow_image_undefined :
  needs_rescale (flat_image 144 16 white) = false ∧
  divides_extents (flat_image 144 16 white) 1 ∧
  divides_extents (flat_image 144 16 white) 2 ∧
  pixel_at (flat_image 144 16 white) (17 * STEP * 16 + 144 - 1) = None ∧
  main unit (λ _, ()) (λ _ _, ()) (λ _ _ _, white) narrow_read_ppm demo_atoi
    ["./tema1"; "in.ppm"; "out.ppm"; "1"] demo_mallocs (Schedule [0] [0] [0])
    = Undefined ∧
  main unit (λ _, ()) (λ _ _, ()) (λ _ _ _, white) narrow_read_ppm demo_atoi
    ["./tema1"; "in.ppm"; "out.ppm"; "2"] demo_mallocs
    (Schedule [1; 0] [0; 1] [1; 0])
    = Undefined.
Proof.
  split; [reflexivity|].
  split; [by vm_compute|]. split; [by vm_compute|].
  split; [by vm_compute|]. split; by vm_compute.
Qed.


(** * Further properties of the code *)

(** ** Loops that return *)

Lemma iterate_Some_inv {St} (body : Z → St → option St) n lo s s' :
  iterate n lo body s = Some s' →
  ∀ i, lo ≤ i < lo + Z.of_nat n → ∃ si si', body i si = Some si'.
Proof.
  revert lo s. induction n as [|n IH]; intros lo s Hit i Hi; [lia|].
  simpl in Hit. destruct (body lo s) as [s1|] eqn:Hb; [|done]. simpl in Hit.
  destruct (decide (i = lo)) as [->|Hne]; [by eauto|].
  apply (IH (lo + 1) s1 Hit). lia.
Qed.

(** Every iteration of a loop that returns has returned. *)
Lemma for_range_Some_inv {St} (body : Z → St → option St) lo hi s s' :
  for_range lo hi body s = Some s' →
  ∀ i, lo ≤ i < hi → ∃ si si', body i si = Some si'.
Proof.
  unfold for_range. intros Hit i Hi.
  apply (iterate_Some_inv body _ lo s s' Hit). lia.
Qed.

(** ** CLAMP *)

(** X1: with [min <= max] the clamped value lies in [[min, max]], a value
    already in the range is kept, a value below becomes [min], a value
    above becomes [max], and clamping twice is clamping once. *)
Theorem CLAMP_range (v min max : Z) :
  min ≤ max →
  min ≤ CLAMP v min max ≤ max ∧
  (min ≤ v ≤ max → CLAMP v min max = v) ∧
  (v < min → CLAMP v min max = min) ∧
  (max < v → CLAMP v min max = max) ∧
  CLAMP (CLAMP v min max) min max = CLAMP v min max.
Proof.
  intros Hmm. unfold CLAMP.
  repeat case_bool_decide; repeat split; intros; lia.
Qed.

Lemma CLAMP_range_witness :
  0 ≤ CLAMP 300 0 255 ≤ 255 ∧
  (0 ≤ 300 ≤ 255 → CLAMP 300 0 255 = 300) ∧
  (300 < 0 → CLAMP 300 0 255 = 0) ∧
  (255 < 300 → CLAMP 300 0 255 = 255) ∧
  CLAMP (CLAMP 300 0 255) 0 255 = CLAMP 300 0 255.
Proof. apply (CLAMP_range 300 0 255). lia. Defined.

(** ** init_contour_map *)

Section contour_files.
Variable read_ppm : string → outcome ppm_image.

Lemma read_contours_all (c : Z → ppm_image) n i :
  (∀ k, i ≤ k < i + Z.of_nat n → read_ppm (contour_filename k) = Ret (c k)) →
  read_contours read_ppm n i = Ret (c <$> seqZ i (Z.of_nat n)).
Proof.
  revert i. induction n as [|n IH]; intros i Hread; [done|].
  simpl read_contours. rewrite Hread by lia.
  rewrite outcome_bind_Ret, IH by (intros k Hk; apply Hread; lia).
  rewrite outcome_bind_Ret. rewrite (seqZ_cons i) by lia.
  rewrite fmap_cons.
  replace (Z.succ i) with (i + 1) by lia.
  by replace (Z.pred (Z.of_nat (S n))) with (Z.of_nat n) by lia.
Qed.

Lemma read_contours_failure n i k status diagnostic :
  i ≤ k < i + Z.of_nat n →
  (∀ k', i ≤ k' < k → ∃ c, read_ppm (contour_filename k') = Ret c) →
  read_ppm (contour_filename k) = Exit status diagnostic →
  read_contours read_ppm n i = Exit status diagnostic.
Proof.
  revert i. induction n as [|n IH]; intros i Hk Hbefore Hfail; [lia|].
  simpl. destruct (decide (k = i)) as [->|Hne]; [by rewrite Hfail|].
  destruct (Hbefore i) as [c ->]; [lia|]. rewrite outcome_bind_Ret.
  rewrite IH; [done|lia|intros k' Hk'; apply Hbefore; lia|done].
Qed.

(** X2: when the array is allocated and the sixteen files can be read,
    [init_contour_map] returns sixteen images, entry [k] being the image
    read from ["./contours/k.ppm"], for [k] from 0 to 15 in this order. *)
Theorem init_contour_map_entries (m_map : malloc_result unit) (c : Z → ppm_image) :
  m_map ≠ Null →
  (∀ k, 0 ≤ k < CONTOUR_CONFIG_COUNT → read_ppm (contour_filename k) = Ret (c k)) →
  ∃ contour_map,
    init_contour_map read_ppm m_map = Ret contour_map ∧
    Z.of_nat (length contour_map) = CONTOUR_CONFIG_COUNT ∧
    (∀ k, 0 ≤ k < CONTOUR_CONFIG_COUNT → load contour_map k = Some (c k)) ∧
    contour_filename <$> seqZ 0 CONTOUR_CONFIG_COUNT =
      ["./contours/0.ppm"; "./contours/1.ppm"; "./contours/2.ppm";
       "./contours/3.ppm"; "./contours/4.ppm"; "./contours/5.ppm";
       "./contours/6.ppm"; "./contours/7.ppm"; "./contours/8.ppm";
       "./contours/9.ppm"; "./contours/10.ppm"; "./contours/11.ppm";
       "./contours/12.ppm"; "./contours/13.ppm"; "./contours/14.ppm";
       "./contours/15.ppm"].
Proof.
  intros Hmap Hread. unfold CONTOUR_CONFIG_COUNT in *.
  exists (cells c 16). split; [|split; [|split]].
  - unfold init_contour_map. destruct m_map; [done|].
    apply (read_contours_all c 16 0). intros k Hk. apply Hread. lia.
  - by rewrite length_cells.
  - intros k Hk. by rewrite load_cells, decide_True.
  - by vm_compute.
Qed.

(** X3: when the array is allocated, the files before file [k] can be
    read and reading file [k] ends the process, [init_contour_map] ends
    the process with the status and the text of that read. *)
Theorem init_contour_map_read_failure (m_map : malloc_result unit)
    (k status : Z) (diagnostic : string) :
  m_map ≠ Null → 0 ≤ k < CONTOUR_CONFIG_COUNT →
  (∀ k', 0 ≤ k' < k → ∃ c, read_ppm (contour_filename k') = Ret c) →
  read_ppm (contour_filename k) = Exit status diagnostic →
  init_contour_map read_ppm m_map = Exit status diagnostic.
Proof.
  intros Hmap Hk Hbefore Hfail. unfold init_contour_map.
  destruct m_map; [done|].
  apply (read_contours_failure _ 0 k); [|done..].
  unfold CONTOUR_CONFIG_COUNT in *. lia.
Qed.

End contour_files.

Lemma init_contour_map_entries_witness :
  ∃ contour_map,
    init_contour_map demo_read_ppm (Block (λ _, ())) = Ret contour_map ∧
    Z.of_nat (length contour_map) = CONTOUR_CONFIG_COUNT ∧
    (∀ k, 0 ≤ k < CONTOUR_CONFIG_COUNT →
          load contour_map k = Some (flat_image 8 8 black)) ∧
    contour_filename <$> seqZ 0 CONTOUR_CONFIG_COUNT =
      ["./contours/0.ppm"; "./contours/1.ppm"; "./contours/2.ppm";
       "./contours/3.ppm"; "./contours/4.ppm"; "./contours/5.ppm";
       "./contours/6.ppm"; "./contours/7.ppm"; "./contours/8.ppm";
       "./contours/9.ppm"; "./contours/10.ppm"; "./contours/11.ppm";
       "./contours/12.ppm"; "./contours/13.ppm"; "./contours/14.ppm";
       "./contours/15.ppm"].
Proof.
  apply (init_contour_map_entries demo_read_ppm (Block (λ _, ()))
           (λ _, flat_image 8 8 black)).
  - discriminate.
  - intros k Hk. reflexivity.
Defined.

Lemma init_contour_map_read_failure_witness :
  init_contour_map missing_contour_read_ppm (Block (λ _, ()))
    = Exit 1 "Unable to open file".
Proof.
  apply (init_contour_map_read_failure missing_contour_read_ppm (Block (λ _, ())) 3).
  - discriminate.
  - unfold CONTOUR_CONFIG_COUNT. lia.
  - intros k' Hk'. exists (flat_image 8 8 black).
    assert (k' = 0 ∨ k' = 1 ∨ k' = 2) as [-> | [-> | ->]] by lia; reflexivity.
  - reflexivity.
Defined.

(** ** update_image on a contour image of any size *)

Section contour_rectangle.
Variables (img tile : ppm_image) (x0 y0 : Z).
Hypothesis Hvalid : valid_image img.
Hypothesis Htile : valid_image tile.
Hypothesis Hshape : x tile ≤ y tile.
Hypothesis Hx0 : 0 ≤ x0 ∧ x0 + x tile ≤ x img.
Hypothesis Hy0 : 0 ≤ y0 ∧ y0 + y tile ≤ y img.

Lemma rectangle_contour_pixel i j :
  0 ≤ i < x tile → 0 ≤ j < y tile → is_Some (pixel_at tile (x tile * i + j)).
Proof using Htile Hshape.
  intros Hi Hj. apply pixel_at_is_Some; [done|]. nia.
Qed.

Lemma update_image_rectangle_row im i :
  same_shape img im → 0 ≤ i < x tile →
  ∃ im', for_range 0 (y tile) (λ j image,
           px ← pixel_at tile (x tile * i + j);
           set_pixel image ((x0 + i) * y image + y0 + j) px) im = Some im' ∧
         same_shape img im' ∧
         ∀ r c, pixel_rc im' r c =
                if decide (r = x0 + i ∧ y0 ≤ c < y0 + y tile)
                then pixel_at tile (x tile * (r - x0) + (c - y0))
                else pixel_rc im r c.
Proof using Hvalid Htile Hshape Hx0 Hy0.
  intros Hsh Hi. pose proof Htile as (d & _ & Htx & Hty & _).
  pose (I := λ (j : Z) (im' : ppm_image),
    same_shape img im' ∧
    ∀ r c, pixel_rc im' r c =
           if decide (r = x0 + i ∧ y0 ≤ c < y0 + j)
           then pixel_at tile (x tile * (r - x0) + (c - y0))
           else pixel_rc im r c).
  apply (for_range_total I); subst I; simpl; [lia| |].
  - split; [done|]. intros r c. case_decide; [lia|done].
  - intros j im1 Hj [Hsh1 Hpx1].
    destruct (rectangle_contour_pixel i j) as [px Hpx]; [done..|].
    rewrite Hpx. simpl.
    pose proof Hsh1 as (Hx1 & Hy1 & Hv1).
    destruct (set_pixel_rc im1 (x0 + i) (y0 + j) px) as (im2 & Hset & Hsh2 & Hpx2);
      [done|lia|lia|].
    exists im2. rewrite <- Z.add_assoc. split; [done|].
    split; [by eapply same_shape_trans|].
    intros r c. rewrite Hpx2, Hpx1.
    repeat case_decide; try done; try lia.
    match goal with H : r = _ ∧ c = _ |- _ => destruct H as [-> ->] end.
    rewrite <- Hpx. f_equal. lia.
Qed.

Lemma update_image_rectangle_spec :
  ∃ img', update_image img tile x0 y0 = Some img' ∧
          same_shape img img' ∧
          ∀ r c, pixel_rc img' r c =
                 if decide (x0 ≤ r < x0 + x tile ∧ y0 ≤ c < y0 + y tile)
                 then pixel_at tile (x tile * (r - x0) + (c - y0))
                 else pixel_rc img r c.
Proof using Hvalid Htile Hshape Hx0 Hy0.
  pose proof Htile as (d & _ & Htx & Hty & _).
  pose (I := λ (i : Z) (im' : ppm_image),
    same_shape img im' ∧
    ∀ r c, pixel_rc im' r c =
           if decide (x0 ≤ r < x0 + i ∧ y0 ≤ c < y0 + y tile)
           then pixel_at tile (x tile * (r - x0) + (c - y0))
           else pixel_rc img r c).
  unfold update_image.
  apply (for_range_total I); subst I; simpl; [lia| |].
  - split; [by apply same_shape_refl|]. intros r c. case_decide; [lia|done].
  - intros i im1 Hi [Hsh1 Hpx1].
    destruct (update_image_rectangle_row im1 i) as (im2 & Hrow & Hsh2 & Hpx2);
      [done..|].
    exists im2. split; [done|]. split; [done|].
    intros r c. rewrite Hpx2, Hpx1.
    repeat case_decide; try done; lia.
Qed.

End contour_rectangle.

(** X4: for a contour image with at most as many rows as columns, placed
    inside the image, [update_image] returns an image of the same
    dimensions in which the pixel at row [x0 + i] and column [y0 + j] is
    [contour->data[contour->x * i + j]] for every [i < contour->x] and
    [j < contour->y], and every pixel outside that rectangle is the one of
    the image before the call. *)
Theorem update_image_rectangle (img tile : ppm_image) (x0 y0 : Z) :
  valid_image img → valid_image tile → x tile ≤ y tile →
  0 ≤ x0 ∧ x0 + x tile ≤ x img → 0 ≤ y0 ∧ y0 + y tile ≤ y img →
  ∃ img', update_image img tile x0 y0 = Some img' ∧
    x img' = x img ∧ y img' = y img ∧ valid_image img' ∧
    (∀ i j, 0 ≤ i < x tile → 0 ≤ j < y tile →
       ∃ px, pixel_at tile (x tile * i + j) = Some px ∧
             pixel_at img' ((x0 + i) * y img + (y0 + j)) = Some px) ∧
    (∀ r c, ¬ (x0 ≤ r < x0 + x tile ∧ y0 ≤ c < y0 + y tile) →
            pixel_rc img' r c = pixel_rc img r c).
Proof.
  intros Hvalid Htile Hshape Hx0 Hy0.
  destruct (update_image_rectangle_spec img tile x0 y0 Hvalid Htile Hshape Hx0 Hy0)
    as (img' & Hupd & (Hx' & Hy' & Hv') & Hpx).
  exists img'. repeat (split; [done|]). split.
  - intros i j Hi Hj.
    destruct (rectangle_contour_pixel tile Htile Hshape i j Hi Hj) as [px Hpx'].
    exists px. split; [done|].
    specialize (Hpx (x0 + i) (y0 + j)). unfold pixel_rc in Hpx.
    rewrite Hy' in Hpx. rewrite decide_True in Hpx by lia.
    rewrite decide_True in Hpx by lia. rewrite Hpx, <- Hpx'. f_equal. lia.
  - intros r c Hout. by rewrite Hpx, decide_False.
Qed.

(** A contour image of 2 rows and 3 columns stamped at the origin of a
    white image of 8 by 8 pixels. *)
Lemma update_image_rectangle_witness :
  ∃ img', update_image (flat_image 8 8 white) (flat_image 2 3 black) 0 0 = Some img' ∧
    x img' = 8 ∧ y img' = 8 ∧ valid_image img' ∧
    (∀ i j, 0 ≤ i < 2 → 0 ≤ j < 3 →
       ∃ px, pixel_at (flat_image 2 3 black) (2 * i + j) = Some px ∧
             pixel_at img' ((0 + i) * 8 + (0 + j)) = Some px) ∧
    (∀ r c, ¬ (0 ≤ r < 0 + 2 ∧ 0 ≤ c < 0 + 3) →
            pixel_rc img' r c = pixel_rc (flat_image 8 8 white) r c).
Proof.
  apply (update_image_rectangle (flat_image 8 8 white) (flat_image 2 3 black) 0 0).
  - apply flat_image_valid; lia.
  - apply flat_image_valid; lia.
  - simpl. lia.
  - simpl. lia.
  - simpl. lia.
Defined.

(** X5: for a contour image with more rows than columns (and at least one
    column) the index [contour->x * i + j] leaves the buffer of the contour
    image before the loops end: the call is undefined, whatever the image
    and the position are. *)
Theorem update_image_tall_contour (img tile : ppm_image) (x0 y0 : Z) :
  valid_image tile → 1 ≤ y tile → y tile < x tile →
  update_image img tile x0 y0 = None.
Proof.
  intros Htile Hy Hxy.
  destruct (update_image img tile x0 y0) as [img'|] eqn:Hupd; [exfalso|done].
  unfold update_image in Hupd.
  destruct (for_range_Some_inv _ _ _ _ _ Hupd (x tile - 1)) as (im1 & im2 & Hrow);
    [lia|].
  destruct (for_range_Some_inv _ _ _ _ _ Hrow (y tile - 1)) as (im3 & im4 & Hbody);
    [lia|].
  simpl in Hbody.
  destruct (pixel_at tile (x tile * (x tile - 1) + (y tile - 1))) as [px|] eqn:Hpx;
    [|done].
  assert (Hin : is_Some (pixel_at tile (x tile * (x tile - 1) + (y tile - 1))))
    by eauto.
  apply pixel_at_is_Some in Hin; [|done]. nia.
Qed.

Lemma update_image_tall_contour_witness :
  update_image (flat_image 8 8 white) (flat_image 3 2 black) 0 0 = None.
Proof.
  apply (update_image_tall_contour (flat_image 8 8 white) (flat_image 3 2 black) 0 0).
  - apply flat_image_valid; lia.
  - simpl. lia.
  - simpl. lia.
Defined.

(** ** sample_grid: the last row, the last column, the other cells *)

(** X6: a call of [sample_grid] that returns has stored 0 in the corner
    cell [(p, q)] and, for every column [j] of the worker's column range,
    the threshold of the pixel in the last pixel row [x - 1] and column
    [j * STEP] in cell [(p, j)]; it returns whenever the pixels it reads
    lie in the buffer. *)
Theorem sample_grid_last_row (img : ppm_image) (g : grid_t) (t N : Z) :
  valid_image img → grid_dims g (x img ÷ STEP) (y img ÷ STEP) →
  1 ≤ N → 0 ≤ t < N →
  (∀ g', sample_grid img g t N = Some g' →
     grid_get g' (x img ÷ STEP) (y img ÷ STEP) = Some 0 ∧
     ∀ j, assigned t (y img ÷ STEP) N j →
       ∃ px, pixel_rc img (x img - 1) (j * STEP) = Some px ∧
             grid_get g' (x img ÷ STEP) j = Some (threshold px)) ∧
  (sample_defined img → ∃ g', sample_grid img g t N = Some g').
Proof.
  intros Hvalid Hdims HN Ht.
  pose proof (pq_bounds img Hvalid) as Hpq. simpl in Hpq.
  pose proof (part_bounds t (y img ÷ STEP) N ltac:(lia) HN Ht) as Hpart.
  split; [|intros Hdef; by apply sample_grid_total].
  intros g' Hs.
  destruct (sample_grid_spec img Hvalid g g' t N) as [Hd' Hget]; [done..|].
  split.
  - rewrite Hget, decide_True by (right; right; done).
    unfold sample_value. by rewrite !decide_False by lia.
  - intros j Hj. assert (Hjq : 0 ≤ j < y img ÷ STEP) by (unfold assigned in Hj; lia).
    destruct (proj2 (Hd' (x img ÷ STEP) j)) as [v Hv]; [lia|].
    rewrite Hget, decide_True in Hv by (right; left; done).
    unfold sample_value in Hv.
    rewrite decide_False, decide_False, decide_True in Hv by lia.
    apply fmap_Some in Hv as (px & Hpx & ->).
    exists px. split.
    + unfold pixel_rc. rewrite decide_True by (unfold STEP; lia). done.
    + rewrite Hget, decide_True by (right; left; done).
      unfold sample_value.
      rewrite decide_False, decide_False, decide_True by lia.
      by rewrite Hpx.
Qed.

Lemma sample_grid_last_row_witness :
  (∀ g', sample_grid (flat_image 8 8 white) [[7; 7]; [7; 7]] 0 1 = Some g' →
     grid_get g' (8 ÷ STEP) (8 ÷ STEP) = Some 0 ∧
     ∀ j, assigned 0 (8 ÷ STEP) 1 j →
       ∃ px, pixel_rc (flat_image 8 8 white) (8 - 1) (j * STEP) = Some px ∧
             grid_get g' (8 ÷ STEP) j = Some (threshold px)) ∧
  (sample_defined (flat_image 8 8 white) →
     ∃ g', sample_grid (flat_image 8 8 white) [[7; 7]; [7; 7]] 0 1 = Some g').
Proof.
  apply (sample_grid_last_row (flat_image 8 8 white) [[7; 7]; [7; 7]] 0 1).
  - apply flat_image_valid; lia.
  - apply grid_dims_intro; [done|done|done|]. by repeat constructor.
  - lia.
  - lia.
Defined.

(** X7: for a row [i] of the worker, a call of [sample_grid] that returns
    has stored in cell [(i, q)] the threshold of the pixel at offset
    [i * STEP * y + x - 1], that is the pixel in row
    [i * STEP + (x - 1) / y] and column [(x - 1) mod y]; on an image with
    [x = y] this is the last pixel of row [i * STEP]. *)
Theorem sample_grid_last_column (img : ppm_image) (g g' : grid_t) (t N i : Z) :
  valid_image img → grid_dims g (x img ÷ STEP) (y img ÷ STEP) →
  1 ≤ N → 0 ≤ t < N → assigned t (x img ÷ STEP) N i →
  sample_grid img g t N = Some g' →
  ∃ px, pixel_at img (i * STEP * y img + x img - 1) = Some px ∧
        grid_get g' i (y img ÷ STEP) = Some (threshold px) ∧
        pixel_rc img (i * STEP + (x img - 1) `div` y img) ((x img - 1) `mod` y img)
          = Some px ∧
        (x img = y img → pixel_rc img (i * STEP) (y img - 1) = Some px).
Proof.
  intros Hvalid Hdims HN Ht Hi Hs.
  pose proof (pq_bounds img Hvalid) as Hpq. simpl in Hpq.
  pose proof (part_bounds t (x img ÷ STEP) N ltac:(lia) HN Ht) as Hpart.
  assert (Hip : 0 ≤ i < x img ÷ STEP) by (unfold assigned in Hi; lia).
  destruct (sample_grid_spec img Hvalid g g' t N) as [Hd' Hget]; [done..|].
  destruct (proj2 (Hd' i (y img ÷ STEP))) as [v Hv]; [lia|].
  pose proof Hv as Hv'.
  rewrite Hget, decide_True in Hv by (left; split; [done|lia]).
  unfold sample_value in Hv. rewrite decide_False, decide_True in Hv by lia.
  apply fmap_Some in Hv as (px & Hpx & ->).
  exists px. split; [done|]. split; [done|].
  assert (Hin : is_Some (pixel_at img (i * STEP * y img + x img - 1))) by eauto.
  apply pixel_at_is_Some in Hin; [|done].
  assert (Hy : 0 < y img) by nia.
  pose proof (Z.mod_pos_bound (x img - 1) (y img) Hy) as Hmod.
  pose proof (Z.div_mod (x img - 1) (y img) ltac:(lia)) as Hdm.
  split.
  - unfold pixel_rc. rewrite decide_True by done. rewrite <- Hpx. f_equal. lia.
  - intros Hsq. unfold pixel_rc. rewrite decide_True by lia.
    rewrite <- Hpx. f_equal. lia.
Qed.

Lemma sample_grid_last_column_witness :
  ∃ px, pixel_at (flat_image 8 8 white) (0 * STEP * 8 + 8 - 1) = Some px ∧
        grid_get [[0; 0]; [0; 0]] 0 (8 ÷ STEP) = Some (threshold px) ∧
        pixel_rc (flat_image 8 8 white) (0 * STEP + (8 - 1) `div` 8) ((8 - 1) `mod` 8)
          = Some px ∧
        (8 = 8 → pixel_rc (flat_image 8 8 white) (0 * STEP) (8 - 1) = Some px).
Proof.
  apply (sample_grid_last_column (flat_image 8 8 white) [[7; 7]; [7; 7]]
           [[0; 0]; [0; 0]] 0 1 0).
  - apply flat_image_valid; lia.
  - apply grid_dims_intro; [done|done|done|]. by repeat constructor.
  - lia.
  - lia.
  - vm_compute. split; [discriminate|reflexivity].
  - by vm_compute.
Defined.

(** X8: a call of [sample_grid] that returns has kept the dimensions of
    the grid, has left every cell outside the worker's rows, the worker's
    part of the last row and the corner as it was, and has given the cells
    it wrote values that do not depend on what the grid held. *)
Theorem sample_grid_frame (img : ppm_image) (g g' : grid_t) (t N : Z) :
  valid_image img → grid_dims g (x img ÷ STEP) (y img ÷ STEP) →
  1 ≤ N → 0 ≤ t < N →
  sample_grid img g t N = Some g' →
  grid_dims g' (x img ÷ STEP) (y img ÷ STEP) ∧
  (∀ a b, ¬ sample_writes img t N a b → grid_get g' a b = grid_get g a b) ∧
  (∀ g2 g2', grid_dims g2 (x img ÷ STEP) (y img ÷ STEP) →
     sample_grid img g2 t N = Some g2' →
     ∀ a b, sample_writes img t N a b → grid_get g2' a b = grid_get g' a b).
Proof.
  intros Hvalid Hdims HN Ht Hs.
  destruct (sample_grid_spec img Hvalid g g' t N) as [Hd' Hget]; [done..|].
  split; [done|]. split.
  - intros a b Hout. by rewrite Hget, decide_False.
  - intros g2 g2' Hdims2 Hs2 a b Hin.
    destruct (sample_grid_spec img Hvalid g2 g2' t N) as [_ Hget2]; [done..|].
    by rewrite Hget, Hget2, !decide_True.
Qed.

Lemma sample_grid_frame_witness :
  grid_dims [[0; 0]; [0; 0]] (8 ÷ STEP) (8 ÷ STEP) ∧
  (∀ a b, ¬ sample_writes (flat_image 8 8 white) 0 1 a b →
          grid_get [[0; 0]; [0; 0]] a b = grid_get [[7; 7]; [7; 7]] a b) ∧
  (∀ g2 g2', grid_dims g2 (8 ÷ STEP) (8 ÷ STEP) →
     sample_grid (flat_image 8 8 white) g2 0 1 = Some g2' →
     ∀ a b, sample_writes (flat_image 8 8 white) 0 1 a b →
            grid_get g2' a b = grid_get [[0; 0]; [0; 0]] a b).
Proof.
  apply (sample_grid_frame (flat_image 8 8 white) [[7; 7]; [7; 7]]
           [[0; 0]; [0; 0]] 0 1).
  - apply flat_image_valid; lia.
  - apply grid_dims_intro; [done|done|done|]. by repeat constructor.
  - lia.
  - lia.
  - by vm_compute.
Defined.

(** X9: when some row [i] of the worker has
    [i * STEP * y + x - 1 >= x * y], the read for cell [(i, q)] is past
    the end of the pixel buffer and the call is undefined.  This happens
    on images with many more rows than columns. *)
Theorem sample_grid_reads_past_buffer (img : ppm_image) (g : grid_t) (t N i : Z) :
  valid_image img → assigned t (x img ÷ STEP) N i →
  x img * y img ≤ i * STEP * y img + x img - 1 →
  sample_grid img g t N = None.
Proof.
  intros Hvalid Hi Hoob.
  destruct (sample_grid img g t N) as [g'|] eqn:Hs; [exfalso|done].
  unfold sample_grid in Hs.
  destruct (sample_interior img t N g) as [g1|]; [|done]. simpl in Hs.
  destruct (grid_set g1 _ _ 0) as [g2|]; [|done]. simpl in Hs.
  destruct (sample_last_column img t N g2) as [g3|] eqn:Hcol; [|done].
  unfold sample_last_column in Hcol.
  destruct (for_range_Some_inv _ _ _ _ _ Hcol i Hi) as (s1 & s2 & Hbody).
  simpl in Hbody.
  destruct (pixel_at img (i * STEP * y img + x img - 1)) as [px|] eqn:Hpx; [|done].
  assert (Hin : is_Some (pixel_at img (i * STEP * y img + x img - 1))) by eauto.
  apply pixel_at_is_Some in Hin; [|done]. lia.
Qed.

(** An image of 72 rows and 8 columns: the read for row [8 * STEP] is at
    offset 583 of 576. *)
Lemma sample_grid_reads_past_buffer_witness :
  sample_grid (flat_image 72 8 white) (replicate 10 [0; 0]) 0 1 = None.
Proof.
  apply (sample_grid_reads_past_buffer (flat_image 72 8 white)
           (replicate 10 [0; 0]) 0 1 8).
  - apply flat_image_valid; lia.
  - vm_compute. split; [discriminate|reflexivity].
  - vm_compute. discriminate.
Defined.

(** ** The sampling stage of all workers *)

Lemma sample_stage_frame img image scaled N sched :
  valid_image img → 1 ≤ N → (∀ t, t ∈ sched → 0 ≤ t < N) →
  ∀ s s',
    structs s !! scaled = Some img →
    grid_dims (grid s) (x img ÷ STEP) (y img ÷ STEP) →
    run_stage apeleaza_sample (λ t, Worker t image scaled N) sched s = Some s' →
    ∀ a b, (∀ t, t ∈ sched → ¬ sample_writes img t N a b) →
           grid_get (grid s') a b = grid_get (grid s) a b.
Proof.
  intros Hvalid HN. induction sched as [|t sched IH];
    intros Hsched s s' Himg Hdims Hrun a b Hout.
  - simpl in Hrun. by injection Hrun as <-.
  - simpl in Hrun.
    destruct (apeleaza_sample (Worker t image scaled N) s) as [s1|] eqn:Hstep;
      [|done]. simpl in Hrun.
    unfold apeleaza_sample in Hstep. simpl in Hstep. rewrite Himg in Hstep.
    simpl in Hstep.
    destruct (sample_grid img (grid s) t N) as [g1|] eqn:Hg1; [|done].
    injection Hstep as <-.
    destruct (sample_grid_spec img Hvalid (grid s) g1 t N) as [Hd1 Hget1];
      [done|done|apply Hsched; by left|done|].
    rewrite (IH (λ t' Ht', Hsched t' (list_elem_of_further _ _ _ Ht'))
               (Shared (structs s) g1) s' Himg Hd1 Hrun a b).
    + simpl. rewrite Hget1, decide_False; [done|]. apply Hout. by left.
    + intros t' Ht'. apply Hout. by right.
Qed.

(** X10: on an image whose buffer holds [x * y] pixels, when [N >= 1]
    divides [p] and [q] and every pixel the sampler reads lies in the
    buffer ([sample_defined]), the sampling stage, with the workers in any order, on a grid of [p + 1] rows of
    [q + 1] cells, returns and leaves a grid whose every cell [(a, b)],
    [a <= p], [b <= q], holds the sampled value of that cell, whatever the
    grid held before; every cell is then 0 or 1, and the image structs are
    untouched. *)
Theorem sample_stage_fills_grid (img : ppm_image) (g : grid_t)
    (heap : gmap positive ppm_image) (image scaled : positive)
    (N : Z) (sched : list Z) :
  valid_image img → sample_defined img →
  grid_dims g (x img ÷ STEP) (y img ÷ STEP) →
  heap !! scaled = Some img →
  1 ≤ N → sched ≡ₚ seqZ 0 N →
  (x img ÷ STEP) `mod` N = 0 → (y img ÷ STEP) `mod` N = 0 →
  ∃ s', run_stage apeleaza_sample (λ t, Worker t image scaled N) sched
          (Shared heap g) = Some s' ∧
        structs s' = heap ∧
        grid_dims (grid s') (x img ÷ STEP) (y img ÷ STEP) ∧
        (∀ a b, 0 ≤ a ≤ x img ÷ STEP → 0 ≤ b ≤ y img ÷ STEP →
                grid_get (grid s') a b = sample_value img a b) ∧
        binary_grid (grid s').
Proof.
  intros Hvalid Hdef Hdims Himg HN Hperm Hp Hq.
  destruct (sample_stage_spec img image scaled N sched) with (s := Shared heap g)
    as (s' & Hrun & Hst & Hd' & Hget);
    [done|done|done|by intros t Ht%(sched_elem N)|done|done|].
  exists s'. split; [done|]. split; [done|]. split; [done|].
  assert (Hall : ∀ a b, 0 ≤ a ≤ x img ÷ STEP → 0 ≤ b ≤ y img ÷ STEP →
                        grid_get (grid s') a b = sample_value img a b).
  { intros a b Ha Hb. apply Hget. right. by apply sample_writes_cover. }
  split; [done|].
  intros a b v Hv. assert (Hin : is_Some (grid_get (grid s') a b)) by eauto.
  apply Hd' in Hin. rewrite Hall in Hv by tauto. by eapply sample_value_binary.
Qed.

Lemma sample_stage_fills_grid_witness :
  ∃ s', run_stage apeleaza_sample (λ t, Worker t 1%positive 1%positive 2) [1; 0]
          (Shared {[ 1%positive := flat_image 16 16 white ]}
                  [[7; 7; 7]; [7; 7; 7]; [7; 7; 7]]) = Some s' ∧
        structs s' = {[ 1%positive := flat_image 16 16 white ]} ∧
        grid_dims (grid s') (16 ÷ STEP) (16 ÷ STEP) ∧
        (∀ a b, 0 ≤ a ≤ 16 ÷ STEP → 0 ≤ b ≤ 16 ÷ STEP →
                grid_get (grid s') a b = sample_value (flat_image 16 16 white) a b) ∧
        binary_grid (grid s').
Proof.
  apply (sample_stage_fills_grid (flat_image 16 16 white)
           [[7; 7; 7]; [7; 7; 7]; [7; 7; 7]]
           {[ 1%positive := flat_image 16 16 white ]} 1%positive 1%positive 2 [1; 0]).
  - apply flat_image_valid; lia.
  - apply sample_defined_intro; [apply flat_image_valid; lia|..]; simpl;
      unfold STEP; lia.
  - apply grid_dims_intro; [done|done|done|]. by repeat constructor.
  - reflexivity.
  - lia.
  - apply perm_swap.
  - reflexivity.
  - reflexivity.
Defined.

(** X11: for any worker count [N >= 1] and any order of the workers, a
    sampling stage that returns, on an image whose buffer holds [x * y]
    pixels and a grid of [p + 1] rows of [q + 1] cells, has written no cell
    of the grid rows from [N * (p / N)] to [p - 1] and no cell of the last
    row in the columns from [N * (q / N)] to [q - 1]: after the stage
    these cells hold what they held before it. *)
Theorem sample_stage_stale_cells (img : ppm_image) (g : grid_t)
    (heap : gmap positive ppm_image) (image scaled : positive)
    (N : Z) (sched : list Z) (s' : shared) :
  valid_image img →
  grid_dims g (x img ÷ STEP) (y img ÷ STEP) →
  heap !! scaled = Some img →
  1 ≤ N → sched ≡ₚ seqZ 0 N →
  run_stage apeleaza_sample (λ t, Worker t image scaled N) sched (Shared heap g)
    = Some s' →
  (∀ a b, N * (x img ÷ STEP ÷ N) ≤ a < x img ÷ STEP →
          grid_get (grid s') a b = grid_get g a b) ∧
  (∀ b, N * (y img ÷ STEP ÷ N) ≤ b < y img ÷ STEP →
        grid_get (grid s') (x img ÷ STEP) b = grid_get g (x img ÷ STEP) b).
Proof.
  intros Hvalid Hdims Himg HN Hperm Hrun.
  pose proof (pq_bounds img Hvalid) as Hpq. simpl in Hpq.
  assert (Hsched : ∀ t, t ∈ sched → 0 ≤ t < N) by (by intros t Ht%(sched_elem N)).
  pose proof (sample_stage_frame img image scaled N sched Hvalid HN Hsched
                (Shared heap g) s' Himg Hdims Hrun) as Hframe. simpl in Hframe.
  split.
  - intros a b Ha. apply Hframe. intros t Ht%Hsched.
    intros [[Hin _] | [[Heq _] | [Heq _]]]; [|lia..].
    by apply (unowned_not_assigned t (x img ÷ STEP) N a); try lia.
  - intros b Hb. apply Hframe. intros t Ht%Hsched.
    pose proof (part_bounds t (x img ÷ STEP) N ltac:(lia) HN Ht) as Hpart.
    intros [[Hin _] | [[_ Hin] | [_ Heq]]]; [|  |lia].
    + unfold assigned in Hin. lia.
    + by apply (unowned_not_assigned t (y img ÷ STEP) N b); try lia.
Qed.

(** Two workers on an image of 72 rows and 8 columns ([p = 9], [q = 1]):
    the stage returns, grid row 8 and cell [(9, 0)] are stale. *)
Lemma sample_stage_stale_cells_witness :
  run_stage apeleaza_sample (λ t, Worker t 1%positive 1%positive 2) [1; 0]
    (Shared {[ 1%positive := flat_image 72 8 white ]} (replicate 10 [7; 7]))
    = Some (Shared {[ 1%positive := flat_image 72 8 white ]}
                   (replicate 8 [0; 0] ++ [[7; 7]; [7; 0]])) ∧
  (∀ a b, 2 * (72 ÷ STEP ÷ 2) ≤ a < 72 ÷ STEP →
          grid_get (replicate 8 [0; 0] ++ [[7; 7]; [7; 0]]) a b
            = grid_get (replicate 10 [7; 7]) a b) ∧
  (∀ b, 2 * (8 ÷ STEP ÷ 2) ≤ b < 8 ÷ STEP →
        grid_get (replicate 8 [0; 0] ++ [[7; 7]; [7; 0]]) (72 ÷ STEP) b
          = grid_get (replicate 10 [7; 7]) (72 ÷ STEP) b).
Proof.
  split; [by vm_compute|].
  apply (sample_stage_stale_cells (flat_image 72 8 white) (replicate 10 [7; 7])
           {[ 1%positive := flat_image 72 8 white ]} 1%positive 1%positive 2
           [1; 0]
           (Shared {[ 1%positive := flat_image 72 8 white ]}
                   (replicate 8 [0; 0] ++ [[7; 7]; [7; 0]]))).
  - apply flat_image_valid; lia.
  - apply grid_dims_intro; [done|done|done|]. by repeat constructor.
  - reflexivity.
  - lia.
  - apply perm_swap.
  - by vm_compute.
Defined.

(** X12: on an image whose buffer holds [x * y] pixels, all of them at
    or below the threshold, and on which every pixel the sampler reads lies in the buffer
    ([sample_defined]), with [N >= 1] dividing [p] and [q], the sampling
    stage returns and the grid after it gives configuration index 15 to
    every cell except the last cell [(p - 1, q - 1)], which gets 13: its
    bottom-right corner is the grid corner [(p, q)], which [sample_grid]
    sets to 0 without looking at the image. *)
Theorem dark_image_configuration (img : ppm_image) (g : grid_t)
    (heap : gmap positive ppm_image) (image scaled : positive)
    (N : Z) (sched : list Z) :
  valid_image img → sample_defined img →
  (∀ k px, pixel_at img k = Some px → threshold px = 1) →
  grid_dims g (x img ÷ STEP) (y img ÷ STEP) →
  heap !! scaled = Some img →
  1 ≤ N → sched ≡ₚ seqZ 0 N →
  (x img ÷ STEP) `mod` N = 0 → (y img ÷ STEP) `mod` N = 0 →
  ∃ s', run_stage apeleaza_sample (λ t, Worker t image scaled N) sched
          (Shared heap g) = Some s' ∧
        ∀ i j, 0 ≤ i < x img ÷ STEP → 0 ≤ j < y img ÷ STEP →
          config_index (grid s') i j =
            Some (if decide (i = x img ÷ STEP - 1 ∧ j = y img ÷ STEP - 1)
                  then 13 else 15).
Proof.
  intros Hvalid Hdef Hdark Hdims Himg HN Hperm Hp Hq.
  destruct (sample_stage_spec img image scaled N sched) with (s := Shared heap g)
    as (s' & Hrun & Hst & Hd' & Hget);
    [done|done|done|by intros t Ht%(sched_elem N)|done|done|].
  exists s'. split; [done|].
  assert (Hcell : ∀ a b, 0 ≤ a ≤ x img ÷ STEP → 0 ≤ b ≤ y img ÷ STEP →
            grid_get (grid s') a b =
              Some (if decide (a = x img ÷ STEP ∧ b = y img ÷ STEP) then 0 else 1)).
  { intros a b Ha Hb.
    rewrite Hget by (right; by apply sample_writes_cover).
    destruct (Hdef a b Ha Hb) as [v Hv]. rewrite Hv. f_equal.
    unfold sample_value in Hv.
    repeat case_decide; try lia;
      try (apply fmap_Some in Hv as (px & Hpx & ->); by eapply Hdark).
    by injection Hv as <-. }
  intros i j Hi Hj. unfold config_index.
  rewrite !Hcell by lia. simpl.
  repeat case_decide; try lia; done.
Qed.

Lemma dark_image_configuration_witness :
  ∃ s', run_stage apeleaza_sample (λ t, Worker t 1%positive 1%positive 2) [1; 0]
          (Shared {[ 1%positive := flat_image 16 16 black ]}
                  [[7; 7; 7]; [7; 7; 7]; [7; 7; 7]]) = Some s' ∧
        ∀ i j, 0 ≤ i < 16 ÷ STEP → 0 ≤ j < 16 ÷ STEP →
          config_index (grid s') i j =
            Some (if decide (i = 16 ÷ STEP - 1 ∧ j = 16 ÷ STEP - 1) then 13 else 15).
Proof.
  apply (dark_image_configuration (flat_image 16 16 black)
           [[7; 7; 7]; [7; 7; 7]; [7; 7; 7]]
           {[ 1%positive := flat_image 16 16 black ]} 1%positive 1%positive 2 [1; 0]).
  - apply flat_image_valid; lia.
  - apply sample_defined_intro; [apply flat_image_valid; lia|..]; simpl;
      unfold STEP; lia.
  - intros k px ->%flat_image_pixel. reflexivity.
  - apply grid_dims_intro; [done|done|done|]. by repeat constructor.
  - reflexivity.
  - lia.
  - apply perm_swap.
  - reflexivity.
  - reflexivity.
Defined.

(** ** rescale_image and the rescaling stage *)

Section rescale.
Variable float : Type.
Variable float_of_int : Z → float.
Variable fdiv : float → float → float.
Variable sample_bicubic : ppm_image → float → float → ppm_pixel.

Local Abbreviation rescale := (rescale_image float float_of_int fdiv sample_bicubic).
Local Abbreviation rescaled := (rescaled_pixel float float_of_int fdiv sample_bicubic).
Local Abbreviation rescale_step :=
  (apeleaza_rescale float float_of_int fdiv sample_bicubic).

(** X13: for [N >= 1], a new image whose buffer holds [x * y] pixels and
    every thread id [t >= 0], also one that is not below [N], for which [t + 1], the product [(t + 1) * (x / N)] and the number of
    pixels [x * y] of the new image do not exceed [INT_MAX] (so that the
    [int] arithmetic of the function does not overflow), [rescale_image]
    returns: it writes the rows from [t * (x / N)] up to
    [(t + 1) * (x / N)] that are below [x], each pixel being what
    [sample_bicubic] gives for the source at [(i / (x - 1), j / (y - 1))],
    and leaves every other pixel and the dimensions of the new image as
    they were. *)
Theorem rescale_image_rows (src dst : ppm_image) (t N : Z) :
  valid_image dst → 1 ≤ N → 0 ≤ t →
  t + 1 ≤ INT_MAX → (t + 1) * (x dst ÷ N) ≤ INT_MAX → x dst * y dst ≤ INT_MAX →
  ∃ dst', rescale src dst t N = Some dst' ∧
    x dst' = x dst ∧ y dst' = y dst ∧ valid_image dst' ∧
    ∀ r c, pixel_rc dst' r c =
           if decide (assigned t (x dst) N r ∧ r < x dst ∧ 0 ≤ c < y dst)
           then Some (rescaled src (x dst) (y dst) r c)
           else pixel_rc dst r c.
Proof.
  (* the three bounds delimit the inputs on which the products of the
     source are those of the integers; the loops need nothing of them *)
  intros Hvalid HN Ht _ _ _. pose proof Hvalid as (d & _ & Hx0 & Hy0 & _).
  assert (Hq : 0 ≤ x dst ÷ N).
  { rewrite part_quot by done. apply Z.div_pos; lia. }
  unfold rescale_image, assigned.
  change (t * (x dst ÷ N)) with (part_start t (x dst) N).
  change ((t + 1) * (x dst ÷ N)) with (part_end t (x dst) N).
  assert (Hlo : 0 ≤ part_start t (x dst) N) by (unfold part_start; nia).
  destruct (decide (part_start t (x dst) N ≤ part_end t (x dst) N `min` x dst))
    as [Hle|Hgt].
  - pose (I := λ (i : Z) (im' : ppm_image),
      same_shape dst im' ∧
      ∀ r c, pixel_rc im' r c =
             if decide (part_start t (x dst) N ≤ r < i ∧ 0 ≤ c < y dst)
             then Some (rescaled src (x dst) (y dst) r c)
             else pixel_rc dst r c).
    destruct (for_range_total I
      (λ i new_image,
         for_range 0 (y new_image) (λ j new_image0,
           set_pixel new_image0 (i * y new_image0 + j)
             (sample_bicubic src
                (fdiv (float_of_int i) (float_of_int (x new_image0 - 1)))
                (fdiv (float_of_int j) (float_of_int (y new_image0 - 1)))))
           new_image)
      (part_start t (x dst) N) (part_end t (x dst) N `min` x dst) dst)
      as (dst' & Hloop & (Hx' & Hy' & Hv') & Hpx); subst I; simpl; [done| |..].
    + split; [by apply same_shape_refl|]. intros r c. case_decide; [lia|done].
    + intros i im1 Hi [Hsh1 Hpx1].
      destruct (rescale_image_row float float_of_int fdiv sample_bicubic
                  src dst im1 i) as (im2 & Hrow & Hsh2 & Hpx2); [done|done|lia|].
      exists im2. split; [done|]. split; [done|].
      intros r c. rewrite Hpx2, Hpx1.
      repeat case_decide; try done; lia.
    + exists dst'. repeat (split; [done|]).
      intros r c. rewrite Hpx. repeat case_decide; try done; lia.
  - rewrite for_range_empty by lia.
    exists dst. repeat (split; [done|]).
    intros r c. rewrite decide_False; [done|]. lia.
Qed.

(** X14: when [N] divides the number of rows of the new image, the
    rescaling stage, with the workers in any order, leaves the source as
    it is and a new image of the same dimensions in which every pixel is
    the one computed from the source: nothing of what the buffer held
    before remains. *)
Theorem rescale_stage_overwrites (src work : ppm_image)
    (heap : gmap positive ppm_image) (g : grid_t) (image scaled : positive)
    (N : Z) (sched : list Z) :
  image ≠ scaled → heap !! image = Some src → heap !! scaled = Some work →
  valid_image work → 1 ≤ N → sched ≡ₚ seqZ 0 N → x work `mod` N = 0 →
  ∃ s' W,
    run_stage rescale_step (λ t, Worker t image scaled N) sched (Shared heap g)
      = Some s' ∧
    grid s' = g ∧ structs s' !! image = Some src ∧ structs s' !! scaled = Some W ∧
    x W = x work ∧ y W = y work ∧ valid_image W ∧
    ∀ r c, 0 ≤ r < x work → 0 ≤ c < y work →
           pixel_rc W r c = Some (rescaled src (x work) (y work) r c).
Proof.
  intros Hne Hsrc Hwork Hvalid HN Hperm Hdiv.
  pose proof Hvalid as (d & _ & Hx0 & Hy0 & _).
  destruct (rescale_stage_spec float float_of_int fdiv sample_bicubic
              src work image scaled N sched)
    with (s := Shared heap g) (cur := work)
    as (s' & W & Hrun & Hg & Hsrc' & HW & (Hx' & Hy' & Hv') & Hpx);
    [done|done|done|by intros t Ht%(sched_elem N)|done|done
    |by apply same_shape_refl|].
  exists s', W. repeat (split; [done|]).
  intros r c Hr Hc. apply Hpx. right.
  destruct (assigned_exists (x work) N r) as (t & Ht & Hin); [done|done| |].
  { by rewrite divides_cover. }
  exists t. split; [by apply (sched_elem N)|done].
Qed.

End rescale.

(** Thread id 2 of 2 workers on a new image of 5 rows: the rows from 4
    to 5 are its range, and row 4 is the one below [x]. *)
Lemma rescale_image_rows_witness :
  ∃ dst', rescale_image unit (λ _, ()) (λ _ _, ()) (λ _ _ _, white)
            (flat_image 8 8 white) (flat_image 5 4 black) 2 2 = Some dst' ∧
    x dst' = 5 ∧ y dst' = 4 ∧ valid_image dst' ∧
    ∀ r c, pixel_rc dst' r c =
           if decide (assigned 2 5 2 r ∧ r < 5 ∧ 0 ≤ c < 4)
           then Some (rescaled_pixel unit (λ _, ()) (λ _ _, ()) (λ _ _ _, white)
                        (flat_image 8 8 white) 5 4 r c)
           else pixel_rc (flat_image 5 4 black) r c.
Proof.
  apply (rescale_image_rows unit (λ _, ()) (λ _ _, ()) (λ _ _ _, white)
           (flat_image 8 8 white) (flat_image 5 4 black) 2 2).
  - apply flat_image_valid; lia.
  - lia.
  - lia.
  - by vm_compute.
  - by vm_compute.
  - by vm_compute.
Defined.

Lemma rescale_stage_overwrites_witness :
  ∃ s' W,
    run_stage (apeleaza_rescale unit (λ _, ()) (λ _ _, ()) (λ _ _ _, white))
      (λ t, Worker t 1%positive 2%positive 2) [1; 0]
      (Shared (<[ 1%positive := flat_image 8 8 white ]>
                 {[ 2%positive := flat_image 4 4 black ]}) [])
      = Some s' ∧
    grid s' = [] ∧ structs s' !! 1%positive = Some (flat_image 8 8 white) ∧
    structs s' !! 2%positive = Some W ∧
    x W = 4 ∧ y W = 4 ∧ valid_image W ∧
    ∀ r c, 0 ≤ r < 4 → 0 ≤ c < 4 →
           pixel_rc W r c =
             Some (rescaled_pixel unit (λ _, ()) (λ _ _, ()) (λ _ _ _, white)
                     (flat_image 8 8 white) 4 4 r c).
Proof.
  apply (rescale_stage_overwrites unit (λ _, ()) (λ _ _, ()) (λ _ _ _, white)
           (flat_image 8 8 white) (flat_image 4 4 black)
           (<[ 1%positive := flat_image 8 8 white ]>
              {[ 2%positive := flat_image 4 4 black ]})
           [] 1%positive 2%positive 2 [1; 0]).
  - discriminate.
  - reflexivity.
  - reflexivity.
  - apply flat_image_valid; lia.
  - lia.
  - apply perm_swap.
  - reflexivity.
Defined.

(** ** The allocators *)

Lemma allocate_rows_cells (m_row : Z → malloc_result Z) (junk : Z → Z → Z) q n i :
  (∀ k, i ≤ k < i + Z.of_nat n → m_row k = Block (junk k)) →
  allocate_rows m_row q n i
    = Ret ((λ k, cells (junk k) (q + 1)) <$> seqZ i (Z.of_nat n)).
Proof.
  revert i. induction n as [|n IH]; intros i Hrow; [done|].
  simpl allocate_rows. rewrite Hrow by lia.
  rewrite IH by (intros k Hk; apply Hrow; lia).
  rewrite outcome_bind_Ret. rewrite (seqZ_cons i) by lia.
  rewrite fmap_cons.
  replace (Z.succ i) with (i + 1) by lia.
  by replace (Z.pred (Z.of_nat (S n))) with (Z.of_nat n) by lia.
Qed.

(** X15: when the array of rows and the rows 0 to [p] are allocated,
    [allocate_grid] returns a grid in which exactly the cells [(i, j)]
    with [0 <= i <= p] and [0 <= j <= q] can be accessed, each holding
    whatever [malloc] left there; no cell is initialised. *)
Theorem allocate_grid_cells (img : ppm_image) (m_grid : malloc_result unit)
    (m_row : Z → malloc_result Z) (junk : Z → Z → Z) :
  valid_image img → m_grid ≠ Null →
  (∀ i, 0 ≤ i ≤ x img ÷ STEP → m_row i = Block (junk i)) →
  ∃ g, allocate_grid img m_grid m_row = Ret g ∧
       ∀ i j, grid_get g i j =
              if decide (0 ≤ i ≤ x img ÷ STEP ∧ 0 ≤ j ≤ y img ÷ STEP)
              then Some (junk i j) else None.
Proof.
  intros Hvalid Hgrid Hrow. pose proof (pq_bounds img Hvalid) as Hpq. simpl in Hpq.
  exists (cells (λ k, cells (junk k) (y img ÷ STEP + 1)) (x img ÷ STEP + 1)).
  split.
  - unfold allocate_grid. destruct m_grid; [done|].
    rewrite (allocate_rows_cells m_row junk) by (intros k Hk; apply Hrow; lia).
    rewrite Z2Nat.id by lia. done.
  - intros i j. unfold grid_get. rewrite load_cells.
    destruct (decide (0 ≤ i < x img ÷ STEP + 1)) as [Hi|Hi]; simpl.
    + rewrite load_cells. repeat case_decide; try done; lia.
    + rewrite decide_False; [done|]. lia.
Qed.

Lemma allocate_grid_cells_witness :
  ∃ g, allocate_grid (flat_image 16 16 white) (Block (λ _, ()))
         (λ i, Block (λ j, i + j)) = Ret g ∧
       ∀ i j, grid_get g i j =
              if decide (0 ≤ i ≤ 16 ÷ STEP ∧ 0 ≤ j ≤ 16 ÷ STEP)
              then Some (i + j) else None.
Proof.
  apply (allocate_grid_cells (flat_image 16 16 white) (Block (λ _, ()))
           (λ i, Block (λ j, i + j)) (λ i j, i + j)).
  - apply flat_image_valid; lia.
  - discriminate.
  - intros i Hi. reflexivity.
Defined.

(** X16: when both allocations succeed, [allocate_rescale] returns an
    address that held no struct, leaves every struct of the heap at its
    address, and puts at the new address an image of 2048 by 2048 whose
    buffer holds 2048 * 2048 pixels, none of them initialised. *)
Theorem allocate_rescale_fresh (heap : gmap positive ppm_image)
    (m_image : malloc_result unit) (junk : Z → ppm_pixel) :
  m_image ≠ Null →
  ∃ a heap' new_image,
    allocate_rescale heap m_image (Block junk) = Ret (a, heap') ∧
    heap !! a = None ∧
    (∀ b v, heap !! b = Some v → heap' !! b = Some v) ∧
    heap' !! a = Some new_image ∧
    x new_image = RESCALE_X ∧ y new_image = RESCALE_Y ∧ valid_image new_image ∧
    ∀ k, 0 ≤ k < RESCALE_X * RESCALE_Y → pixel_at new_image k = Some (junk k).
Proof.
  intros Hm. unfold allocate_rescale. destruct m_image as [|u]; [done|].
  assert (Hfresh : heap !! fresh (dom heap) = None).
  { apply not_elem_of_dom. apply is_fresh. }
  eexists _, _, _. split; [done|]. simpl. split; [done|]. split.
  - intros b v Hb. rewrite lookup_insert_ne; [done|]. intros <-. congruence.
  - split; [apply lookup_insert_eq|]. split; [done|]. split; [done|].
    split; [by apply cells_valid|].
    intros k Hk. unfold pixel_at. simpl. by rewrite load_cells, decide_True.
Qed.

Lemma allocate_rescale_fresh_witness :
  ∃ a heap' new_image,
    allocate_rescale {[ 1%positive := flat_image 8 8 white ]}
      (Block (λ _, ())) (Block (λ _, black)) = Ret (a, heap') ∧
    ({[ 1%positive := flat_image 8 8 white ]} : gmap positive ppm_image) !! a = None ∧
    (∀ b v, ({[ 1%positive := flat_image 8 8 white ]} : gmap positive ppm_image) !! b
              = Some v → heap' !! b = Some v) ∧
    heap' !! a = Some new_image ∧
    x new_image = RESCALE_X ∧ y new_image = RESCALE_Y ∧ valid_image new_image ∧
    ∀ k, 0 ≤ k < RESCALE_X * RESCALE_Y → pixel_at new_image k = Some black.
Proof.
  apply (allocate_rescale_fresh {[ 1%positive := flat_image 8 8 white ]}
           (Block (λ _, ())) (λ _, black)).
  discriminate.
Defined.

(** ** march when the grid is not binary, and what march leaves alone *)

(** X17: when some cell [(i, j)] of the worker's rows has a configuration
    index at or past the length of the contour map, as happens when a grid
    cell holds something other than 0 or 1, the look-up [contour_map[k]]
    is past the table and the call is undefined. *)
Theorem march_index_past_table (img : ppm_image) (g : grid_t)
    (contour_map : list ppm_image) (t N i j k : Z) :
  assigned t (x img ÷ STEP) N i → 0 ≤ j < y img ÷ STEP →
  config_index g i j = Some k → Z.of_nat (length contour_map) ≤ k →
  march img g contour_map t N = None.
Proof.
  intros Hi Hj Hk Hlen.
  destruct (march img g contour_map t N) as [img'|] eqn:Hmarch; [exfalso|done].
  unfold march in Hmarch.
  destruct (for_range_Some_inv _ _ _ _ _ Hmarch i Hi) as (im1 & im2 & Hrow).
  destruct (for_range_Some_inv _ _ _ _ _ Hrow j Hj) as (im3 & im4 & Hbody).
  simpl in Hbody. rewrite Hk in Hbody. simpl in Hbody.
  destruct (load contour_map k) as [c|] eqn:Hc; [|done].
  apply load_Some in Hc. lia.
Qed.

(** A grid cell that holds 2: the index is 16. *)
Lemma march_index_past_table_witness :
  march (flat_image 8 8 white) [[2; 0]; [0; 0]]
    (replicate 16 (flat_image 8 8 black)) 0 1 = None.
Proof.
  apply (march_index_past_table (flat_image 8 8 white) [[2; 0]; [0; 0]]
           (replicate 16 (flat_image 8 8 black)) 0 1 0 0 16).
  - vm_compute. split; [discriminate|reflexivity].
  - vm_compute. split; [discriminate|reflexivity].
  - reflexivity.
  - vm_compute. discriminate.
Defined.



(** X19: on a grid of 0 and 1 the configuration index of a cell gives its
    four corners back: bit 3 is [grid[i][j]], bit 2 is [grid[i][j+1]],
    bit 1 is [grid[i+1][j+1]] and bit 0 is [grid[i+1][j]]. *)
Theorem config_index_corners (g : grid_t) (i j k : Z) :
  binary_grid g → config_index g i j = Some k →
  grid_get g i j = Some ((k `div` 8) `mod` 2) ∧
  grid_get g i (j + 1) = Some ((k `div` 4) `mod` 2) ∧
  grid_get g (i + 1) (j + 1) = Some ((k `div` 2) `mod` 2) ∧
  grid_get g (i + 1) j = Some (k `mod` 2).
Proof.
  intros Hbin Hk. unfold config_index in Hk.
  destruct (grid_get g i j) as [a|] eqn:Ha; [|done].
  destruct (grid_get g i (j + 1)) as [b|] eqn:Hb; [|done].
  destruct (grid_get g (i + 1) (j + 1)) as [c|] eqn:Hc; [|done].
  destruct (grid_get g (i + 1) j) as [d|] eqn:Hd; [|done].
  simpl in Hk. injection Hk as <-.
  destruct (Hbin _ _ _ Ha) as [-> | ->], (Hbin _ _ _ Hb) as [-> | ->],
    (Hbin _ _ _ Hc) as [-> | ->], (Hbin _ _ _ Hd) as [-> | ->];
    by vm_compute.
Qed.

Lemma config_index_corners_witness :
  grid_get [[1; 0]; [1; 1]] 0 0 = Some ((11 `div` 8) `mod` 2) ∧
  grid_get [[1; 0]; [1; 1]] 0 (0 + 1) = Some ((11 `div` 4) `mod` 2) ∧
  grid_get [[1; 0]; [1; 1]] (0 + 1) (0 + 1) = Some ((11 `div` 2) `mod` 2) ∧
  grid_get [[1; 0]; [1; 1]] (0 + 1) 0 = Some (11 `mod` 2).
Proof.
  apply (config_index_corners [[1; 0]; [1; 1]] 0 0 11).
  - apply binary_grid_intro. repeat constructor; by (left + right).
  - reflexivity.
Defined.

(** ** The source image of a run that rescales *)

Lemma march_stage_other contour_map image scaled N sched a :
  a ≠ scaled →
  ∀ s s',
    run_stage (apeleaza_march contour_map) (λ t, Worker t image scaled N) sched s
      = Some s' →
    structs s' !! a = structs s !! a.
Proof.
  intros Hne. induction sched as [|t sched IH]; intros s s' Hrun.
  - simpl in Hrun. by injection Hrun as <-.
  - simpl in Hrun.
    destruct (apeleaza_march contour_map (Worker t image scaled N) s) as [s1|]
      eqn:Hstep; [|done]. simpl in Hrun.
    rewrite (IH s1 s' Hrun).
    unfold apeleaza_march in Hstep. simpl in Hstep.
    destruct (structs s !! scaled) as [cur|]; [|done]. simpl in Hstep.
    destruct (march cur (grid s) contour_map t N) as [cur'|]; [|done].
    injection Hstep as <-. simpl. by rewrite lookup_insert_ne.
Qed.

Lemma sample_stage_structs image scaled N sched :
  ∀ s s',
    run_stage apeleaza_sample (λ t, Worker t image scaled N) sched s = Some s' →
    structs s' = structs s.
Proof.
  induction sched as [|t sched IH]; intros s s' Hrun.
  - simpl in Hrun. by injection Hrun as <-.
  - simpl in Hrun.
    destruct (apeleaza_sample (Worker t image scaled N) s) as [s1|] eqn:Hstep;
      [|done]. simpl in Hrun.
    rewrite (IH s1 s' Hrun).
    unfold apeleaza_sample in Hstep. simpl in Hstep.
    destruct (structs s !! scaled) as [cur|]; [|done]. simpl in Hstep.
    destruct (sample_grid cur (grid s) t N) as [g1|]; [|done].
    by injection Hstep as <-.
Qed.

Section source_kept.
Variable float : Type.
Variable float_of_int : Z → float.
Variable fdiv : float → float → float.
Variable sample_bicubic : ppm_image → float → float → ppm_pixel.

Lemma rescale_stage_other image scaled N sched a :
  a ≠ scaled →
  ∀ s s',
    run_stage (apeleaza_rescale float float_of_int fdiv sample_bicubic)
      (λ t, Worker t image scaled N) sched s = Some s' →
    structs s' !! a = structs s !! a.
Proof.
  intros Hne. induction sched as [|t sched IH]; intros s s' Hrun.
  - simpl in Hrun. by injection Hrun as <-.
  - simpl in Hrun.
    destruct (apeleaza_rescale float float_of_int fdiv sample_bicubic
                (Worker t image scaled N) s) as [s1|] eqn:Hstep; [|done].
    simpl in Hrun. rewrite (IH s1 s' Hrun).
    unfold apeleaza_rescale in Hstep. simpl in Hstep.
    destruct (decide (image ≠ scaled)) as [Hd|Hd]; [|by injection Hstep as <-].
    destruct (structs s !! image) as [src|]; [|done]. simpl in Hstep.
    destruct (structs s !! scaled) as [dst|]; [|done]. simpl in Hstep.
    destruct (rescale_image _ _ _ _ src dst t N) as [dst'|]; [|done].
    injection Hstep as <-. simpl. by rewrite lookup_insert_ne.
Qed.

(** X20: a run of the three stages that returns, for any worker count, any
    order of the workers and any contents of the images and of the grid,
    has written no image struct other than the working one.  In a run
    that rescales (the working image is a struct of its own) the source
    pointer therefore still refers to the image that was read. *)
Theorem run_workers_keeps_source (image scaled : positive)
    (contour_map : list ppm_image) (N : Z) (sc : schedule) (s s' : shared) :
  run_workers float float_of_int fdiv sample_bicubic
    contour_map image scaled N sc s = Some s' →
  (∀ a, a ≠ scaled → structs s' !! a = structs s !! a) ∧
  (image ≠ scaled → structs s' !! image = structs s !! image).
Proof.
  intros Hrun. unfold run_workers in Hrun.
  destruct (run_stage _ _ (sched_rescale sc) s) as [s1|] eqn:Hrun1; [|done].
  simpl in Hrun.
  destruct (run_stage _ _ (sched_sample sc) s1) as [s2|] eqn:Hrun2; [|done].
  simpl in Hrun.
  assert (Hother : ∀ a, a ≠ scaled → structs s' !! a = structs s !! a).
  { intros a Hne.
    rewrite (march_stage_other contour_map image scaled N (sched_march sc) a Hne
               s2 s' Hrun).
    rewrite (sample_stage_structs image scaled N (sched_sample sc) s1 s2 Hrun2).
    exact (rescale_stage_other image scaled N (sched_rescale sc) a Hne s s1 Hrun1). }
  split; [done|]. intros Hne. by apply Hother.
Qed.

End source_kept.

(** A run with two workers that rescales a white source of 8 by 8 pixels
    into a working image of 16 by 16. *)
Lemma run_workers_keeps_source_witness :
  ∃ s',
    run_workers unit (λ _, ()) (λ _ _, ()) (λ _ _ _, white)
      (replicate 16 (flat_image 8 8 black)) 1%positive 2%positive 2
      (Schedule [1; 0] [0; 1] [1; 0])
      (Shared (<[ 1%positive := flat_image 8 8 white ]>
                 {[ 2%positive := flat_image 16 16 black ]})
              [[7; 7; 7]; [7; 7; 7]; [7; 7; 7]]) = Some s' ∧
    structs s' !! 1%positive = Some (flat_image 8 8 white).
Proof.
  destruct (run_workers_spec unit (λ _, ()) (λ _ _, ()) (λ _ _ _, white)
              (flat_image 8 8 white) (flat_image 16 16 black) 1%positive 2%positive
              (replicate 16 (flat_image 8 8 black)) 2 (Schedule [1; 0] [0; 1] [1; 0])
              (Shared (<[ 1%positive := flat_image 8 8 white ]>
                         {[ 2%positive := flat_image 16 16 black ]})
                      [[7; 7; 7]; [7; 7; 7]; [7; 7; 7]]))
    as (s' & W & out & Hrun & _).
  - reflexivity.
  - reflexivity.
  - apply flat_image_valid; lia.
  - apply sample_defined_intro; [apply flat_image_valid; lia|..]; simpl;
      unfold STEP; lia.
  - apply grid_dims_intro; [done|done|done|]. by repeat constructor.
  - apply flat_contours_valid.
  - lia.
  - repeat split; simpl; [apply perm_swap|reflexivity|apply perm_swap].
  - reflexivity.
  - reflexivity.
  - reflexivity.
  - exists s'. split; [exact Hrun|].
    destruct (run_workers_keeps_source unit (λ _, ()) (λ _ _, ()) (λ _ _ _, white)
                1%positive 2%positive (replicate 16 (flat_image 8 8 black)) 2
                (Schedule [1; 0] [0; 1] [1; 0]) _ s' Hrun) as [_ Hsrc].
    rewrite Hsrc; [reflexivity|discriminate].
Defined.

(** ** What main writes *)

Section output.
Variable float : Type.
Variable float_of_int : Z → float.
Variable fdiv : float → float → float.
Variable sample_bicubic : ppm_image → float → float → ppm_pixel.
Variable read_ppm : string → outcome ppm_image.
Variable atoi : string → Z.

(** X21: a run of [main] with three arguments, readable files, successful
    allocations, a worker count of at least 1 that divides the extents
    and, when the source is not rescaled, a source on which every pixel
    the sampler reads lies in the buffer ([sample_defined]) returns 0
    after writing, to the file named by the second argument, an image of
    2048 by 2048 when the source has more than 2048 rows or columns and of
    the dimensions of the source otherwise; in the second case the pixels
    in rows from [p * STEP] and in columns from [q * STEP] are the pixels
    of the source. *)
Theorem main_output (prog in_file out_file arg3 : string) (rest : list string)
    (m : mallocs) (sc : schedule) (src : ppm_image) :
  readable read_ppm in_file src → all_allocated m →
  (needs_rescale src = false → sample_defined src) →
  1 ≤ atoi arg3 → divides_extents src (atoi arg3) →
  valid_schedule (atoi arg3) sc →
  ∃ out,
    main float float_of_int fdiv sample_bicubic read_ppm atoi
      (prog :: in_file :: out_file :: arg3 :: rest) m sc = Ret (out_file, out) ∧
    valid_image out ∧
    x out = (if needs_rescale src then RESCALE_X else x src) ∧
    y out = (if needs_rescale src then RESCALE_Y else y src) ∧
    (needs_rescale src = false →
     ∀ r c, x src ÷ STEP * STEP ≤ r ∨ y src ÷ STEP * STEP ≤ c →
            pixel_rc out r c = pixel_rc src r c).
Proof.
  intros Hread Halloc Hsafe HN Hdiv Hsc.
  destruct (main_spec float float_of_int fdiv sample_bicubic read_ppm atoi
              prog in_file out_file arg3 rest m sc src)
    as (cm & work & W & g' & out & _ & Hmain & Hxw & Hyw & Hres); [done..|].
  destruct Hres as (_ & (Hxo & Hyo & Hvo) & HW & _ & _ & Hpx).
  unfold working_x, working_y in *.
  exists out. split; [done|]. split; [done|].
  split; [congruence|]. split; [congruence|].
  intros Hno r c Hrc. rewrite Hno in *. subst W.
  rewrite Hpx, decide_False; [done|]. rewrite Hxw, Hyw. lia.
Qed.

End output.

Lemma main_output_witness :
  ∃ out,
    main unit (λ _, ()) (λ _ _, ()) (λ _ _ _, white) demo_read_ppm demo_atoi
      ["./tema1"; "in.ppm"; "out.ppm"; "2"] demo_mallocs
      (Schedule [1; 0] [0; 1] [1; 0]) = Ret ("out.ppm", out) ∧
    valid_image out ∧
    x out = (if needs_rescale (flat_image 16 16 white) then RESCALE_X else 16) ∧
    y out = (if needs_rescale (flat_image 16 16 white) then RESCALE_Y else 16) ∧
    (needs_rescale (flat_image 16 16 white) = false →
     ∀ r c, 16 ÷ STEP * STEP ≤ r ∨ 16 ÷ STEP * STEP ≤ c →
            pixel_rc out r c = pixel_rc (flat_image 16 16 white) r c).
Proof.
  apply (main_output unit (λ _, ()) (λ _ _, ()) (λ _ _ _, white)
           demo_read_ppm demo_atoi "./tema1" "in.ppm" "out.ppm" "2" []
           demo_mallocs (Schedule [1; 0] [0; 1] [1; 0]) (flat_image 16 16 white)).
  - split; [reflexivity|]. split; [apply flat_image_valid; lia|].
    intros k Hk. exists (flat_image 8 8 black). split; [reflexivity|].
    split; [apply flat_image_valid; lia|]. split; reflexivity.
  - repeat split; discriminate.
  - intros _. apply sample_defined_intro; [apply flat_image_valid; lia|..];
      simpl; unfold STEP; lia.
  - vm_compute. discriminate.
  - repeat split; try reflexivity; intros Hn; vm_compute in Hn; discriminate.
  - repeat split; simpl; [apply perm_swap|reflexivity|apply perm_swap].
Defined.

(** ** The order of the workers inside a stage *)

Section schedules.
Variable float : Type.
Variable float_of_int : Z → float.
Variable fdiv : float → float → float.
Variable sample_bicubic : ppm_image → float → float → ppm_pixel.

Local Abbreviation rescale_step :=
  (apeleaza_rescale float float_of_int fdiv sample_bicubic).
Local Abbreviation rescaled := (rescaled_pixel float float_of_int fdiv sample_bicubic).
Local Abbreviation workers :=
  (run_workers float float_of_int fdiv sample_bicubic).

Lemma rescale_stage_frame src work image scaled N sched :
  image ≠ scaled → valid_image work → 1 ≤ N → (∀ t, t ∈ sched → 0 ≤ t < N) →
  ∀ s s' cur W,
    structs s !! image = Some src → structs s !! scaled = Some cur →
    same_shape work cur →
    run_stage rescale_step (λ t, Worker t image scaled N) sched s = Some s' →
    structs s' !! scaled = Some W →
    ∀ r c, (∀ t, t ∈ sched → ¬ (assigned t (x work) N r ∧ 0 ≤ c < y work)) →
           pixel_rc W r c = pixel_rc cur r c.
Proof.
  intros Hne Hvalid HN. induction sched as [|t sched IH];
    intros Hsched s s' cur W Hsrc Hcur Hsh Hrun HW r c Hout.
  - simpl in Hrun. injection Hrun as <-. congruence.
  - pose proof Hsh as (Hx & Hy & Hv).
    destruct (rescale_image_spec float float_of_int fdiv sample_bicubic src cur t N)
      as (cur' & Hres & Hsh' & Hpx); [done|done|apply Hsched; by left|].
    rewrite (run_stage_cons _ (λ t, Worker t image scaled N) t sched s _
               (apeleaza_rescale_step float float_of_int fdiv sample_bicubic
                  src cur cur' image scaled t N s Hne Hsrc Hcur Hres)) in Hrun.
    rewrite (IH (λ t' Ht', Hsched t' (list_elem_of_further _ _ _ Ht'))
               (Shared (<[scaled := cur']> (structs s)) (grid s)) s' cur' W);
      simpl; try done.
    + rewrite Hpx, Hx, Hy, decide_False; [done|]. apply Hout. by left.
    + by rewrite lookup_insert_ne.
    + by rewrite lookup_insert_eq.
    + by eapply same_shape_trans.
    + intros t' Ht'. apply Hout. by right.
Qed.

(** The worker ids of two orders of the same stage are the same. *)
Lemma same_workers N sched1 sched2 (P : Z → Prop) :
  sched1 ≡ₚ seqZ 0 N → sched2 ≡ₚ seqZ 0 N →
  (∃ t, t ∈ sched1 ∧ P t) ↔ (∃ t, t ∈ sched2 ∧ P t).
Proof.
  intros H1 H2. split; intros (t & Ht & HP); exists t; split; try done.
  - apply (sched_elem N); [done|]. by apply (sched_elem N sched1).
  - apply (sched_elem N); [done|]. by apply (sched_elem N sched2).
Qed.

Lemma written_or_not (P : Z → Prop) `{!∀ t, Decision (P t)} (sched : list Z) :
  (∃ t, t ∈ sched ∧ P t) ∨ (∀ t, t ∈ sched → ¬ P t).
Proof.
  destruct (decide (Exists P sched)) as [Hex|Hno].
  - left. by apply Exists_exists.
  - right. intros t Ht HP. apply Hno, Exists_exists. by exists t.
Qed.

(** The rescaling stage in two orders. *)
Lemma rescale_stage_orders src work image scaled N sched1 sched2 s :
  structs s !! image = Some src → structs s !! scaled = Some work →
  valid_image work → 1 ≤ N →
  sched1 ≡ₚ seqZ 0 N → sched2 ≡ₚ seqZ 0 N →
  ∃ s1 s2 W,
    run_stage rescale_step (λ t, Worker t image scaled N) sched1 s = Some s1 ∧
    run_stage rescale_step (λ t, Worker t image scaled N) sched2 s = Some s2 ∧
    grid s1 = grid s ∧ grid s2 = grid s ∧
    structs s1 !! scaled = Some W ∧ structs s2 !! scaled = Some W ∧
    same_shape work W.
Proof.
  intros Hsrc Hwork Hvalid HN Hp1 Hp2.
  assert (Hs1 : ∀ t, t ∈ sched1 → 0 ≤ t < N) by (by intros t Ht%(sched_elem N)).
  assert (Hs2 : ∀ t, t ∈ sched2 → 0 ≤ t < N) by (by intros t Ht%(sched_elem N)).
  destruct (decide (image = scaled)) as [->|Hne].
  - exists s, s, work.
    assert (Hid : ∀ l, run_stage rescale_step (λ t, Worker t scaled scaled N) l s
                       = Some s).
    { induction l as [|t l IH]; [done|].
      by rewrite (run_stage_cons _ (λ t, Worker t scaled scaled N) t l s _
                    (apeleaza_rescale_same float float_of_int fdiv sample_bicubic
                       scaled t N s)). }
    repeat (split; [done|]). by apply same_shape_refl.
  - destruct (rescale_stage_spec float float_of_int fdiv sample_bicubic
                src work image scaled N sched1) with (s := s) (cur := work)
      as (s1 & W1 & Hrun1 & Hg1 & _ & HW1 & Hsh1 & Hin1);
      [done|done|done|done|done|done|by apply same_shape_refl|].
    destruct (rescale_stage_spec float float_of_int fdiv sample_bicubic
                src work image scaled N sched2) with (s := s) (cur := work)
      as (s2 & W2 & Hrun2 & Hg2 & _ & HW2 & Hsh2 & Hin2);
      [done|done|done|done|done|done|by apply same_shape_refl|].
    assert (W2 = W1) as ->.
    { destruct Hsh1 as (Hx1 & Hy1 & Hv1), Hsh2 as (Hx2 & Hy2 & Hv2).
      apply image_ext; [done|repeat split; [congruence..|done]|].
      intros r c _ _.
      destruct (written_or_not (λ t, assigned t (x work) N r ∧ 0 ≤ c < y work) sched1)
        as [Hw|Hnw].
      - rewrite Hin1 by (by right).
        apply Hin2. right. by apply (same_workers N sched1 sched2).
      - rewrite (rescale_stage_frame src work image scaled N sched1 Hne Hvalid HN Hs1
                   s s1 work W1 Hsrc Hwork (same_shape_refl _ Hvalid) Hrun1 HW1 r c Hnw).
        apply (rescale_stage_frame src work image scaled N sched2 Hne Hvalid HN Hs2
                 s s2 work W2 Hsrc Hwork (same_shape_refl _ Hvalid) Hrun2 HW2 r c).
        intros t Ht HP. apply (Hnw t); [|done].
        apply (sched_elem N); [done|]. by apply Hs2. }
    exists s1, s2, W1. by repeat (split; [done|]).
Qed.

(** The sampling stage in two orders. *)
Lemma sample_stage_orders W image scaled N sched1 sched2 s1 s2 :
  structs s1 !! scaled = Some W → structs s2 !! scaled = Some W →
  grid s2 = grid s1 →
  valid_image W → sample_defined W →
  grid_dims (grid s1) (x W ÷ STEP) (y W ÷ STEP) → binary_grid (grid s1) →
  1 ≤ N → sched1 ≡ₚ seqZ 0 N → sched2 ≡ₚ seqZ 0 N →
  ∃ s1' s2',
    run_stage apeleaza_sample (λ t, Worker t image scaled N) sched1 s1 = Some s1' ∧
    run_stage apeleaza_sample (λ t, Worker t image scaled N) sched2 s2 = Some s2' ∧
    structs s1' = structs s1 ∧ structs s2' = structs s2 ∧
    grid_dims (grid s1') (x W ÷ STEP) (y W ÷ STEP) ∧
    grid_dims (grid s2') (x W ÷ STEP) (y W ÷ STEP) ∧
    binary_grid (grid s1') ∧
    ∀ a b, grid_get (grid s2') a b = grid_get (grid s1') a b.
Proof.
  intros HW1 HW2 Hg Hvalid Hdef Hdims Hbin HN Hp1 Hp2.
  assert (Hs1 : ∀ t, t ∈ sched1 → 0 ≤ t < N) by (by intros t Ht%(sched_elem N)).
  assert (Hs2 : ∀ t, t ∈ sched2 → 0 ≤ t < N) by (by intros t Ht%(sched_elem N)).
  destruct (sample_stage_spec W image scaled N sched1) with (s := s1)
    as (s1' & Hrun1 & Hst1 & Hd1 & Hin1); [done..|].
  destruct (sample_stage_spec W image scaled N sched2) with (s := s2)
    as (s2' & Hrun2 & Hst2 & Hd2 & Hin2); [done|done|done|done|done|by rewrite Hg|].
  pose proof (sample_stage_frame W image scaled N sched1 Hvalid HN Hs1
                s1 s1' HW1 Hdims Hrun1) as Hout1.
  assert (Hdims2 : grid_dims (grid s2) (x W ÷ STEP) (y W ÷ STEP)) by (by rewrite Hg).
  pose proof (sample_stage_frame W image scaled N sched2 Hvalid HN Hs2
                s2 s2' HW2 Hdims2 Hrun2) as Hout2.
  exists s1', s2'. repeat (split; [done|]). split.
  - intros a b v Hv.
    destruct (written_or_not (λ t, sample_writes W t N a b) sched1) as [Hw|Hnw].
    + rewrite Hin1 in Hv by (by right). by eapply sample_value_binary.
    + rewrite Hout1 in Hv by done. by eapply Hbin.
  - intros a b.
    destruct (written_or_not (λ t, sample_writes W t N a b) sched1) as [Hw|Hnw].
    + rewrite Hin1 by (by right). apply Hin2. right.
      by apply (same_workers N sched1 sched2).
    + rewrite Hout1 by done. rewrite Hout2; [by rewrite Hg|].
      intros t Ht HP. apply (Hnw t); [|done].
      apply (sched_elem N); [done|]. by apply Hs2.
Qed.

(** The marching stage in two orders, on grids that agree cell by cell. *)
Lemma march_stage_orders W g1 g2 contour_map image scaled N sched1 sched2 s1 s2 :
  structs s1 !! scaled = Some W → structs s2 !! scaled = Some W →
  grid s1 = g1 → grid s2 = g2 →
  (∀ a b, grid_get g2 a b = grid_get g1 a b) →
  valid_image W →
  grid_dims g1 (x W ÷ STEP) (y W ÷ STEP) →
  grid_dims g2 (x W ÷ STEP) (y W ÷ STEP) →
  binary_grid g1 →
  valid_contour_map contour_map →
  1 ≤ N → sched1 ≡ₚ seqZ 0 N → sched2 ≡ₚ seqZ 0 N →
  ∃ s1' s2' out,
    run_stage (apeleaza_march contour_map) (λ t, Worker t image scaled N) sched1 s1
      = Some s1' ∧
    run_stage (apeleaza_march contour_map) (λ t, Worker t image scaled N) sched2 s2
      = Some s2' ∧
    grid s1' = g1 ∧ grid s2' = g2 ∧
    structs s1' !! scaled = Some out ∧ structs s2' !! scaled = Some out ∧
    same_shape W out.
Proof.
  intros HW1 HW2 Hg1 Hg2 Hg Hvalid Hd1 Hd2 Hbin1 Hmap HN Hp1 Hp2.
  assert (Hs1 : ∀ t, t ∈ sched1 → 0 ≤ t < N) by (by intros t Ht%(sched_elem N)).
  assert (Hs2 : ∀ t, t ∈ sched2 → 0 ≤ t < N) by (by intros t Ht%(sched_elem N)).
  assert (Hbin2 : binary_grid g2).
  { intros a b v Hv. rewrite Hg in Hv. by eapply Hbin1. }
  destruct (march_stage_spec W g1 contour_map image scaled N sched1)
    with (s := s1) (cur := W)
    as (s1' & out1 & Hrun1 & Hgr1 & Hout1 & Hsh1 & Hin1 & Hfr1);
    [done|done|done|done|done|done|done|done|by apply same_shape_refl|].
  destruct (march_stage_spec W g2 contour_map image scaled N sched2)
    with (s := s2) (cur := W)
    as (s2' & out2 & Hrun2 & Hgr2 & Hout2 & Hsh2 & Hin2 & Hfr2);
    [done|done|done|done|done|done|done|done|by apply same_shape_refl|].
  assert (out2 = out1) as ->.
  { pose proof Hsh1 as (Hx1 & Hy1 & Hv1). pose proof Hsh2 as (Hx2 & Hy2 & Hv2).
    apply image_ext; [done|repeat split; [congruence..|done]|].
    intros r c _ _.
    destruct (written_or_not
                (λ t, assigned t (x W ÷ STEP) N (r `div` STEP) ∧
                      0 ≤ c < y W ÷ STEP * STEP) sched1) as [Hw|Hnw].
    - rewrite (Hin1 r c) by (by right).
      rewrite (Hin2 r c); [by apply march_value_ext|]. right.
      by apply (same_workers N sched1 sched2).
    - rewrite (Hfr1 r c) by done. apply Hfr2.
      intros t Ht HP. apply (Hnw t); [|done].
      apply (sched_elem N); [done|]. by apply Hs2. }
  exists s1', s2', out1. repeat (split; [congruence|]). done.
Qed.

(** X22: for any worker count [N >= 1], a working image whose buffer
    holds [x * y] pixels and on which every pixel the sampler reads lies in
    the buffer ([sample_defined]), a
    contour map of sixteen [STEP] by [STEP] images and a grid of [p + 1]
    rows of [q + 1] cells that holds 0 or 1 in every cell before the run,
    two runs of the workers that differ only in the order in which the
    workers execute each stage both return, with the same working image
    and grids that agree cell by cell: the result of the three stages does
    not depend on the order of the workers between two barriers. *)
Theorem run_workers_order_independent (src work : ppm_image)
    (image scaled : positive) (contour_map : list ppm_image)
    (N : Z) (sc1 sc2 : schedule) (s : shared) :
  structs s !! image = Some src → structs s !! scaled = Some work →
  valid_image work → sample_defined work →
  grid_dims (grid s) (x work ÷ STEP) (y work ÷ STEP) → binary_grid (grid s) →
  valid_contour_map contour_map →
  1 ≤ N → valid_schedule N sc1 → valid_schedule N sc2 →
  ∃ s1 s2 out,
    workers contour_map image scaled N sc1 s = Some s1 ∧
    workers contour_map image scaled N sc2 s = Some s2 ∧
    structs s1 !! scaled = Some out ∧ structs s2 !! scaled = Some out ∧
    ∀ a b, grid_get (grid s2) a b = grid_get (grid s1) a b.
Proof.
  intros Hsrc Hwork Hvalid Hdef Hdims Hbin Hmap HN
         (Hr1 & Hs1 & Hm1) (Hr2 & Hs2 & Hm2).
  destruct (rescale_stage_orders src work image scaled N
              (sched_rescale sc1) (sched_rescale sc2) s)
    as (sa1 & sa2 & W & Hrun1 & Hrun2 & Hga1 & Hga2 & HW1 & HW2 & HshW); [done..|].
  pose proof HshW as (HxW & HyW & HvW).
  destruct (sample_stage_orders W image scaled N (sched_sample sc1) (sched_sample sc2)
              sa1 sa2)
    as (sb1 & sb2 & Hrunb1 & Hrunb2 & Hst1 & Hst2 & Hd1 & Hd2 & Hbin1 & Hgrid);
    [done|done|congruence|done|by apply (sample_defined_shape work)
    |by rewrite Hga1, HxW, HyW|by rewrite Hga1|done..|].
  destruct (march_stage_orders W (grid sb1) (grid sb2) contour_map image scaled N
              (sched_march sc1) (sched_march sc2) sb1 sb2)
    as (sc1' & sc2' & out & Hrunc1 & Hrunc2 & Hgc1 & Hgc2 & Ho1 & Ho2 & _);
    [by rewrite Hst1|by rewrite Hst2|done..|].
  exists sc1', sc2', out. unfold run_workers.
  rewrite Hrun1, Hrun2. simpl. rewrite Hrunb1, Hrunb2. simpl.
  repeat (split; [done|]). by rewrite Hgc1, Hgc2.
Qed.

End schedules.

Lemma run_workers_order_independent_witness :
  ∃ s1 s2 out,
    run_workers unit (λ _, ()) (λ _ _, ()) (λ _ _ _, white)
      (replicate 16 (flat_image 8 8 black)) 1%positive 2%positive 2
      (Schedule [1; 0] [0; 1] [1; 0])
      (Shared (<[ 1%positive := flat_image 8 8 white ]>
                 {[ 2%positive := flat_image 16 16 black ]})
              [[0; 1; 0]; [1; 1; 0]; [0; 0; 1]]) = Some s1 ∧
    run_workers unit (λ _, ()) (λ _ _, ()) (λ _ _ _, white)
      (replicate 16 (flat_image 8 8 black)) 1%positive 2%positive 2
      (Schedule [0; 1] [1; 0] [0; 1])
      (Shared (<[ 1%positive := flat_image 8 8 white ]>
                 {[ 2%positive := flat_image 16 16 black ]})
              [[0; 1; 0]; [1; 1; 0]; [0; 0; 1]]) = Some s2 ∧
    structs s1 !! 2%positive = Some out ∧ structs s2 !! 2%positive = Some out ∧
    ∀ a b, grid_get (grid s2) a b = grid_get (grid s1) a b.
Proof.
  apply (run_workers_order_independent unit (λ _, ()) (λ _ _, ()) (λ _ _ _, white)
           (flat_image 8 8 white) (flat_image 16 16 black) 1%positive 2%positive
           (replicate 16 (flat_image 8 8 black)) 2
           (Schedule [1; 0] [0; 1] [1; 0]) (Schedule [0; 1] [1; 0] [0; 1])
           (Shared (<[ 1%positive := flat_image 8 8 white ]>
                      {[ 2%positive := flat_image 16 16 black ]})
                   [[0; 1; 0]; [1; 1; 0]; [0; 0; 1]])).
  - reflexivity.
  - reflexivity.
  - apply flat_image_valid; lia.
  - apply sample_defined_intro; [apply flat_image_valid; lia|..]; simpl;
      unfold STEP; lia.
  - apply grid_dims_intro; [done|done|done|]. by repeat constructor.
  - apply binary_grid_intro. by repeat constructor.
  - apply flat_contours_valid.
  - lia.
  - repeat split; simpl; [apply perm_swap|reflexivity|apply perm_swap].
  - repeat split; simpl; [reflexivity|apply perm_swap|reflexivity].
Defined.

(** ** Failed allocations in main *)

(** A null row pointer among the rows the loop reaches stops the loop. *)
Lemma allocate_rows_null (m_row : Z → malloc_result Z) (q : Z) (n : nat) (k i : Z) :
  k ≤ i < k + Z.of_nat n → m_row i = Null →
  allocate_rows m_row q n k = Exit 1 alloc_diagnostic.
Proof.
  revert k. induction n as [|n IH]; intros k Hk Hnull; [lia|]. simpl.
  destruct (m_row k) as [|junk] eqn:Hrow; [done|].
  rewrite IH; [done| |done].
  destruct (decide (k = i)) as [->|Hne]; [congruence|lia].
Qed.

Section failed_allocations.
Variable float : Type.
Variable float_of_int : Z → float.
Variable fdiv : float → float → float.
Variable sample_bicubic : ppm_image → float → float → ppm_pixel.
Variable read_ppm : string → outcome ppm_image.
Variable atoi : string → Z.

(** X23: with three arguments and readable files, [main] ends with status
    1 and the diagnostic "Unable to allocate memory" when [malloc] returns
    null for the contour map, for the struct of the rescaled image (when
    the source needs rescaling), for the array of grid rows or for one of
    the grid rows: this holds for every third argument, every order of the
    workers and every result of the other allocations, since the exit
    comes before the first thread is created. *)
Theorem main_allocation_failure (prog in_file out_file arg3 : string)
    (rest : list string) (m : mallocs) (sc : schedule) (src : ppm_image) :
  readable read_ppm in_file src →
  m_map m = Null ∨
  (needs_rescale src = true ∧ m_new_image m = Null) ∨
  m_grid m = Null ∨
  (∃ i, 0 ≤ i ≤ working_x src ÷ STEP ∧ m_grid_row m i = Null) →
  main float float_of_int fdiv sample_bicubic read_ppm atoi
    (prog :: in_file :: out_file :: arg3 :: rest) m sc = Exit 1 alloc_diagnostic.
Proof.
  intros (Hread & Hvalid & Hcontours) Hfail.
  unfold main. rewrite bool_decide_false by (simpl; lia).
  unfold main_body. simpl (_ !! _). simpl (defined _).
  rewrite !outcome_bind_Ret, Hread, outcome_bind_Ret.
  destruct (m_map m) as [|u_map] eqn:Hmap; [done|].
  destruct (read_contours_ok read_ppm 16 0) as (cm & Hcm & _).
  { intros k Hk. apply Hcontours. unfold CONTOUR_CONFIG_COUNT. lia. }
  assert (Hinit : init_contour_map read_ppm (Block u_map) = Ret cm) by exact Hcm.
  rewrite Hinit, outcome_bind_Ret. cbv zeta.
  set (image := (new_struct ∅ src).1).
  set (heap := (new_struct ∅ src).2).
  assert (Himage : heap !! image = Some src) by apply lookup_insert_eq.
  assert (Hgrid : ∀ work,
            x work = working_x src →
            m_grid m = Null ∨
            (∃ i, 0 ≤ i ≤ working_x src ÷ STEP ∧ m_grid_row m i = Null) →
            allocate_grid work (m_grid m) (m_grid_row m) = Exit 1 alloc_diagnostic).
  { intros work Hx [Hnull|(i & Hi & Hnull)]; unfold allocate_grid.
    - by rewrite Hnull.
    - destruct (m_grid m); [done|].
      apply (allocate_rows_null _ _ _ 0 i); [|done]. rewrite Hx. lia. }
  unfold working_image. unfold working_x in *.
  destruct (needs_rescale src) eqn:Hneeds.
  - unfold needs_rescale in Hneeds. apply negb_true_iff in Hneeds.
    rewrite Hneeds. unfold allocate_rescale.
    destruct (m_new_image m) as [|u]; [done|].
    rewrite outcome_bind_Ret. unfold main_workers.
    set (work := Image RESCALE_X RESCALE_Y _).
    assert (Hwork : (new_struct heap work).2 !! (new_struct heap work).1 = Some work)
      by apply lookup_insert_eq.
    rewrite Hwork. simpl (defined _). rewrite outcome_bind_Ret.
    rewrite Hgrid; [done|done|].
    destruct Hfail as [?|[[_ ?]|?]]; done.
  - unfold needs_rescale in Hneeds. apply negb_false_iff in Hneeds.
    rewrite Hneeds, outcome_bind_Ret. unfold main_workers.
    simpl (_.1). simpl (_.2).
    rewrite Himage. simpl (defined _). rewrite outcome_bind_Ret.
    rewrite Hgrid; [done|done|].
    destruct Hfail as [?|[[? _]|?]]; done.
Qed.

End failed_allocations.

Lemma main_allocation_failure_witness :
  main unit (λ _, ()) (λ _ _, ()) (λ _ _ _, white) demo_read_ppm demo_atoi
    ["./tema1"; "in.ppm"; "out.ppm"; "2"]
    (Mallocs Null Null (Block (λ _, ())) Null Null (Block (λ _, ()))
             (λ i, if bool_decide (i = 2) then Null else Block (λ _, 7)))
    (Schedule [] [] []) = Exit 1 alloc_diagnostic.
Proof.
  apply (main_allocation_failure unit (λ _, ()) (λ _ _, ()) (λ _ _ _, white)
           demo_read_ppm demo_atoi "./tema1" "in.ppm" "out.ppm" "2" []
           (Mallocs Null Null (Block (λ _, ())) Null Null (Block (λ _, ()))
                    (λ i, if bool_decide (i = 2) then Null else Block (λ _, 7)))
           (Schedule [] [] []) (flat_image 16 16 white)).
  - split; [reflexivity|]. split; [apply flat_image_valid; lia|].
    intros k Hk. exists (flat_image 8 8 black). split; [reflexivity|].
    split; [apply flat_image_valid; lia|]. split; reflexivity.
  - right. right. right. exists 2. split; [|reflexivity].
    split; vm_compute; discriminate.
Defined.

(** ** A sampler read past the buffer *)

(** The sampling stage does not return when one of its workers owns a grid
    row whose read for the last grid column is past the buffer. *)
Lemma sample_stage_past_buffer img image scaled N sched t0 i :
  valid_image img → assigned t0 (x img ÷ STEP) N i →
  x img * y img ≤ i * STEP * y img + x img - 1 →
  t0 ∈ sched →
  ∀ s, structs s !! scaled = Some img →
       run_stage apeleaza_sample (λ t, Worker t image scaled N) sched s = None.
Proof.
  intros Hvalid Hi Hoob. induction sched as [|t sched IH]; intros Hin s Himg.
  - by apply elem_of_nil in Hin.
  - destruct (run_stage apeleaza_sample (λ t, Worker t image scaled N)
                (t :: sched) s) as [s'|] eqn:Hrun; [exfalso|done].
    simpl in Hrun.
    destruct (apeleaza_sample (Worker t image scaled N) s) as [s1|] eqn:Hstep;
      [|done]. simpl in Hrun.
    unfold apeleaza_sample in Hstep. simpl in Hstep. rewrite Himg in Hstep.
    simpl in Hstep.
    destruct (sample_grid img (grid s) t N) as [g1|] eqn:Hg1; [|done].
    injection Hstep as <-.
    apply elem_of_cons in Hin as [<-|Hin].
    + unfold sample_grid in Hg1.
      destruct (sample_interior img t0 N (grid s)) as [g2|]; [|done]. simpl in Hg1.
      destruct (grid_set g2 _ _ 0) as [g3|]; [|done]. simpl in Hg1.
      destruct (sample_last_column img t0 N g3) as [g4|] eqn:Hcol; [|done].
      unfold sample_last_column in Hcol.
      destruct (for_range_Some_inv _ _ _ _ _ Hcol i Hi) as (u1 & u2 & Hbody).
      simpl in Hbody.
      destruct (pixel_at img (i * STEP * y img + x img - 1)) as [px|] eqn:Hpx;
        [|done].
      assert (Hsome : is_Some (pixel_at img (i * STEP * y img + x img - 1)))
        by eauto.
      apply pixel_at_is_Some in Hsome; [|done]. lia.
    + by rewrite (IH Hin (Shared (structs s) g1) Himg) in Hrun.
Qed.

Section past_buffer.
Variable float : Type.
Variable float_of_int : Z → float.
Variable fdiv : float → float → float.
Variable sample_bicubic : ppm_image → float → float → ppm_pixel.
Variable read_ppm : string → outcome ppm_image.
Variable atoi : string → Z.

(** X25: with three arguments, readable files, successful allocations, a
    source that is not rescaled and a worker count of at least 1 that
    divides [p], if the read for the last grid column of some grid row
    [i < p] is past the buffer of the source
    ([i * STEP * y + x - 1 >= x * y]), then the behaviour of [main] is
    undefined, whatever the order of the workers is: when [N] divides [p]
    every grid row has a worker, so the read takes place. *)
Theorem main_reads_past_buffer (prog in_file out_file arg3 : string)
    (rest : list string) (m : mallocs) (sc : schedule) (src : ppm_image) (i : Z) :
  readable read_ppm in_file src → all_allocated m →
  needs_rescale src = false →
  1 ≤ atoi arg3 → (x src ÷ STEP) `mod` atoi arg3 = 0 →
  valid_schedule (atoi arg3) sc →
  0 ≤ i < x src ÷ STEP → x src * y src ≤ i * STEP * y src + x src - 1 →
  main float float_of_int fdiv sample_bicubic read_ppm atoi
    (prog :: in_file :: out_file :: arg3 :: rest) m sc = Undefined.
Proof.
  intros (Hread & Hvalid & Hcontours) Halloc Hneeds HN Hp (Hs1 & Hs2 & Hs3) Hi Hoob.
  pose proof Halloc as (Him & Hth & Hmap & _ & _ & Hgr & Hrow).
  pose proof (pq_bounds src Hvalid) as Hpq. simpl in Hpq.
  destruct (read_contours_ok read_ppm 16 0) as (cm & Hcm & _).
  { intros k Hk. apply Hcontours. unfold CONTOUR_CONFIG_COUNT. lia. }
  assert (Hinit : init_contour_map read_ppm (m_map m) = Ret cm).
  { unfold init_contour_map. destruct (m_map m); [done|]. exact Hcm. }
  unfold main. rewrite bool_decide_false by (simpl; lia).
  unfold main_body. simpl (_ !! _). simpl (defined _).
  rewrite !outcome_bind_Ret, Hread, outcome_bind_Ret, Hinit, outcome_bind_Ret.
  cbv zeta.
  set (image := (new_struct ∅ src).1).
  set (heap := (new_struct ∅ src).2).
  assert (Himage : heap !! image = Some src) by apply lookup_insert_eq.
  unfold needs_rescale in Hneeds. apply negb_false_iff in Hneeds.
  unfold working_image. rewrite Hneeds, outcome_bind_Ret.
  unfold main_workers. simpl (_.1). simpl (_.2).
  rewrite Himage. simpl (defined _). rewrite outcome_bind_Ret.
  destruct (allocate_grid_ok src (m_grid m) (m_grid_row m)) as (g & Hg & Hdims);
    [done..|].
  rewrite Hg, outcome_bind_Ret.
  rewrite bool_decide_true by lia.
  destruct (m_imagine m); [done|]. destruct (m_threads m); [done|].
  destruct (assigned_exists (x src ÷ STEP) (atoi arg3) i) as (t0 & Ht0 & Hin);
    [lia|done| |].
  { rewrite divides_cover by (done || lia). lia. }
  assert (Hrun : run_workers float float_of_int fdiv sample_bicubic
                   cm image image (atoi arg3) sc (Shared heap g) = None).
  { unfold run_workers.
    assert (Hid : ∀ l, run_stage (apeleaza_rescale float float_of_int fdiv
                                    sample_bicubic)
                         (λ t, Worker t image image (atoi arg3)) l (Shared heap g)
                       = Some (Shared heap g)).
    { induction l as [|t l IH]; [done|].
      by rewrite (run_stage_cons _ (λ t, Worker t image image (atoi arg3)) t l _ _
                    (apeleaza_rescale_same float float_of_int fdiv sample_bicubic
                       image t (atoi arg3) (Shared heap g))). }
    rewrite Hid. simpl.
    rewrite (sample_stage_past_buffer src image image (atoi arg3)
               (sched_sample sc) t0 i); [done|done|done|done| |done].
    by apply (sched_elem (atoi arg3)). }
  by rewrite Hrun.
Qed.

End past_buffer.

(** The source of 144 rows and 16 columns with two workers: the read for
    grid row 17 is at offset 2319 of 2304. *)
Lemma main_reads_past_buffer_witness :
  main unit (λ _, ()) (λ _ _, ()) (λ _ _ _, white) narrow_read_ppm demo_atoi
    ["./tema1"; "in.ppm"; "out.ppm"; "2"] demo_mallocs
    (Schedule [0; 1] [1; 0] [0; 1]) = Undefined.
Proof.
  apply (main_reads_past_buffer unit (λ _, ()) (λ _ _, ()) (λ _ _ _, white)
           narrow_read_ppm demo_atoi "./tema1" "in.ppm" "out.ppm" "2" []
           demo_mallocs (Schedule [0; 1] [1; 0] [0; 1]) (flat_image 144 16 white) 17).
  - split; [reflexivity|]. split; [apply flat_image_valid; lia|].
    intros k Hk. exists (flat_image 8 8 black). split; [reflexivity|].
    split; [apply flat_image_valid; lia|]. split; reflexivity.
  - repeat split; discriminate.
  - reflexivity.
  - by vm_compute.
  - reflexivity.
  - repeat split; simpl; [reflexivity|apply perm_swap|reflexivity].
  - by vm_compute.
  - by vm_compute.
Defined.
